(** * news-analyzer: the preprocessing and feature pipeline

    A shallow embedding of [src/preprocess.py] and [src/features.py] and the
    properties their specification states about them.

    The two modules are written against Polars (and, for the RSI, pandas).
    The table operations they call are embedded in [Polars] and [Pandas]
    below, after the libraries' documented behaviour; the repository's own
    functions are then transcribed on top of them, statement by statement.

    Numbers.  A [Float64] cell is modelled by [F64.t]: a rational, computed
    with exactly, together with the IEEE-754 special values (the two
    infinities, the signed zeros and NaN) and their arithmetic.  Rounding
    and overflow of the 53-bit significand are outside this model. *)

From Stdlib Require Import List ZArith QArith Bool Lia Lqa.
From Stdlib Require Import Sorting Permutation.
From Stdlib Require String Ascii OrderedTypeEx.
Import ListNotations String.StringSyntax.

Abbreviation string := String.string.
Bind Scope string_scope with String.string.
Delimit Scope string_scope with string.
Bind Scope char_scope with Ascii.ascii.
Delimit Scope char_scope with char.

Local Open Scope Z_scope.

(* ================================================================== *)
(** ** Floats *)

Module F64.

(** [Fin q z]: the finite value [q]; when [q] is zero, [z] tells -0.0
    (true) from +0.0 (false), and it is not looked at otherwise. *)
Inductive t : Type :=
| NaN
| Inf (neg : bool)
| Fin (q : Q) (negz : bool).

Definition Qltb (p q : Q) : bool := negb (Qle_bool q p).
Definition is0 (q : Q) : bool := Qeq_bool q 0.

Definition of_Q (q : Q) : t := Fin q false.
Definition of_Z (z : Z) : t := Fin (inject_Z z) false.
Definition of_nat (n : nat) : t := of_Z (Z.of_nat n).

Definition is_nan (x : t) : bool :=
  match x with NaN => true | _ => false end.

Definition is_finite (x : t) : bool :=
  match x with Fin _ _ => true | _ => false end.

Definition is_zero (x : t) : bool :=
  match x with Fin q _ => is0 q | _ => false end.

Definition signbit (x : t) : bool :=
  match x with
  | NaN => false
  | Inf s => s
  | Fin q z => if is0 q then z else Qltb q 0
  end.

Definition opp (x : t) : t :=
  match x with
  | NaN => NaN
  | Inf s => Inf (negb s)
  | Fin q z => Fin (- q) (negb z)
  end.

Definition add (x y : t) : t :=
  match x, y with
  | NaN, _ | _, NaN => NaN
  | Inf s, Inf s' => if Bool.eqb s s' then Inf s else NaN
  | Inf s, Fin _ _ => Inf s
  | Fin _ _, Inf s => Inf s
  | Fin p z, Fin q z' => Fin (p + q) (if is0 p && is0 q then z && z' else false)
  end.

Definition sub (x y : t) : t := add x (opp y).

Definition mul (x y : t) : t :=
  match x, y with
  | NaN, _ | _, NaN => NaN
  | Inf s, Inf s' => Inf (xorb s s')
  | Inf s, Fin q _ => if is0 q then NaN else Inf (xorb s (signbit y))
  | Fin p _, Inf s => if is0 p then NaN else Inf (xorb (signbit x) s)
  | Fin p _, Fin q _ => Fin (p * q) (xorb (signbit x) (signbit y))
  end.

Definition div (x y : t) : t :=
  match x, y with
  | NaN, _ | _, NaN => NaN
  | Inf _, Inf _ => NaN
  | Inf s, Fin _ _ => Inf (xorb s (signbit y))
  | Fin _ _, Inf s => Fin 0 (xorb (signbit x) s)
  | Fin p _, Fin q _ =>
      if is0 q
      then (if is0 p then NaN else Inf (xorb (signbit x) (signbit y)))
      else Fin (p / q) (xorb (signbit x) (signbit y))
  end.

(** IEEE comparisons: every comparison with NaN is false, [<>] is true. *)
Definition eqb (x y : t) : bool :=
  match x, y with
  | Inf s, Inf s' => Bool.eqb s s'
  | Fin p _, Fin q _ => Qeq_bool p q
  | _, _ => false
  end.

Definition ltb (x y : t) : bool :=
  match x, y with
  | NaN, _ | _, NaN => false
  | Inf s, Inf s' => s && negb s'
  | Inf s, Fin _ _ => s
  | Fin _ _, Inf s' => negb s'
  | Fin p _, Fin q _ => Qltb p q
  end.

Definition leb (x y : t) : bool := ltb x y || eqb x y.
Definition gtb (x y : t) : bool := ltb y x.
Definition geb (x y : t) : bool := leb y x.
Definition neqb (x y : t) : bool := negb (eqb x y).

(** The order Polars compares floats with: the IEEE one, except that NaN
    is equal to itself and above every other float. *)
Definition tot_geb (x y : t) : bool := is_nan x || geb x y.
Definition tot_ltb (x y : t) : bool := negb (tot_geb x y).
Definition tot_gtb (x y : t) : bool := tot_ltb y x.

(** Square root, for the rolling standard deviation: exact on the squares
    of rationals, and cut after 53 binary digits otherwise. *)
Definition sqrt (x : t) : t :=
  match x with
  | NaN => NaN
  | Inf s => if s then NaN else Inf false
  | Fin q z =>
      if is0 q then Fin 0 z
      else if Qltb q 0 then NaN
      else
        let n := Qnum q in
        let d := Zpos (Qden q) in
        let r := Z.sqrt (n * d) in
        if Z.eqb (r * r) (n * d)
        then Fin (Qmake r (Qden q)) false
        else Fin (Qmake (Z.sqrt (n * d * 2 ^ 106)) (Qden q * 2 ^ 53)) false
  end.

(** Two cells hold the same float. *)
Definition same (x y : t) : Prop :=
  match x, y with
  | NaN, NaN => True
  | Inf s, Inf s' => s = s'
  | Fin p z, Fin q z' => p == q /\ (p == 0 -> z = z')
  | _, _ => False
  end.

Definition sum (xs : list t) : t := fold_left add xs (of_Z 0).

End F64.

Abbreviation f64 := F64.t.

Declare Scope f64_scope.
Delimit Scope f64_scope with f64.
Bind Scope f64_scope with F64.t.
Infix "+" := F64.add : f64_scope.
Infix "-" := F64.sub : f64_scope.
Infix "*" := F64.mul : f64_scope.
Infix "/" := F64.div : f64_scope.
Notation "- x" := (F64.opp x) : f64_scope.

(* ================================================================== *)
(** ** Rows and their keys *)

(** Every table of the pipeline carries the two key columns [TICKER] and
    [TIMESTAMP].  A [Datetime] cell is the number of microseconds since the
    epoch, a [Duration] cell a number of microseconds. *)
Class Keyed (R : Type) : Type :=
  { ticker : R -> string;
    timestamp : R -> Z }.

#[export] Instance Keyed_with (R X : Type) `{Keyed R} : Keyed (R * X) :=
  {| ticker := fun p => ticker (fst p);
     timestamp := fun p => timestamp (fst p) |}.

(* ================================================================== *)
(** ** The Polars operations the pipeline calls *)

Module Polars.

(** A column: one nullable cell per row. *)
Definition Series (V : Type) : Type := list (option V).

(** *** Column kernels *)

Definition lift2 {A B C} (f : A -> B -> C) (x : option A) (y : option B)
  : option C :=
  match x, y with
  | Some a, Some b => Some (f a b)
  | _, _ => None
  end.

(** [Series.diff()]: the difference to the previous cell, null in the
    first row. *)
Fixpoint diff_from {V D} (minus : V -> V -> D) (prev : option V)
         (xs : Series V) : Series D :=
  match xs with
  | [] => []
  | x :: xs' => lift2 minus x prev :: diff_from minus x xs'
  end.

Definition diff {V D} (minus : V -> V -> D) (xs : Series V) : Series D :=
  diff_from minus None xs.

(** [Series.shift(n)]: cell [i] moves to [i + n]; the cells that fall off
    are lost and the vacated ones are null. *)
Definition shift {V} (n : Z) (xs : Series V) : Series V :=
  let len := length xs in
  if 0 <=? n
  then let k := Nat.min (Z.to_nat n) len in
       repeat None k ++ firstn (len - k)%nat xs
  else let k := Nat.min (Z.to_nat (- n)) len in
       skipn k xs ++ repeat None k.

(** The cells of the window of [w] rows that ends at row [i]. *)
Definition window_at {V} (w : Z) (i : nat) (xs : list V) : list V :=
  skipn (S i - Z.to_nat w)%nat (firstn (S i) xs).

Fixpoint non_null {V} (xs : Series V) : list V :=
  match xs with
  | [] => []
  | Some x :: xs' => x :: non_null xs'
  | None :: xs' => non_null xs'
  end.

Definition mean (vals : list f64) : f64 :=
  (F64.sum vals / F64.of_nat (length vals))%f64.

(** Sample standard deviation ([ddof = 1], the Polars default). *)
Definition std (vals : list f64) : f64 :=
  let m := mean vals in
  F64.sqrt
    (F64.sum (map (fun x => ((x - m) * (x - m))%f64) vals)
     / F64.of_Z (Z.of_nat (length vals) - 1))%f64.

(** [min_periods=None] with an integer [window_size] stands for the window
    size itself. *)
Definition prepare_min_periods (window_size : Z) (min_periods : option Z) : Z :=
  match min_periods with
  | Some m => m
  | None => window_size
  end.

(** A rolling aggregate: at each row, [agg] of the non-null cells of the
    window ending there, once at least [min_periods] of them are there,
    and null before.  (Polars rejects a window size below 1; the statements
    about rolling columns assume [1 <= window_size].) *)
Definition rolling (agg : list f64 -> f64) (window_size : Z)
           (min_periods : option Z) (xs : Series f64) : Series f64 :=
  let mp := prepare_min_periods window_size min_periods in
  map (fun i =>
         let vals := non_null (window_at window_size i xs) in
         if mp <=? Z.of_nat (length vals) then Some (agg vals) else None)
      (seq 0 (length xs)).

Definition rolling_mean := rolling mean.
Definition rolling_std := rolling std.

(** [ewm_mean(span=..., adjust=False)]: with [alpha = 2 / (span + 1)],
    [y_0 = x_0] and [y_t = alpha * x_t + (1 - alpha) * y_(t-1)].  A null
    cell gives a null and leaves the chain as it is (the columns smoothed
    in this repository hold none).  Polars rejects a span below 1. *)
Definition alpha_of_span (span : Z) : f64 :=
  (F64.of_Z 2 / F64.of_Z (span + 1))%f64.

Definition ewm_step (alpha x prev : f64) : f64 :=
  (alpha * x + (F64.of_Z 1 - alpha) * prev)%f64.

Fixpoint ewm_from (alpha : f64) (prev : option f64) (xs : Series f64)
  : Series f64 :=
  match xs with
  | [] => []
  | None :: xs' => None :: ewm_from alpha prev xs'
  | Some x :: xs' =>
      let y := match prev with
               | None => x
               | Some p => ewm_step alpha x p
               end in
      Some y :: ewm_from alpha (Some y) xs'
  end.

Definition ewm_mean (span : Z) (xs : Series f64) : Series f64 :=
  ewm_from (alpha_of_span span) None xs.

(** The distinct keys of a column, in the order of their first row. *)
Fixpoint unique (ks : list string) : list string :=
  match ks with
  | [] => []
  | k :: ks' => k :: List.filter (fun k' => negb (String.eqb k' k)) (unique ks')
  end.

(** *** Expressions and frames *)

Section Frames.
Context {R : Type}.

(** A frame is the list of its rows; an expression yields one column
    when it is evaluated against a frame. *)
Definition Expr (V : Type) : Type := list R -> Series V.

Definition col {V} (f : R -> V) : Expr V :=
  fun df => map (fun r => Some (f r)) df.

Definition col_nullable {V} (f : R -> option V) : Expr V :=
  fun df => map f df.

Definition lit {V} (v : V) : Expr V :=
  fun df => map (fun _ => Some v) df.

Definition apply {V W} (k : Series V -> Series W) (e : Expr V) : Expr W :=
  fun df => k (e df).

Definition binop {A B C} (f : A -> B -> C) (e1 : Expr A) (e2 : Expr B)
  : Expr C :=
  fun df => map (fun p => lift2 f (fst p) (snd p)) (combine (e1 df) (e2 df)).

(** The rows of [df] whose key is [k], in frame order. *)
Definition group (key : R -> string) (k : string) (df : list R) : list R :=
  List.filter (fun r => String.eqb (key r) k) df.

(** [e.over(key)]: [e] is evaluated on each group of rows with the same
    key, in frame order, and every row receives the cell of its rank in
    its group. *)
Fixpoint over_from {V} (key : R -> string) (e : Expr V) (df seen rest : list R)
  : Series V :=
  match rest with
  | [] => []
  | r :: rest' =>
      let k := key r in
      nth (length (group key k seen)) (e (group key k df)) None
      :: over_from key e df (seen ++ [r]) rest'
  end.

Definition over {V} (key : R -> string) (e : Expr V) : Expr V :=
  fun df => over_from key e df [] df.

(** [df.with_columns(e.alias(...))]: the row and its new cell. *)
Definition with_columns {X} (df : list R) (e : list R -> list X)
  : list (R * X) :=
  combine df (e df).

(** Several expressions of one [with_columns] call are all evaluated
    against the frame the call receives. *)
Definition also {X Y} (e1 : list R -> list X) (e2 : list R -> list Y)
  : list R -> list (X * Y) :=
  fun df => combine (e1 df) (e2 df).

(** [df.filter(p)] keeps the rows where [p] is true; a null is not. *)
Definition filter (df : list R) (p : Expr bool) : list R :=
  map fst
      (List.filter
         (fun rv => match snd rv with Some true => true | _ => false end)
         (combine df (p df))).

(** [df.drop_nulls(subset=[c])]. *)
Definition drop_nulls {V} (df : list R) (c : R -> option V) : list R :=
  List.filter (fun r => match c r with Some _ => true | None => false end) df.

(** [df.group_by(key).agg(pl.len())]: one row per key, with the number
    of rows that carry it. *)
Definition group_by_len (key : R -> string) (df : list R)
  : list (string * Z) :=
  map (fun k => (k, Z.of_nat (length (group key k df))))
      (unique (map key df)).

(** [df.partition_by(key, maintain_order=True)]: one frame per key, the
    keys in the order of their first row. *)
Definition partition_by (key : R -> string) (df : list R) : list (list R) :=
  map (fun k => group key k df) (unique (map key df)).

(** [e.is_in(values)]. *)
Definition is_in (e : Expr string) (values : list string) : Expr bool :=
  fun df => map (option_map (fun s => existsb (String.eqb s) values)) (e df).

(** [df.sort(["TICKER", "TIMESTAMP"])]: ascending, tickers compared as
    byte strings.  (Polars leaves the order of equal keys open; here
    they keep their order.) *)
Context `{Keyed R}.

Definition key_leb (a b : R) : bool :=
  match String.compare (ticker a) (ticker b) with
  | Lt => true
  | Eq => timestamp a <=? timestamp b
  | Gt => false
  end.

Fixpoint insert (x : R) (l : list R) : list R :=
  match l with
  | [] => [x]
  | y :: l' => if key_leb x y then x :: y :: l' else y :: insert x l'
  end.

Fixpoint sort (df : list R) : list R :=
  match df with
  | [] => []
  | r :: df' => insert r (sort df')
  end.

End Frames.

End Polars.

(* ================================================================== *)
(** ** The Polars operations of the [TIMESTAMP] column

    [cast(pl.Utf8)] of an integer column, [str.zfill] and [str.strptime]. *)

Module Str.
Import Ascii.AsciiSyntax.

(** The character of the decimal digit [d], for [d] from 0 to 9. *)
Definition digit (d : Z) : Ascii.ascii :=
  Ascii.ascii_of_nat (48 + Z.to_nat d).

(** The decimal digits of [n], for [0 <= n], the most significant first.
    [fuel] bounds their number: an [Int64] has nineteen at most. *)
Fixpoint digits (fuel : nat) (n : Z) : list Ascii.ascii :=
  match fuel with
  | O => []
  | S fuel' =>
      (if n <? 10 then [] else digits fuel' (n / 10)) ++ [digit (n mod 10)]
  end.

(** [cast(pl.Utf8)] of an [Int64] cell. *)
Definition cast_utf8 (n : Z) : string :=
  if n <? 0
  then String.String "-" (String.string_of_list_ascii (digits 19 (- n)))
  else String.string_of_list_ascii (digits 19 n).

Definition zeros (k : nat) : string :=
  String.string_of_list_ascii (repeat "0"%char k).

(** [str.zfill(length)]: zeros are put in front of the text until it has
    [length] characters, behind the sign when the text starts with a minus
    sign.  (The text of an integer starts with a digit or a minus sign;
    other signs are not looked at here.) *)
Definition zfill (length : nat) (s : string) : string :=
  let pad := zeros (length - String.length s) in
  match s with
  | String.String c rest =>
      if Ascii.eqb c "-"
      then String.String c (String.append pad rest)
      else String.append pad s
  | String.EmptyString => pad
  end.

Definition digit_value (c : Ascii.ascii) : option Z :=
  let n := Z.of_nat (Ascii.nat_of_ascii c) in
  if (48 <=? n) && (n <=? 57) then Some (n - 48) else None.

(** The number a run of digits spells, after the digits [acc] read before
    it. *)
Fixpoint number (acc : Z) (cs : list Ascii.ascii) : option Z :=
  match cs with
  | [] => Some acc
  | c :: cs' =>
      match digit_value c with
      | Some d => number (10 * acc + d) cs'
      | None => None
      end
  end.

Definition is_leap_year (y : Z) : bool :=
  (y mod 4 =? 0) && (negb (y mod 100 =? 0) || (y mod 400 =? 0)).

Definition days_in_month (y m : Z) : Z :=
  if m =? 2 then (if is_leap_year y then 29 else 28)
  else if (m =? 4) || (m =? 6) || (m =? 9) || (m =? 11) then 30
  else 31.

(** The days from 1970-01-01 to the day [d] of the month [m] of the year
    [y] of the Gregorian calendar: the years are counted from March, so
    that the leap day is the last day of a year. *)
Definition days_from_civil (y m d : Z) : Z :=
  let y' := if m <=? 2 then y - 1 else y in
  let mp := (m + 9) mod 12 in
  365 * y' + y' / 4 - y' / 100 + y' / 400 + (153 * mp + 2) / 5 + d - 1
  - 719468.

(** [str.strptime(pl.Datetime, format="%Y%m%d %H%M%S")] on a text of the
    very form the format spells: four digits of year, two of month, two of
    day, a space, two digits of hour, two of minute, two of second, which
    name a day of the calendar and a time of that day.  The value is the
    [Datetime] cell, in microseconds since 1970-01-01 00:00:00.  No other
    text has a value here: what the parser makes of shorter fields, of
    other white space or of a second 60 is not described, and the
    statements about this function are about texts that have a value. *)
Definition strptime (s : string) : option Z :=
  match String.list_ascii_of_string s with
  | [y1; y2; y3; y4; m1; m2; d1; d2; sp; h1; h2; n1; n2; s1; s2] =>
      match number 0 [y1; y2; y3; y4], number 0 [m1; m2], number 0 [d1; d2],
            number 0 [h1; h2], number 0 [n1; n2], number 0 [s1; s2] with
      | Some y, Some m, Some d, Some h, Some mi, Some sec =>
          if Ascii.eqb sp " "
             && (1 <=? m) && (m <=? 12) && (1 <=? d) && (d <=? days_in_month y m)
             && (h <=? 23) && (mi <=? 59) && (sec <=? 59)
          then Some ((((days_from_civil y m d * 24 + h) * 60 + mi) * 60 + sec)
                     * 1000000)
          else None
      | _, _, _, _, _, _ => None
      end
  | _ => None
  end.

End Str.

(* ================================================================== *)
(** ** [src/preprocess.py] *)

(** A bar, as [preprocess_data] has it once the [TIMESTAMP] column is built
    from [DATE] and [TIME] and the auxiliary columns are dropped (steps 1
    and 2 of the function). *)
Record Bar : Type :=
  { TICKER : string;
    TIMESTAMP : Z;
    OPEN : f64;
    HIGH : f64;
    LOW : f64;
    CLOSE : f64;
    VOL : f64 }.

#[export] Instance Keyed_Bar : Keyed Bar :=
  {| ticker := TICKER; timestamp := TIMESTAMP |}.

(** A row of the table [preprocess_data] returns. *)
Record Target : Type :=
  { bar : Bar;
    CLOSE_FWD_1 : option f64;
    RET_FWD_1 : option f64;
    UP_NEXT : option Z }.

#[export] Instance Keyed_Target : Keyed Target :=
  {| ticker := fun r => TICKER (bar r);
     timestamp := fun r => TIMESTAMP (bar r) |}.

(** A row of the file as step 1 of [preprocess_data] scans it, with the
    columns [DATE] (as in 20240105) and [TIME] (as in 93000) read as
    integers. *)
Module Raw.
Record t : Type :=
  { TICKER : string;
    PER : Z;
    DATE : Z;
    TIME : Z;
    OPEN : f64;
    HIGH : f64;
    LOW : f64;
    CLOSE : f64;
    VOL : f64;
    OPENINT : Z }.
End Raw.

Module Preprocess.

(** Step 2, BUILD TIMESTAMP: the text of [DATE], a space and the text of
    [TIME] filled with zeros to six characters, read as a date and a time;
    the columns [PER], [OPENINT], [DATE] and [TIME] are dropped. *)
Definition timestamp_text (date time : Z) : string :=
  String.append (String.append (Str.cast_utf8 date) " ")
                (Str.zfill 6 (Str.cast_utf8 time)).

Definition timestamp_of (date time : Z) : option Z :=
  Str.strptime (timestamp_text date time).

Definition build_timestamp (r : Raw.t) : option Bar :=
  option_map
    (fun ts => {| TICKER := Raw.TICKER r;
                  TIMESTAMP := ts;
                  OPEN := Raw.OPEN r;
                  HIGH := Raw.HIGH r;
                  LOW := Raw.LOW r;
                  CLOSE := Raw.CLOSE r;
                  VOL := Raw.VOL r |})
    (timestamp_of (Raw.DATE r) (Raw.TIME r)).

(** The frame with its [TIMESTAMP] column, when every row has one. *)
Fixpoint build_timestamps (rows : list Raw.t) : option (list Bar) :=
  match rows with
  | [] => Some []
  | r :: rows' =>
      match build_timestamp r, build_timestamps rows' with
      | Some b, Some bs => Some (b :: bs)
      | _, _ => None
      end
  end.

(** [pl.duration(minutes=m)], in microseconds. *)
Definition duration_minutes (m : Z) : Z := m * 60 * 1000000.

(** Step 3, FILTER TICKERS WITH ENOUGH DATA. *)
Definition ticker_counts (df : list Bar) : list (string * Z) :=
  Polars.group_by_len TICKER df.

Definition valid_tickers (df : list Bar) (min_samples_per_ticker : Z)
  : list string :=
  map fst
      (Polars.filter (ticker_counts df)
         (Polars.binop Z.gtb (Polars.col snd)
                       (Polars.lit min_samples_per_ticker))).

Definition filter_tickers (df : list Bar) (min_samples_per_ticker : Z)
  : list Bar :=
  Polars.filter df
    (Polars.is_in (Polars.col TICKER) (valid_tickers df min_samples_per_ticker)).

(** Step 4, SORT + DELTA CHECK.  The second component of a row of
    [with_delta] is its [DELTA] cell. *)
Definition with_delta (df : list Bar) : list (Bar * option Z) :=
  Polars.with_columns (Polars.sort df)
    (Polars.over TICKER (Polars.apply (Polars.diff Z.sub) (Polars.col TIMESTAMP))).

Definition delta_check (df : list Bar) : list Bar :=
  map fst
      (Polars.filter (with_delta df)
         (Polars.binop Z.eqb (Polars.col_nullable snd)
                       (Polars.lit (duration_minutes 5)))).

(** Step 5, ADD TARGETS. *)
Definition with_close_fwd_1 (df : list Bar) : list (Bar * option f64) :=
  Polars.with_columns df
    (Polars.over TICKER (Polars.apply (Polars.shift (-1)) (Polars.col CLOSE))).

Definition add_targets (df : list Bar) : list Target :=
  let df1 := with_close_fwd_1 df in
  let close_fwd_1 := Polars.col_nullable (snd : Bar * option f64 -> _) in
  let close := Polars.col (fun r : Bar * option f64 => CLOSE (fst r)) in
  let df2 :=
    Polars.with_columns df1
      (Polars.also
         (* RET_FWD_1 *)
         (Polars.binop F64.div (Polars.binop F64.sub close_fwd_1 close) close)
         (* UP_NEXT: the comparison, cast to Int8 *)
         (Polars.apply (map (option_map (fun b : bool => if b then 1 else 0)))
            (Polars.binop F64.tot_gtb close_fwd_1 close))) in
  Polars.drop_nulls
    (map (fun r => {| bar := fst (fst r);
                      CLOSE_FWD_1 := snd (fst r);
                      RET_FWD_1 := fst (snd r);
                      UP_NEXT := snd (snd r) |}) df2)
    CLOSE_FWD_1.

(** [preprocess_data], from the frame its steps 1 and 2 read from the file
    and give a [TIMESTAMP] column. *)
Definition preprocess_data (df : list Bar) (min_samples_per_ticker : Z)
  : list Target :=
  add_targets (delta_check (filter_tickers df min_samples_per_ticker)).

(** [preprocess_data] from the rows of the file, steps 2 to 5. *)
Definition preprocess_rows (rows : list Raw.t) (min_samples_per_ticker : Z)
  : option (list Target) :=
  option_map (fun df => preprocess_data df min_samples_per_ticker)
             (build_timestamps rows).

End Preprocess.


(* ================================================================== *)
(** ** The pandas operations [add_rsi] calls

    A float column of a pandas frame has no nulls: NaN marks a missing
    cell. *)

Module Pandas.

(** [Series.diff()]. *)
Fixpoint diff_from (prev : f64) (xs : list f64) : list f64 :=
  match xs with
  | [] => []
  | x :: xs' => (x - prev)%f64 :: diff_from x xs'
  end.

Definition diff (xs : list f64) : list f64 :=
  match xs with
  | [] => []
  | x :: xs' => F64.NaN :: diff_from x xs'
  end.

(** [Series.clip(lower=...)] and [Series.clip(upper=...)]: a cell stays
    when it is missing or within the bound, and becomes the bound
    otherwise. *)
Definition clip_lower (lower : f64) (xs : list f64) : list f64 :=
  map (fun x => if F64.is_nan x || F64.geb x lower then x else lower) xs.

Definition clip_upper (upper : f64) (xs : list f64) : list f64 :=
  map (fun x => if F64.is_nan x || F64.leb x upper then x else upper) xs.

(** [Series.ewm(span=span, adjust=False).mean()], with the defaults
    [min_periods=0] and [ignore_na=False]: the loop of pandas' [ewm]
    kernel over the whole column, with [com = (span - 1) / 2] and
    [alpha = 1 / (1 + com)].  (pandas rejects a span below 1; the statements
    that depend on the value of [alpha] assume [1 <= span].) *)
Section Ewm.
Variable span : Z.

Definition com : f64 := (F64.of_Z (span - 1) / F64.of_Z 2)%f64.
Definition alpha : f64 := (F64.of_Z 1 / (F64.of_Z 1 + com))%f64.
Definition old_wt_factor : f64 := (F64.of_Z 1 - alpha)%f64.
Definition new_wt : f64 := alpha.
Definition minp : nat := 1.

Fixpoint ewm_loop (weighted old_wt : f64) (nobs : nat) (vals : list f64)
  : list f64 :=
  match vals with
  | [] => []
  | cur :: vals' =>
      let is_observation := F64.eqb cur cur in
      let nobs := (nobs + if is_observation then 1 else 0)%nat in
      let st :=
        if F64.eqb weighted weighted then
          let old_wt := (old_wt * old_wt_factor)%f64 in
          if is_observation then
            (if F64.neqb weighted cur
             then ((old_wt * weighted + new_wt * cur) / (old_wt + new_wt))%f64
             else weighted,
             F64.of_Z 1)
          else (weighted, old_wt)
        else if is_observation then (cur, old_wt)
        else (weighted, old_wt) in
      (if (minp <=? nobs)%nat then fst st else F64.NaN)
      :: ewm_loop (fst st) (snd st) nobs vals'
  end.

Definition ewm_mean (vals : list f64) : list f64 :=
  match vals with
  | [] => []
  | weighted :: vals' =>
      let nobs := if F64.eqb weighted weighted then 1%nat else 0%nat in
      (if (minp <=? nobs)%nat then weighted else F64.NaN)
      :: ewm_loop weighted (F64.of_Z 1) nobs vals'
  end.
End Ewm.

(** [pl.from_pandas] reads a NaN cell as a null. *)
Definition nan_to_null (x : f64) : option f64 :=
  if F64.is_nan x then None else Some x.

End Pandas.

(* ================================================================== *)
(** ** [src/features.py]

    The functions take any frame with the two key columns; [column] (or
    [price_col]) is the source column, given by its accessor.  The columns a
    function appends are the added components of the rows it returns. *)

(** The three columns [add_macd] appends. *)
Record Macd (R : Type) : Type :=
  { macd_row : R;
    MACD : option f64;
    MACD_SIGNAL : option f64;
    MACD_HIST : option f64 }.

(** The three columns [add_bollinger_bands] appends. *)
Record Bollinger (R : Type) : Type :=
  { bb_row : R;
    BB_MID : option f64;
    BB_UPPER : option f64;
    BB_LOWER : option f64 }.

Arguments macd_row {R}.
Arguments MACD {R}.
Arguments MACD_SIGNAL {R}.
Arguments MACD_HIST {R}.
Arguments bb_row {R}.
Arguments BB_MID {R}.
Arguments BB_UPPER {R}.
Arguments BB_LOWER {R}.

Module Features.
Section OnFrame.
Context {R : Type} `{Keyed R}.

(** The second component is the [SMA_{window}] cell. *)
Definition add_sma (df : list R) (column : R -> f64) (window : Z)
           (group_col : R -> string) : list (R * option f64) :=
  Polars.with_columns df
    (Polars.over group_col
       (Polars.apply (Polars.rolling_mean window (Some window))
                     (Polars.col column))).

(** The second component is the [EMA_{window}] cell. *)
Definition add_ema (df : list R) (column : R -> f64) (window : Z)
  : list (R * option f64) :=
  Polars.with_columns (Polars.sort df)
    (Polars.over ticker
       (Polars.apply (Polars.ewm_mean window) (Polars.col column))).

Definition add_macd (df : list R) (column : R -> f64)
           (short_span long_span signal_span : Z) : list (Macd R) :=
  let df := Polars.sort df in
  (* Step 1: _short_ema and _long_ema *)
  let df1 : list (R * (option f64 * option f64)) :=
    Polars.with_columns df
      (Polars.also
         (Polars.over ticker
            (Polars.apply (Polars.ewm_mean short_span) (Polars.col column)))
         (Polars.over ticker
            (Polars.apply (Polars.ewm_mean long_span) (Polars.col column)))) in
  (* Step 2: MACD *)
  let df2 : list (R * (option f64 * option f64) * option f64) :=
    Polars.with_columns df1
      (Polars.binop F64.sub
         (Polars.col_nullable (fun r => fst (snd r)))
         (Polars.col_nullable (fun r => snd (snd r)))) in
  (* Step 3: MACD_SIGNAL *)
  let df3 :=
    Polars.with_columns df2
      (Polars.over ticker
         (Polars.apply (Polars.ewm_mean signal_span)
                       (Polars.col_nullable snd))) in
  (* Step 4: MACD_HIST *)
  let df4 :=
    Polars.with_columns df3
      (Polars.binop F64.sub
         (Polars.col_nullable (fun r => snd (fst r)))
         (Polars.col_nullable snd)) in
  (* drop _short_ema and _long_ema *)
  map (fun r =>
         {| macd_row := fst (fst (fst (fst r)));
            MACD := snd (fst (fst r));
            MACD_SIGNAL := snd (fst r);
            MACD_HIST := snd r |}) df4.

Definition add_bollinger_bands (df : list R) (price_col : R -> f64)
           (window : Z) (k : f64) : list (Bollinger R) :=
  let df := Polars.sort df in
  let sma :=
    Polars.over ticker
      (Polars.apply (Polars.rolling_mean window None) (Polars.col price_col)) in
  let std :=
    Polars.over ticker
      (Polars.apply (Polars.rolling_std window None) (Polars.col price_col)) in
  let upper := Polars.binop F64.add sma (Polars.binop F64.mul (Polars.lit k) std) in
  let lower := Polars.binop F64.sub sma (Polars.binop F64.mul (Polars.lit k) std) in
  let mid := sma in
  map (fun r =>
         {| bb_row := fst r;
            BB_MID := fst (snd r);
            BB_UPPER := fst (snd (snd r));
            BB_LOWER := snd (snd (snd r)) |})
      (Polars.with_columns df (Polars.also mid (Polars.also upper lower))).

(** [add_rsi]: the local series of [_rsi_per_ticker], one definition per
    assignment.  [batch.to_pandas()] hands the price column over as it is,
    and [pl.from_pandas] reads the NaN cells of the new column as nulls.
    (A frame without rows has no batch and [pl.concat] nothing to put
    together; the statements below say something of frames with rows
    only.) *)
Section Rsi.
Variable price_col : R -> f64.
Variable window : Z.

Definition rsi_delta (batch : list R) : list f64 :=
  Pandas.diff (map price_col batch).

Definition rsi_gain (batch : list R) : list f64 :=
  Pandas.clip_lower (F64.of_Z 0) (rsi_delta batch).

Definition rsi_loss (batch : list R) : list f64 :=
  map F64.opp (Pandas.clip_upper (F64.of_Z 0) (rsi_delta batch)).

Definition rsi_avg_gain (batch : list R) : list f64 :=
  Pandas.ewm_mean window (rsi_gain batch).

Definition rsi_avg_loss (batch : list R) : list f64 :=
  Pandas.ewm_mean window (rsi_loss batch).

Definition rsi_rs (batch : list R) : list f64 :=
  map (fun gl => (fst gl / snd gl)%f64)
      (combine (rsi_avg_gain batch) (rsi_avg_loss batch)).

Definition rsi_value (rs : f64) : f64 :=
  (F64.of_Z 100 - F64.of_Z 100 / (F64.of_Z 1 + rs))%f64.

Definition rsi_rsi (batch : list R) : list f64 :=
  map rsi_value (rsi_rs batch).

(** The second component is the [RSI_{window}] cell. *)
Definition _rsi_per_ticker (batch : list R) : list (R * option f64) :=
  combine batch (map Pandas.nan_to_null (rsi_rsi batch)).

Definition add_rsi (df : list R) : list (R * option f64) :=
  concat (map _rsi_per_ticker (Polars.partition_by ticker df)).
End Rsi.

End OnFrame.
End Features.


(* ================================================================== *)
(** ** Frames used as examples *)

Module Examples.

(** A bar of [tk] at [minute] minutes after the epoch, all of whose prices
    are [close]. *)
Definition bar_at (tk : string) (minute : Z) (close : f64) : Bar :=
  {| TICKER := tk;
     TIMESTAMP := Preprocess.duration_minutes minute;
     OPEN := close; HIGH := close; LOW := close; CLOSE := close;
     VOL := F64.of_Z 1000 |}.

(** One ticker, a bar every five minutes, except that the bar of minute
    15 is missing. *)
Definition gap_frame : list Bar :=
  [ bar_at "AAA" 0 (F64.of_Z 100);
    bar_at "AAA" 5 (F64.of_Z 101);
    bar_at "AAA" 10 (F64.of_Z 102);
    bar_at "AAA" 20 (F64.of_Z 103);
    bar_at "AAA" 25 (F64.of_Z 104);
    bar_at "AAA" 30 (F64.of_Z 105) ].

(** The three-bar series of the specification's target test, with the
    bars of a second ticker in between. *)
Definition two_tickers : list Bar :=
  [ bar_at "AAA" 0 (F64.of_Z 100);
    bar_at "BBB" 0 (F64.of_Z 0);
    bar_at "AAA" 5 (F64.of_Z 102);
    bar_at "BBB" 5 (F64.of_Z 7);
    bar_at "AAA" 10 (F64.of_Z 101);
    bar_at "BBB" 10 (F64.of_Z 7) ].

(** A row of the file: the bar of [tk] on the day [date] at [time], all of
    whose prices are [close]. *)
Definition raw_at (tk : string) (date time : Z) (close : f64) : Raw.t :=
  {| Raw.TICKER := tk;
     Raw.PER := 5;
     Raw.DATE := date;
     Raw.TIME := time;
     Raw.OPEN := close; Raw.HIGH := close; Raw.LOW := close;
     Raw.CLOSE := close;
     Raw.VOL := F64.of_Z 1000;
     Raw.OPENINT := 0 |}.

(** Four bars of one morning, five minutes apart, from 09:50 to 10:05. *)
Definition raw_morning : list Raw.t :=
  [ raw_at "AAA" 20240105 95000 (F64.of_Z 100);
    raw_at "AAA" 20240105 95500 (F64.of_Z 101);
    raw_at "AAA" 20240105 100000 (F64.of_Z 102);
    raw_at "AAA" 20240105 100500 (F64.of_Z 103) ].

End Examples.

(* ================================================================== *)
(** ** Vocabulary of the statements *)

(** The number of rows of [df] that carry the ticker [tk]. *)
Definition n_rows (df : list Bar) (tk : string) : Z :=
  Z.of_nat (length (Polars.group TICKER tk df)).

(** The row [add_targets] builds for the bar [b] whose next bar, within its
    ticker, is [nxt]. *)
Definition target_row (b nxt : Bar) : Target :=
  {| bar := b;
     CLOSE_FWD_1 := Some (CLOSE nxt);
     RET_FWD_1 := Some ((CLOSE nxt - CLOSE b) / CLOSE b)%f64;
     UP_NEXT := Some (if F64.tot_gtb (CLOSE nxt) (CLOSE b) then 1 else 0) |}.

(** The row [add_targets] builds from a bar and its [CLOSE_FWD_1] cell,
    before the rows with a null are dropped. *)
Definition target_of (r : Bar * option f64) : Target :=
  {| bar := fst r;
     CLOSE_FWD_1 := snd r;
     RET_FWD_1 :=
       Polars.lift2 F64.div
         (Polars.lift2 F64.sub (snd r) (Some (CLOSE (fst r))))
         (Some (CLOSE (fst r)));
     UP_NEXT :=
       option_map (fun b : bool => if b then 1 else 0)
         (Polars.lift2 F64.tot_gtb (snd r) (Some (CLOSE (fst r)))) |}.

(** Every two neighbouring rows of one ticker are [cadence] apart. *)
Definition contiguous {R : Type} `{Keyed R} (cadence : Z) (df : list R) : Prop :=
  forall i a b,
    nth_error df i = Some a -> nth_error df (S i) = Some b ->
    ticker a = ticker b -> timestamp b - timestamp a = cadence.

(** The cells of the column [c] of the frame [df] at the rows of the group
    [k], in frame order. *)
Definition sel {R X : Type} (key : R -> string) (k : string) (df : list R)
           (c : list X) : list X :=
  map snd (Polars.group (fun p : R * X => key (fst p)) k (combine df c)).

(** The order [sort] arranges rows in. *)
Definition key_le {R : Type} `{Keyed R} (a b : R) : Prop :=
  Polars.key_leb a b = true.

(** The rows come in non-decreasing timestamp order. *)
Definition by_timestamp {R : Type} `{Keyed R} (df : list R) : Prop :=
  StronglySorted (fun a b => timestamp a <= timestamp b) df.

(** The chain of the specification on a column without nulls:
    [EMA[0] = x[0]] and [EMA[t] = alpha * x[t] + (1 - alpha) * EMA[t-1]];
    [prev] is the value the chain has reached, if it has started. *)
Fixpoint ema_chain (alpha : f64) (prev : option f64) (xs : list f64)
  : list f64 :=
  match xs with
  | [] => []
  | x :: xs' =>
      let y := match prev with
               | None => x
               | Some p => (alpha * x + (F64.of_Z 1 - alpha) * p)%f64
               end in
      y :: ema_chain alpha (Some y) xs'
  end.

(** A finite float that is not negative. *)
Definition fin_nonneg (x : f64) : Prop :=
  match x with
  | F64.Fin q _ => (0 <= q)%Q
  | _ => False
  end.

(** [l] is [l'] with some of its elements left out. *)
Inductive subseq {A : Type} : list A -> list A -> Prop :=
| subseq_nil : subseq [] []
| subseq_keep x l l' : subseq l l' -> subseq (x :: l) (x :: l')
| subseq_drop x l l' : subseq l l' -> subseq l (x :: l').

(** The bars of [part] that come exactly five minutes after the bar before
    them. *)
Definition five_minute_steps (part : list Bar) : list Bar :=
  map snd
      (List.filter
         (fun p => TIMESTAMP (snd p) - TIMESTAMP (fst p)
                   =? Preprocess.duration_minutes 5)
         (combine part (tl part))).

(** [b] has another ticker than [a], or comes [gap] or more after it. *)
Definition apart {R : Type} `{Keyed R} (gap : Z) (a b : R) : Prop :=
  ticker a = ticker b -> timestamp a + gap <= timestamp b.

(** The test of the delta check on a [DELTA] cell: a null fails it. *)
Definition delta_ok (cell : option Z) : bool :=
  match Polars.lift2 Z.eqb cell (Some (Preprocess.duration_minutes 5)) with
  | Some true => true
  | _ => false
  end.

(** The [k] last decimal digits of [n], the most significant first. *)
Fixpoint fixed (k : nat) (n : Z) : list Ascii.ascii :=
  match k with
  | O => []
  | S k' => fixed k' (n / 10) ++ [Str.digit (n mod 10)]
  end.

(** The fields of a [DATE] cell, as in 20240105, and of a [TIME] cell, as
    in 93000. *)
Definition year_of (date : Z) : Z := date / 10000.
Definition month_of (date : Z) : Z := date / 100 mod 100.
Definition day_of (date : Z) : Z := date mod 100.
Definition hour_of (time : Z) : Z := time / 10000.
Definition minute_of (time : Z) : Z := time / 100 mod 100.
Definition second_of (time : Z) : Z := time mod 100.

(** [date] names a day of the calendar, in a year of four digits. *)
Definition valid_date (date : Z) : bool :=
  (1000 <=? year_of date) && (year_of date <=? 9999)
  && (1 <=? month_of date) && (month_of date <=? 12)
  && (1 <=? day_of date)
  && (day_of date <=? Str.days_in_month (year_of date) (month_of date)).

(** [time] names a second of the day. *)
Definition valid_time (time : Z) : bool :=
  (0 <=? time) && (hour_of time <=? 23) && (minute_of time <=? 59)
  && (second_of time <=? 59).

Definition seconds_of_day (time : Z) : Z :=
  (hour_of time * 60 + minute_of time) * 60 + second_of time.

(** The day after [date]. *)
Definition next_day (date : Z) : Z :=
  if day_of date <? Str.days_in_month (year_of date) (month_of date)
  then date + 1
  else if month_of date <? 12
       then year_of date * 10000 + (month_of date + 1) * 100 + 1
       else (year_of date + 1) * 10000 + 101.

(** The microseconds from 1970-01-01 00:00:00 to the time [time] of the
    day [date]. *)
Definition epoch_us (date time : Z) : Z :=
  (Str.days_from_civil (year_of date) (month_of date) (day_of date) * 86400
   + seconds_of_day time) * 1000000.

(** The days of the year [y] that come before its month [m]. *)
Definition days_before_month (y m : Z) : Z :=
  fold_right Z.add 0
    (map (fun k => Str.days_in_month y (Z.of_nat k)) (seq 1 (Z.to_nat m - 1))).

(** The bar step 2 makes of a row of the file whose date and time are
    valid. *)
Definition bar_of (r : Raw.t) : Bar :=
  {| TICKER := Raw.TICKER r;
     TIMESTAMP := epoch_us (Raw.DATE r) (Raw.TIME r);
     OPEN := Raw.OPEN r;
     HIGH := Raw.HIGH r;
     LOW := Raw.LOW r;
     CLOSE := Raw.CLOSE r;
     VOL := Raw.VOL r |}.

(** A finite float whose value has the property [P]. *)
Definition finQ (P : Q -> Prop) (x : f64) : Prop :=
  match x with
  | F64.Fin q _ => P q
  | _ => False
  end.

(* ================================================================== *)
(** * Properties *)

(** ** Lists *)

Lemma skipn_nth_cons {A} (d : A) (l : list A) (n : nat) :
  (n < length l)%nat -> skipn n l = nth n l d :: skipn (S n) l.
Proof.
  revert n; induction l as [|a l IH]; intros [|n] Hn; simpl in *; try lia.
  - reflexivity.
  - apply IH; lia.
Qed.

Lemma combine_nth_error {A B} (l : list A) (l' : list B) (n : nat) a b :
  nth_error l n = Some a -> nth_error l' n = Some b ->
  nth_error (combine l l') n = Some (a, b).
Proof.
  revert l' n; induction l as [|x l IH]; intros [|y l'] [|n]; simpl;
    try discriminate; try congruence.
  apply IH.
Qed.

Lemma nth_error_combine_inv {A B} (l : list A) (l' : list B) (n : nat) a b :
  nth_error (combine l l') n = Some (a, b) ->
  nth_error l n = Some a /\ nth_error l' n = Some b.
Proof.
  revert l' n; induction l as [|x l IH]; intros [|y l'] [|n]; simpl;
    try discriminate.
  - intros E; injection E as -> ->; auto.
  - apply IH.
Qed.

Lemma map_fst_combine {A B} (l : list A) (l' : list B) :
  length l' = length l -> map fst (combine l l') = l.
Proof.
  revert l'; induction l as [|x l IH]; intros [|y l'] E; simpl in *;
    try discriminate; auto.
  f_equal; apply IH; lia.
Qed.

Lemma map_snd_combine {A B} (l : list A) (l' : list B) :
  length l' = length l -> map snd (combine l l') = l'.
Proof.
  revert l'; induction l as [|x l IH]; intros [|y l'] E; simpl in *;
    try discriminate; auto.
  f_equal; apply IH; lia.
Qed.

(** The length of a column: [col_len] rewrites with the lemmas of the
    database [col_len] and closes the goal. *)
Create Rewrite HintDb col_len.
#[export] Hint Rewrite @length_map @length_combine @length_seq : col_len.

Ltac col_len :=
  unfold Polars.apply, Polars.col, Polars.col_nullable, Polars.lit,
    Polars.rolling_mean, Polars.rolling_std;
  autorewrite with col_len;
  solve [reflexivity | assumption | lia].

(** ** Groups and [over] *)

Section OverFacts.
Context {R V : Type}.
Variable key : R -> string.
Variable e : Polars.Expr (R := R) V.

Lemma group_app k (a b : list R) :
  Polars.group key k (a ++ b) = Polars.group key k a ++ Polars.group key k b.
Proof. apply filter_app. Qed.

Lemma over_from_length df rest seen :
  length (Polars.over_from key e df seen rest) = length rest.
Proof.
  revert seen; induction rest as [|r rest IH]; intros seen; simpl; auto.
Qed.

Lemma over_length df : length (Polars.over key e df) = length df.
Proof. apply over_from_length. Qed.

(** The rows of one group, with the cells [over] gives them, are the
    group with the cells [e] computes on it alone. *)
Lemma over_from_group df k :
  length (e (Polars.group key k df)) = length (Polars.group key k df) ->
  forall rest seen, df = seen ++ rest ->
    Polars.group (fun p : R * option V => key (fst p)) k
                 (combine rest (Polars.over_from key e df seen rest))
    = combine (Polars.group key k rest)
              (skipn (length (Polars.group key k seen))
                     (e (Polars.group key k df))).
Proof.
  intros Hlen rest; induction rest as [|r rest IH]; intros seen Hdf.
  - reflexivity.
  - assert (Hdf' : df = (seen ++ [r]) ++ rest)
      by (rewrite <- app_assoc; exact Hdf).
    specialize (IH _ Hdf').
    simpl. unfold Polars.group at 1. simpl.
    destruct (String.eqb (key r) k) eqn:Ek.
    + apply String.eqb_eq in Ek. rewrite Ek.
      fold (Polars.group (fun p : R * option V => key (fst p)) k
              (combine rest (Polars.over_from key e df (seen ++ [r]) rest))).
      rewrite IH.
      rewrite group_app. simpl. rewrite Ek, String.eqb_refl.
      rewrite length_app. simpl.
      rewrite (skipn_nth_cons None (e (Polars.group key k df))
                              (length (Polars.group key k seen))).
      * rewrite Nat.add_1_r. reflexivity.
      * rewrite Hlen, Hdf, group_app, length_app. simpl.
        rewrite Ek, String.eqb_refl. simpl. lia.
    + fold (Polars.group (fun p : R * option V => key (fst p)) k
              (combine rest (Polars.over_from key e df (seen ++ [r]) rest))).
      rewrite IH. rewrite group_app. simpl. rewrite Ek.
      rewrite app_nil_r. reflexivity.
Qed.

Lemma over_group df k :
  length (e (Polars.group key k df)) = length (Polars.group key k df) ->
  Polars.group (fun p : R * option V => key (fst p)) k
               (Polars.with_columns df (Polars.over key e))
  = combine (Polars.group key k df) (e (Polars.group key k df)).
Proof.
  intros Hlen. unfold Polars.with_columns, Polars.over.
  exact (over_from_group df k Hlen df [] eq_refl).
Qed.
End OverFacts.

(** ** [filter], [col], [lit] and [binop] on a frame *)

Section FrameFacts.
Context {R : Type}.

Lemma filter_rowwise (df : list R) (p : Polars.Expr bool) (g : R -> option bool) :
  p df = map g df ->
  Polars.filter df p
  = List.filter (fun r => match g r with Some true => true | _ => false end) df.
Proof.
  intros E. unfold Polars.filter. rewrite E. clear E.
  induction df as [|r df IH]; simpl; auto.
  destruct (g r) as [[|]|]; simpl; rewrite IH; reflexivity.
Qed.

Lemma binop_rowwise {A B C} (f : A -> B -> C) (e1 : Polars.Expr A)
      (e2 : Polars.Expr B) (g1 : R -> option A) (g2 : R -> option B) df :
  e1 df = map g1 df -> e2 df = map g2 df ->
  Polars.binop f e1 e2 df = map (fun r => Polars.lift2 f (g1 r) (g2 r)) df.
Proof.
  intros E1 E2. unfold Polars.binop. rewrite E1, E2. clear E1 E2.
  induction df as [|r df IH]; simpl; auto. now rewrite IH.
Qed.

Lemma also_rowwise {X Y} (e1 : list R -> list X) (e2 : list R -> list Y)
      (g1 : R -> X) (g2 : R -> Y) df :
  e1 df = map g1 df -> e2 df = map g2 df ->
  Polars.also e1 e2 df = map (fun r => (g1 r, g2 r)) df.
Proof.
  intros E1 E2. unfold Polars.also. rewrite E1, E2. clear E1 E2.
  induction df as [|r df IH]; simpl; auto. now rewrite IH.
Qed.

Lemma with_columns_rowwise {X} (e : list R -> list X) (g : R -> X) df :
  e df = map g df ->
  Polars.with_columns df e = map (fun r => (r, g r)) df.
Proof.
  intros E. unfold Polars.with_columns. rewrite E. clear E.
  induction df as [|r df IH]; simpl; auto. now rewrite IH.
Qed.

Lemma unique_In (ks : list string) (k : string) :
  In k (Polars.unique ks) <-> In k ks.
Proof.
  induction ks as [|k0 ks IH]; simpl; [tauto|].
  rewrite filter_In, IH, negb_true_iff, String.eqb_neq.
  destruct (String.string_dec k0 k) as [->|Hne]; [tauto|].
  split; [tauto|]. intros [E|Hin]; [contradiction|]. right; split; auto.
Qed.

Lemma unique_NoDup (ks : list string) : NoDup (Polars.unique ks).
Proof.
  induction ks as [|k0 ks IH]; simpl; constructor.
  - rewrite filter_In, String.eqb_refl. simpl. intros [_ H]; discriminate.
  - now apply NoDup_filter.
Qed.

Lemma group_In (key : R -> string) k df r :
  In r (Polars.group key k df) <-> In r df /\ key r = k.
Proof.
  unfold Polars.group. rewrite filter_In, String.eqb_eq. tauto.
Qed.

Lemma group_key (key : R -> string) k df :
  Forall (fun r => key r = k) (Polars.group key k df).
Proof.
  apply Forall_forall. intros r Hr. now apply group_In in Hr.
Qed.

Lemma group_all (key : R -> string) k df :
  Forall (fun r => key r = k) df -> Polars.group key k df = df.
Proof.
  induction 1 as [|r df Hr _ IH]; simpl; auto.
  rewrite Hr, String.eqb_refl. f_equal. exact IH.
Qed.

Lemma group_idem (key : R -> string) k df :
  Polars.group key k (Polars.group key k df) = Polars.group key k df.
Proof. apply group_all, group_key. Qed.
End FrameFacts.

(** ** The ticker filter of [preprocess_data] (step 3) *)

Lemma ticker_counts_In df tk n :
  In (tk, n) (Preprocess.ticker_counts df)
  <-> In tk (map TICKER df) /\ n = n_rows df tk.
Proof.
  unfold Preprocess.ticker_counts, Polars.group_by_len, n_rows.
  rewrite in_map_iff. split.
  - intros (k & E & Hk). injection E as -> <-.
    apply (proj1 (unique_In _ _)) in Hk. split; auto.
  - intros (Hk & ->). exists tk. split; auto. now apply (proj2 (unique_In _ _)).
Qed.

Lemma valid_tickers_In df m tk :
  In tk (Preprocess.valid_tickers df m)
  <-> In tk (map TICKER df) /\ m < n_rows df tk.
Proof.
  unfold Preprocess.valid_tickers.
  rewrite (filter_rowwise _ _ (fun kc => Some (snd kc >? m))).
  2:{ apply (binop_rowwise Z.gtb _ _ (fun kc => Some (snd kc)) (fun _ => Some m));
      reflexivity. }
  rewrite in_map_iff. split.
  - intros ([k n] & E & Hin). simpl in E. subst k.
    apply filter_In in Hin. destruct Hin as [Hin Hgt]. simpl in Hgt.
    apply ticker_counts_In in Hin. destruct Hin as [Hk ->].
    split; auto. destruct (n_rows df tk >? m) eqn:G; try discriminate.
    apply Z.gtb_lt in G. lia.
  - intros [Hk Hlt]. exists (tk, n_rows df tk). split; auto.
    apply filter_In. split; [now apply ticker_counts_In|].
    simpl. apply Z.gtb_lt in Hlt. now rewrite Hlt.
Qed.

Lemma filter_tickers_eq df m :
  Preprocess.filter_tickers df m
  = List.filter (fun r => n_rows df (TICKER r) >? m) df.
Proof.
  unfold Preprocess.filter_tickers.
  rewrite (filter_rowwise _ _
             (fun r => Some (existsb (String.eqb (TICKER r))
                                     (Preprocess.valid_tickers df m)))).
  2:{ unfold Polars.is_in, Polars.col. rewrite map_map. reflexivity. }
  apply filter_ext_in. intros r Hr.
  destruct (n_rows df (TICKER r) >? m) eqn:G.
  - assert (Hv : In (TICKER r) (Preprocess.valid_tickers df m)).
    { apply valid_tickers_In. split; [now apply in_map|].
      apply Z.gtb_lt in G. lia. }
    assert (Hex : existsb (String.eqb (TICKER r)) (Preprocess.valid_tickers df m) = true).
    { apply existsb_exists. exists (TICKER r). split; auto. apply String.eqb_refl. }
    now rewrite Hex.
  - destruct (existsb (String.eqb (TICKER r)) (Preprocess.valid_tickers df m)) eqn:Hex; auto.
    apply existsb_exists in Hex. destruct Hex as (k & Hk & Ek).
    apply String.eqb_eq in Ek. subst k.
    apply valid_tickers_In in Hk. destruct Hk as [_ Hlt].
    apply Z.gtb_lt in Hlt. congruence.
Qed.

(** C9.  The ticker filter keeps exactly the rows of the tickers whose row
    count is strictly above [min_samples_per_ticker], in their order: a row
    is in its output if and only if it is in the input and its ticker has
    more than [min_samples_per_ticker] rows; a ticker with exactly that many
    rows loses all its rows.  (The filter is a total function: it has no
    error result.) *)
Theorem ticker_filter_strict (df : list Bar) (min_samples_per_ticker : Z) :
  Preprocess.filter_tickers df min_samples_per_ticker
  = List.filter (fun r => n_rows df (TICKER r) >? min_samples_per_ticker) df
  /\ (forall r, In r (Preprocess.filter_tickers df min_samples_per_ticker)
                <-> In r df /\ min_samples_per_ticker < n_rows df (TICKER r))
  /\ (forall tk, n_rows df tk = min_samples_per_ticker ->
                 Polars.group TICKER tk
                   (Preprocess.filter_tickers df min_samples_per_ticker) = [])
  /\ (forall tk n, In (tk, n) (Preprocess.ticker_counts df)
                   <-> In tk (map TICKER df) /\ n = n_rows df tk).
Proof.
  rewrite filter_tickers_eq. split; [reflexivity|]. split; [|split].
  - intros r. rewrite filter_In. split.
    + intros [Hin G]. apply Z.gtb_lt in G. split; [assumption|lia].
    + intros [Hin Hlt]. split; auto. apply Z.gtb_lt. lia.
  - intros tk E.
    destruct (Polars.group TICKER tk
                (List.filter (fun r => n_rows df (TICKER r) >? min_samples_per_ticker) df))
      as [|r l] eqn:G; auto.
    assert (Hr : In r (r :: l)) by (left; reflexivity).
    rewrite <- G in Hr. apply group_In in Hr. destruct Hr as [Hr Etk].
    apply filter_In in Hr. destruct Hr as [_ Hgt].
    rewrite Etk, E in Hgt. apply Z.gtb_lt in Hgt. lia.
  - intros tk n. apply ticker_counts_In.
Qed.

(** Each ticker of [Examples.two_tickers] has three bars: with a minimum of
    three both are dropped, with a minimum of two both are kept. *)
Example ticker_filter_two_tickers :
  Preprocess.filter_tickers Examples.two_tickers 3 = []
  /\ Preprocess.filter_tickers Examples.two_tickers 2 = Examples.two_tickers
  /\ Preprocess.ticker_counts Examples.two_tickers
     = [ ("AAA"%string, 3); ("BBB"%string, 3) ].
Proof. repeat split; reflexivity. Qed.

(** ** The targets of [preprocess_data] (step 5) *)

Section GroupFacts.
Context {R S : Type}.

Lemma group_filter (key : R -> string) k (P : R -> bool) (l : list R) :
  Polars.group key k (List.filter P l) = List.filter P (Polars.group key k l).
Proof.
  unfold Polars.group.
  induction l as [|r l IH]; simpl; auto.
  destruct (P r) eqn:EP, (String.eqb (key r) k) eqn:Ek; simpl;
    rewrite ?EP, ?Ek, IH; reflexivity.
Qed.

Lemma group_map (key : S -> string) (key' : R -> string) (f : R -> S) k l :
  (forall r, key (f r) = key' r) ->
  Polars.group key k (map f l) = map f (Polars.group key' k l).
Proof.
  intros Hk. unfold Polars.group.
  induction l as [|r l IH]; simpl; auto.
  rewrite Hk. destruct (String.eqb (key' r) k); simpl; now rewrite IH.
Qed.
End GroupFacts.

Lemma shift_back_one {V} (xs : Polars.Series V) :
  Polars.shift (-1) xs
  = tl xs ++ match xs with [] => [] | _ :: _ => [None] end.
Proof. destruct xs; reflexivity. Qed.

Lemma shift_length {V} n (xs : Polars.Series V) :
  length (Polars.shift n xs) = length xs.
Proof.
  unfold Polars.shift. destruct (0 <=? n);
    rewrite length_app, repeat_length.
  - rewrite length_firstn. lia.
  - rewrite length_skipn. lia.
Qed.

#[export] Hint Rewrite @shift_length : col_len.

Lemma add_targets_rowwise df :
  Preprocess.add_targets df
  = Polars.drop_nulls (map target_of (Preprocess.with_close_fwd_1 df)) CLOSE_FWD_1.
Proof.
  unfold Preprocess.add_targets. cbv zeta. f_equal.
  rewrite (with_columns_rowwise _
             (fun r : Bar * option f64 =>
                (RET_FWD_1 (target_of r), UP_NEXT (target_of r)))).
  - rewrite map_map. reflexivity.
  - apply also_rowwise.
    + apply (binop_rowwise F64.div _ _
               (fun r : Bar * option f64 =>
                  Polars.lift2 F64.sub (snd r) (Some (CLOSE (fst r))))
               (fun r => Some (CLOSE (fst r)))); [|reflexivity].
      apply (binop_rowwise F64.sub _ _ snd (fun r => Some (CLOSE (fst r))));
        reflexivity.
    + unfold Polars.apply.
      rewrite (binop_rowwise F64.tot_gtb _ _ snd
                 (fun r : Bar * option f64 => Some (CLOSE (fst r))));
        try reflexivity.
      rewrite map_map. reflexivity.
Qed.

Lemma with_close_fwd_1_group df tk :
  Polars.group (fun p : Bar * option f64 => TICKER (fst p)) tk
               (Preprocess.with_close_fwd_1 df)
  = let part := Polars.group TICKER tk df in
    combine part
            (map (fun b => Some (CLOSE b)) (tl part)
             ++ match part with [] => [] | _ :: _ => [None] end).
Proof.
  unfold Preprocess.with_close_fwd_1.
  rewrite over_group.
  - unfold Polars.apply, Polars.col. rewrite shift_back_one.
    cbv zeta. destruct (Polars.group TICKER tk df); reflexivity.
  - col_len.
Qed.

Lemma targets_of_run (b : Bar) (rest : list Bar) :
  Polars.drop_nulls
    (map target_of
         (combine (b :: rest) (map (fun b => Some (CLOSE b)) rest ++ [None])))
    CLOSE_FWD_1
  = map (fun p => target_row (fst p) (snd p)) (combine (b :: rest) rest).
Proof.
  revert b; induction rest as [|n rest IH]; intros b.
  - reflexivity.
  - change (combine (b :: n :: rest)
                    (map (fun b => Some (CLOSE b)) (n :: rest) ++ [None]))
      with ((b, Some (CLOSE n))
            :: combine (n :: rest) (map (fun b => Some (CLOSE b)) rest ++ [None])).
    change (combine (b :: n :: rest) (n :: rest))
      with ((b, n) :: combine (n :: rest) rest).
    rewrite !map_cons.
    change (Polars.drop_nulls
              (target_of (b, Some (CLOSE n))
               :: map target_of
                    (combine (n :: rest)
                             (map (fun b => Some (CLOSE b)) rest ++ [None])))
              CLOSE_FWD_1)
      with (target_of (b, Some (CLOSE n))
            :: Polars.drop_nulls
                 (map target_of
                    (combine (n :: rest)
                             (map (fun b => Some (CLOSE b)) rest ++ [None])))
                 CLOSE_FWD_1).
    rewrite IH. reflexivity.
Qed.

(** The output rows of one ticker: its bars, each paired with the next one. *)
Lemma add_targets_group df tk :
  Polars.group ticker tk (Preprocess.add_targets df)
  = let part := Polars.group TICKER tk df in
    map (fun p => target_row (fst p) (snd p)) (combine part (tl part)).
Proof.
  rewrite add_targets_rowwise. unfold Polars.drop_nulls.
  rewrite group_filter.
  rewrite (group_map ticker (fun p : Bar * option f64 => TICKER (fst p)))
    by reflexivity.
  rewrite with_close_fwd_1_group. cbv zeta.
  destruct (Polars.group TICKER tk df) as [|b rest]; [reflexivity|].
  apply targets_of_run.
Qed.

Lemma fwd_cells_nth (l : list Bar) (i : nat) :
  (i <= length l)%nat ->
  nth_error (map (fun b => Some (CLOSE b)) l ++ [None]) i
  = Some (option_map CLOSE (nth_error l i)).
Proof.
  revert i; induction l as [|b l IH]; intros [|i] Hi; simpl in *;
    try reflexivity; try lia.
  apply IH. lia.
Qed.

Lemma tot_gtb_irrefl (x : f64) : F64.tot_gtb x x = false.
Proof.
  unfold F64.tot_gtb, F64.tot_ltb, F64.tot_geb, F64.geb, F64.leb.
  destruct x as [|s|q z]; simpl; auto.
  - destruct s; reflexivity.
  - rewrite Qeq_bool_refl, orb_true_r. reflexivity.
Qed.

Lemma Qltb_lt (p q : Q) : F64.Qltb p q = true <-> (p < q)%Q.
Proof.
  unfold F64.Qltb. rewrite negb_true_iff. split.
  - intros E. apply Qnot_le_lt. intros Hle.
    apply Qle_bool_iff in Hle. congruence.
  - intros Hlt. destruct (Qle_bool q p) eqn:E; auto.
    apply Qle_bool_iff in E. exfalso. now apply (Qlt_not_le p q).
Qed.

Lemma tot_gtb_finite (p q : Q) (z z' : bool) :
  F64.tot_gtb (F64.Fin p z) (F64.Fin q z') = true <-> (q < p)%Q.
Proof.
  unfold F64.tot_gtb, F64.tot_ltb, F64.tot_geb, F64.geb, F64.leb. simpl.
  rewrite negb_true_iff, orb_false_iff. split.
  - intros [E1 E2]. apply Qnot_le_lt. intros Hle.
    destruct (Qeq_dec p q) as [Heq|Hne].
    + apply Qeq_bool_iff in Heq. congruence.
    + assert (Hlt : (p < q)%Q) by (apply Qle_lteq in Hle; tauto).
      apply Qltb_lt in Hlt. congruence.
  - intros Hlt. split.
    + destruct (F64.Qltb p q) eqn:E; auto. apply Qltb_lt in E.
      exfalso. apply (Qlt_irrefl p). now apply Qlt_trans with q.
    + destruct (Qeq_bool p q) eqn:E; auto. apply Qeq_bool_iff in E.
      rewrite E in Hlt. exfalso. now apply (Qlt_irrefl q).
Qed.

(** C2.  For every ticker, with [part] its bars in frame order: before the
    rows with a null are dropped, the [CLOSE_FWD_1] cell of the [i]-th bar
    is the close of the [i+1]-th bar of [part], and null when there is none
    (the last bar); the rows [add_targets] returns for the ticker are the
    bars of [part] but the last, each with the next bar's close as
    [CLOSE_FWD_1], [(CLOSE_FWD_1 - CLOSE) / CLOSE] as [RET_FWD_1] and as
    [UP_NEXT] 1 when [CLOSE_FWD_1] is above [CLOSE] and 0 otherwise; no row
    of the output has a null [CLOSE_FWD_1]; a close is not above itself, and
    between finite closes "above" is the strict order of the numbers. *)
Theorem target_building (df : list Bar) (tk : string) :
  let part := Polars.group TICKER tk df in
  (forall i b, nth_error part i = Some b ->
     nth_error (Polars.group ticker tk (Preprocess.with_close_fwd_1 df)) i
     = Some (b, option_map CLOSE (nth_error part (S i))))
  /\ Polars.group ticker tk (Preprocess.add_targets df)
     = map (fun p => {| bar := fst p;
                        CLOSE_FWD_1 := Some (CLOSE (snd p));
                        RET_FWD_1 :=
                          Some ((CLOSE (snd p) - CLOSE (fst p)) / CLOSE (fst p))%f64;
                        UP_NEXT :=
                          Some (if F64.tot_gtb (CLOSE (snd p)) (CLOSE (fst p))
                                then 1 else 0) |})
           (combine part (tl part))
  /\ (forall r, In r (Preprocess.add_targets df) -> CLOSE_FWD_1 r <> None)
  /\ (forall x, F64.tot_gtb x x = false)
  /\ (forall p q z z',
        F64.tot_gtb (F64.Fin p z) (F64.Fin q z') = true <-> (q < p)%Q).
Proof.
  cbv zeta. split; [|split; [|split; [|split]]].
  - intros i b Hb.
    change (Polars.group ticker tk (Preprocess.with_close_fwd_1 df))
      with (Polars.group (fun p : Bar * option f64 => TICKER (fst p)) tk
                         (Preprocess.with_close_fwd_1 df)).
    rewrite with_close_fwd_1_group. cbv zeta.
    destruct (Polars.group TICKER tk df) as [|b0 rest] eqn:E.
    + destruct i; discriminate.
    + apply combine_nth_error; [exact Hb|].
      change (tl (b0 :: rest)) with rest.
      change (nth_error (b0 :: rest) (S i)) with (nth_error rest i).
      apply fwd_cells_nth.
      assert (Hi : (i < length (b0 :: rest))%nat)
        by (apply nth_error_Some; congruence).
      simpl in Hi. lia.
  - apply add_targets_group.
  - intros r Hr. rewrite add_targets_rowwise in Hr.
    unfold Polars.drop_nulls in Hr. apply filter_In in Hr.
    destruct Hr as [_ Hr]. destruct (CLOSE_FWD_1 r); [discriminate|discriminate].
  - apply tot_gtb_irrefl.
  - apply tot_gtb_finite.
Qed.

(** The target test of the specification: closes 100, 102, 101 give the
    forward closes 102 and 101, the returns 2/100 and -1/102, the labels 1
    and 0, and two rows. *)
Example target_building_three_bars :
  map (fun r => (CLOSE_FWD_1 r, UP_NEXT r))
      (Polars.group ticker "AAA"
         (Preprocess.add_targets Examples.two_tickers))
  = [ (Some (F64.of_Z 102), Some 1); (Some (F64.of_Z 101), Some 0) ]
  /\ Forall2 (fun r q => exists v, RET_FWD_1 r = Some v /\ F64.same v (F64.of_Q q))
             (Polars.group ticker "AAA"
                (Preprocess.add_targets Examples.two_tickers))
             [ (2 # 100)%Q; (-1 # 102)%Q ].
Proof.
  split; [reflexivity|].
  repeat constructor; eexists; (split; [reflexivity|]); simpl; split;
    try reflexivity; intros H; discriminate H.
Qed.

(** ** A zero close (step 5) *)

Lemma div_by_zero_not_finite (x y : f64) :
  F64.is_zero y = true -> F64.is_finite ((x - y) / y)%f64 = false.
Proof.
  destruct y as [|s|q z]; simpl; try discriminate. intros Hq.
  destruct x as [|s|p z']; simpl; auto.
  rewrite Hq. destruct (F64.is0 (p + - q)); reflexivity.
Qed.

(** C8.  In the table [preprocess_data] returns, a row whose close is zero
    has a [RET_FWD_1] that is not a finite number (an infinity or NaN, not
    zero and not a null); and a bar whose close is zero and that has a next
    bar within its ticker, among the bars that reach step 5, is a row of the
    output, with [(CLOSE_FWD_1 - CLOSE) / CLOSE], non-finite, as its
    [RET_FWD_1]. *)
Theorem zero_close_return (df : list Bar) (min_samples_per_ticker : Z) :
  let out := Preprocess.preprocess_data df min_samples_per_ticker in
  let clean :=
    Preprocess.delta_check (Preprocess.filter_tickers df min_samples_per_ticker) in
  (forall r, In r out -> F64.is_zero (CLOSE (bar r)) = true ->
     exists v, RET_FWD_1 r = Some v /\ F64.is_finite v = false)
  /\ (forall tk i b nxt,
        nth_error (Polars.group TICKER tk clean) i = Some b ->
        nth_error (Polars.group TICKER tk clean) (S i) = Some nxt ->
        F64.is_zero (CLOSE b) = true ->
        exists r, nth_error (Polars.group ticker tk out) i = Some r
                  /\ bar r = b
                  /\ CLOSE_FWD_1 r = Some (CLOSE nxt)
                  /\ RET_FWD_1 r = Some ((CLOSE nxt - CLOSE b) / CLOSE b)%f64
                  /\ F64.is_finite ((CLOSE nxt - CLOSE b) / CLOSE b)%f64 = false).
Proof.
  cbv zeta. unfold Preprocess.preprocess_data.
  set (clean := Preprocess.delta_check _). split.
  - intros r Hr Hz.
    assert (Hg : In r (Polars.group ticker (ticker r) (Preprocess.add_targets clean)))
      by (apply group_In; auto).
    rewrite add_targets_group in Hg. cbv zeta in Hg.
    apply in_map_iff in Hg. destruct Hg as ([b nxt] & <- & _).
    simpl in *. eexists. split; [reflexivity|].
    now apply div_by_zero_not_finite.
  - intros tk i b nxt Hb Hn Hz.
    rewrite add_targets_group. cbv zeta.
    exists (target_row b nxt). split; [|repeat split].
    + apply map_nth_error with (f := fun p => target_row (fst p) (snd p))
                               (d := (b, nxt)).
      apply combine_nth_error; auto.
      destruct (Polars.group TICKER tk clean); [destruct i; discriminate|].
      exact Hn.
    + now apply div_by_zero_not_finite.
Qed.

(** The ticker BBB of [Examples.two_tickers] opens at a close of zero: its
    first return is plus infinity. *)
Example zero_close_return_example :
  map RET_FWD_1
      (Polars.group ticker "BBB" (Preprocess.add_targets Examples.two_tickers))
  = [ Some (F64.Inf false); Some (F64.Fin (0 # 7) false) ].
Proof. reflexivity. Qed.

(** ** The contiguity filter of [preprocess_data] (step 4) *)

(** C1.  On [Examples.gap_frame] (bars at minutes 0, 5, 10, 20, 25, 30 of
    one ticker; [min_samples_per_ticker = 5]) the delta check keeps the bars
    of minutes 5, 10, 25 and 30 and [preprocess_data] returns those of
    minutes 5, 10 and 25: the bars of minutes 10 and 25 are neighbours in
    both and are fifteen minutes apart, and the forward close of the bar of
    minute 10 is the close of minute 25. *)
Theorem gap_breaks_contiguity :
  let clean :=
    Preprocess.delta_check (Preprocess.filter_tickers Examples.gap_frame 5) in
  let out := Preprocess.preprocess_data Examples.gap_frame 5 in
  map timestamp clean = map Preprocess.duration_minutes [5; 10; 25; 30]
  /\ map timestamp out = map Preprocess.duration_minutes [5; 10; 25]
  /\ ~ contiguous (Preprocess.duration_minutes 5) clean
  /\ ~ contiguous (Preprocess.duration_minutes 5) out
  /\ map (fun r => (timestamp r, CLOSE_FWD_1 r)) (firstn 1 (skipn 1 out))
     = [ (Preprocess.duration_minutes 10, Some (F64.of_Z 104)) ].
Proof.
  cbv zeta. split; [reflexivity|]. split; [reflexivity|].
  split; [|split; [|reflexivity]].
  - intros H.
    specialize (H 1%nat _ _ eq_refl eq_refl eq_refl). discriminate H.
  - intros H.
    specialize (H 1%nat _ _ eq_refl eq_refl eq_refl). discriminate H.
Qed.

Lemma diff_from_length {V D} (minus : V -> V -> D) prev (xs : Polars.Series V) :
  length (Polars.diff_from minus prev xs) = length xs.
Proof. revert prev; induction xs as [|x xs IH]; intros; simpl; auto. Qed.

Lemma diff_length {V D} (minus : V -> V -> D) (xs : Polars.Series V) :
  length (Polars.diff minus xs) = length xs.
Proof. apply diff_from_length. Qed.
#[export] Hint Rewrite @diff_length : col_len.

Lemma diff_from_nth {V D} (minus : V -> V -> D) (vals : list V) prev i d :
  nth_error (Polars.diff_from minus prev (map Some vals)) i = Some (Some d) ->
  (i = 0%nat /\ exists x p, nth_error vals 0 = Some x /\ prev = Some p
                            /\ d = minus x p)
  \/ (exists j x p, i = S j /\ nth_error vals (S j) = Some x
                    /\ nth_error vals j = Some p /\ d = minus x p).
Proof.
  revert prev i; induction vals as [|v vals IH]; intros prev i Hd;
    [destruct i; discriminate|].
  destruct i as [|i].
  - left. simpl in Hd. destruct prev as [p|]; [|discriminate].
    injection Hd as <-. split; auto. exists v, p. auto.
  - right. simpl in Hd. apply IH in Hd.
    destruct Hd as [(-> & x & p & Hx & Hp & ->)|(j & x & p & -> & Hx & Hp & ->)].
    + injection Hp as <-. exists 0%nat, x, v. auto.
    + exists (S j), x, p. auto.
Qed.

Lemma with_delta_group df tk :
  Polars.group (fun p : Bar * option Z => TICKER (fst p)) tk
               (Preprocess.with_delta df)
  = let part := Polars.group TICKER tk (Polars.sort df) in
    combine part (Polars.diff Z.sub (map Some (map TIMESTAMP part))).
Proof.
  unfold Preprocess.with_delta. rewrite over_group.
  - unfold Polars.apply, Polars.col. cbv zeta. now rewrite map_map.
  - col_len.
Qed.

(** X6.  What the delta check does ensure: a bar it keeps comes, in the
    sorted rows of its ticker that the check receives, right after a bar
    that is exactly five minutes older (a bar the check may itself drop). *)
Lemma delta_check_steps (df : list Bar) (b : Bar) :
  In b (Preprocess.delta_check df) ->
  exists j a,
    nth_error (Polars.group TICKER (TICKER b) (Polars.sort df)) j = Some a
    /\ nth_error (Polars.group TICKER (TICKER b) (Polars.sort df)) (S j) = Some b
    /\ TIMESTAMP b - TIMESTAMP a = Preprocess.duration_minutes 5.
Proof.
  unfold Preprocess.delta_check. intros Hb.
  rewrite (filter_rowwise _ _
             (fun r : Bar * option Z =>
                Polars.lift2 Z.eqb (snd r) (Some (Preprocess.duration_minutes 5))))
    in Hb
    by (apply (binop_rowwise Z.eqb _ _ snd
                 (fun _ => Some (Preprocess.duration_minutes 5))); reflexivity).
  apply in_map_iff in Hb. destruct Hb as ([b' cell] & Eb & Hin). simpl in Eb.
  subst b'. apply filter_In in Hin. destruct Hin as [Hin Hcell]. simpl in Hcell.
  destruct cell as [d|]; [|discriminate]. simpl in Hcell.
  destruct (d =? Preprocess.duration_minutes 5) eqn:Ed; [|discriminate].
  apply Z.eqb_eq in Ed.
  assert (Hg : In (b, Some d)
                  (Polars.group (fun p : Bar * option Z => TICKER (fst p))
                                (TICKER b) (Preprocess.with_delta df)))
    by (apply group_In; auto).
  rewrite with_delta_group in Hg. cbv zeta in Hg.
  apply In_nth_error in Hg. destruct Hg as (i & Hi).
  apply nth_error_combine_inv in Hi. destruct Hi as [Hb Hd].
  apply diff_from_nth in Hd.
  destruct Hd as [(_ & x & p & _ & Hp & _)|(j & x & p & -> & Hx & Hp & ->)];
    [discriminate|].
  rewrite nth_error_map in Hx, Hp. rewrite Hb in Hx. simpl in Hx.
  injection Hx as <-.
  destruct (nth_error (Polars.group TICKER (TICKER b) (Polars.sort df)) j)
    as [a|] eqn:Ea; [|discriminate].
  simpl in Hp. injection Hp as <-.
  exists j, a. auto.
Qed.

(** [delta_check_steps] on the bar of minute 25 of [Examples.gap_frame]: it
    comes right after the bar of minute 20. *)
Lemma delta_check_steps_witness :
  let b := Examples.bar_at "AAA" 25 (F64.of_Z 104) in
  exists j a,
    nth_error (Polars.group TICKER (TICKER b) (Polars.sort Examples.gap_frame)) j
    = Some a
    /\ nth_error (Polars.group TICKER (TICKER b) (Polars.sort Examples.gap_frame))
                 (S j) = Some b
    /\ TIMESTAMP b - TIMESTAMP a = Preprocess.duration_minutes 5.
Proof.
  exact (delta_check_steps Examples.gap_frame
           (Examples.bar_at "AAA" 25 (F64.of_Z 104))
           (or_intror (or_intror (or_introl eq_refl)))).
Defined.

(** ** Selecting the cells of a group *)

Section SelFacts.
Context {R : Type}.
Variable key : R -> string.
Variable k : string.

Lemma group_combine {X} (df : list R) (c : list X) :
  length c = length df ->
  Polars.group (fun p : R * X => key (fst p)) k (combine df c)
  = combine (Polars.group key k df) (sel key k df c).
Proof.
  unfold sel, Polars.group. revert c.
  induction df as [|r df IH]; intros [|x c] E; simpl in *; try discriminate; auto.
  destruct (String.eqb (key r) k); simpl; [f_equal|]; apply IH; lia.
Qed.

Lemma sel_length {X} (df : list R) (c : list X) :
  length c = length df ->
  length (sel key k df c) = length (Polars.group key k df).
Proof.
  unfold sel, Polars.group. revert c.
  induction df as [|r df IH]; intros [|x c] E; simpl in *; try discriminate; auto.
  destruct (String.eqb (key r) k); simpl; rewrite IH by lia; reflexivity.
Qed.

Lemma sel_map {X Y} (f : X -> Y) (df : list R) (c : list X) :
  sel key k df (map f c) = map f (sel key k df c).
Proof.
  unfold sel, Polars.group. revert c.
  induction df as [|r df IH]; intros [|x c]; simpl; auto.
  destruct (String.eqb (key r) k); simpl; rewrite IH; reflexivity.
Qed.

Lemma sel_combine {X Y} (df : list R) (c1 : list X) (c2 : list Y) :
  length c1 = length df -> length c2 = length df ->
  sel key k df (combine c1 c2) = combine (sel key k df c1) (sel key k df c2).
Proof.
  unfold sel, Polars.group. revert c1 c2.
  induction df as [|r df IH]; intros [|x c1] [|y c2] E1 E2; simpl in *;
    try discriminate; auto.
  destruct (String.eqb (key r) k); simpl; rewrite IH by lia; reflexivity.
Qed.

Lemma sel_rowwise {X} (g : R -> X) (df : list R) :
  sel key k df (map g df) = map g (Polars.group key k df).
Proof.
  unfold sel, Polars.group.
  induction df as [|r df IH]; simpl; auto.
  destruct (String.eqb (key r) k); simpl; rewrite IH; reflexivity.
Qed.

Lemma sel_over {V} (e : Polars.Expr (R := R) V) (df : list R) :
  length (e (Polars.group key k df)) = length (Polars.group key k df) ->
  sel key k df (Polars.over key e df) = e (Polars.group key k df).
Proof.
  intros Hlen. unfold sel.
  change (combine df (Polars.over key e df))
    with (Polars.with_columns df (Polars.over key e)).
  rewrite over_group by exact Hlen.
  now apply map_snd_combine.
Qed.
End SelFacts.

(** ** Rolling windows *)

Lemma non_null_Some {V} (l : list V) : Polars.non_null (map Some l) = l.
Proof. induction l as [|x l IH]; simpl; congruence. Qed.

Lemma window_at_map {A B} (f : A -> B) w i (l : list A) :
  Polars.window_at w i (map f l) = map f (Polars.window_at w i l).
Proof. unfold Polars.window_at. now rewrite firstn_map, skipn_map. Qed.

Lemma window_at_length {A} w i (l : list A) :
  1 <= w -> (i < length l)%nat ->
  Z.of_nat (length (Polars.window_at w i l)) = Z.min (Z.of_nat i + 1) w.
Proof.
  intros Hw Hi. unfold Polars.window_at.
  rewrite length_skipn, length_firstn. lia.
Qed.

Lemma rolling_length agg w mp xs :
  length (Polars.rolling agg w mp xs) = length xs.
Proof. unfold Polars.rolling. now rewrite length_map, length_seq. Qed.

#[export] Hint Rewrite rolling_length : col_len.

(** On a column without nulls, with [min_periods] the window size: null
    until the window is full, and the aggregate of the last [w] cells from
    then on. *)
Lemma rolling_full_window agg w mp (vals : list f64) i :
  1 <= w -> Polars.prepare_min_periods w mp = w -> (i < length vals)%nat ->
  nth_error (Polars.rolling agg w mp (map Some vals)) i
  = Some (if w <=? Z.of_nat i + 1
          then Some (agg (Polars.window_at w i vals))
          else None).
Proof.
  intros Hw Hmp Hi. unfold Polars.rolling.
  rewrite nth_error_map, nth_error_seq, length_map.
  destruct (Nat.ltb_spec i (length vals)) as [_|]; [|lia]. simpl.
  rewrite Hmp, window_at_map, non_null_Some.
  rewrite (window_at_length w i vals Hw Hi).
  destruct (Z.leb_spec w (Z.of_nat i + 1)), (Z.leb_spec w (Z.min (Z.of_nat i + 1) w));
    try reflexivity; lia.
Qed.

Lemma nth_error_lift2 {A B C} (f : A -> B -> C) (l1 : Polars.Series A)
      (l2 : Polars.Series B) t x y :
  nth_error l1 t = Some x -> nth_error l2 t = Some y ->
  nth_error (map (fun p => Polars.lift2 f (fst p) (snd p)) (combine l1 l2)) t
  = Some (Polars.lift2 f x y).
Proof.
  intros H1 H2.
  apply (map_nth_error (fun p => Polars.lift2 f (fst p) (snd p)) t
                       (combine l1 l2) (d := (x, y))).
  now apply combine_nth_error.
Qed.

(** ** [add_sma] *)

Lemma add_sma_group {R : Type} (df : list R) (column : R -> f64) (window : Z)
      (group_col : R -> string) (tk : string) :
  Polars.group (fun p : R * option f64 => group_col (fst p)) tk
               (Features.add_sma df column window group_col)
  = let part := Polars.group group_col tk df in
    combine part
            (Polars.rolling_mean window (Some window) (map Some (map column part))).
Proof.
  unfold Features.add_sma. rewrite over_group.
  - unfold Polars.apply, Polars.col. now rewrite map_map.
  - col_len.
Qed.

(** C6.  For every group [tk] of [group_col], with [part] its rows in frame
    order: the rows [add_sma] returns for the group are those of [part], in
    order; the [SMA_{window}] cell of the row of rank [t] (from 0) is null
    when [t < window - 1], and otherwise it is the sum of the source column
    over the [window] rows of [part] that end at rank [t], divided by
    [window]. *)
Theorem sma_full_window {R : Type} (df : list R) (column : R -> f64)
        (window : Z) (group_col : R -> string) (tk : string) :
  1 <= window ->
  let part := Polars.group group_col tk df in
  let out :=
    Polars.group (fun p : R * option f64 => group_col (fst p)) tk
                 (Features.add_sma df column window group_col) in
  map fst out = part
  /\ forall t r v, nth_error out t = Some (r, v) ->
       (Z.of_nat t + 1 < window -> v = None)
       /\ (window <= Z.of_nat t + 1 ->
           let last_w := Polars.window_at window t part in
           Z.of_nat (length last_w) = window
           /\ v = Some (F64.sum (map column last_w) / F64.of_Z window)%f64).
Proof.
  intros Hw. cbv zeta. rewrite add_sma_group. cbv zeta.
  set (part := Polars.group group_col tk df).
  split.
  - apply map_fst_combine. unfold Polars.rolling_mean.
    now rewrite rolling_length, !length_map.
  - intros t r v Hn. apply nth_error_combine_inv in Hn. destruct Hn as [Hr Hv].
    assert (Ht : (t < length part)%nat) by (apply nth_error_Some; congruence).
    unfold Polars.rolling_mean in Hv.
    rewrite rolling_full_window in Hv by (rewrite ?length_map; auto).
    injection Hv as <-.
    assert (Hlen : Z.of_nat (length (Polars.window_at window t part))
                   = Z.min (Z.of_nat t + 1) window)
      by (now apply window_at_length).
    split.
    + intros Hlt. destruct (Z.leb_spec window (Z.of_nat t + 1)); [lia|reflexivity].
    + intros Hge. destruct (Z.leb_spec window (Z.of_nat t + 1)); [|lia].
      split; [lia|].
      unfold Polars.mean. rewrite window_at_map.
      unfold F64.of_nat. rewrite length_map, Hlen.
      replace (Z.min (Z.of_nat t + 1) window) with window by lia.
      reflexivity.
Qed.

(** [sma_full_window] on the ticker AAA of [Examples.two_tickers], with a
    window of two bars. *)
Lemma sma_full_window_witness :
  let part := Polars.group ticker "AAA" Examples.two_tickers in
  let out :=
    Polars.group (fun p : Bar * option f64 => ticker (fst p)) "AAA"
                 (Features.add_sma Examples.two_tickers CLOSE 2 ticker) in
  map fst out = part
  /\ forall t r v, nth_error out t = Some (r, v) ->
       (Z.of_nat t + 1 < 2 -> v = None)
       /\ (2 <= Z.of_nat t + 1 ->
           let last_w := Polars.window_at 2 t part in
           Z.of_nat (length last_w) = 2
           /\ v = Some (F64.sum (map CLOSE last_w) / F64.of_Z 2)%f64).
Proof.
  exact (sma_full_window Examples.two_tickers CLOSE 2 ticker "AAA"
                         ltac:(reflexivity || lia)).
Defined.

(** The closes 100, 102, 101 of AAA, with the bars of BBB in between: no
    value at the first bar, then 101 and 203/2. *)
Example sma_two_tickers :
  map snd (Polars.group (fun p : Bar * option f64 => ticker (fst p)) "AAA"
             (Features.add_sma Examples.two_tickers CLOSE 2 ticker))
  = [ None; Some (F64.Fin (202 # 2) false); Some (F64.Fin (203 # 2) false) ].
Proof. reflexivity. Qed.

(** ** [add_bollinger_bands] *)

Lemma binop_length {R A B C} (f : A -> B -> C) (e1 : Polars.Expr (R := R) A)
      (e2 : Polars.Expr B) (df : list R) :
  length (e1 df) = length df -> length (e2 df) = length df ->
  length (Polars.binop f e1 e2 df) = length df.
Proof.
  intros E1 E2. unfold Polars.binop.
  rewrite length_map, length_combine. lia.
Qed.

Lemma sel_binop {R A B C} (key : R -> string) (k : string) (f : A -> B -> C)
      (e1 : Polars.Expr (R := R) A) (e2 : Polars.Expr B) (df : list R) :
  length (e1 df) = length df -> length (e2 df) = length df ->
  sel key k df (Polars.binop f e1 e2 df)
  = map (fun p => Polars.lift2 f (fst p) (snd p))
        (combine (sel key k df (e1 df)) (sel key k df (e2 df))).
Proof.
  intros E1 E2. unfold Polars.binop.
  now rewrite sel_map, sel_combine.
Qed.

(** The bands of one ticker are those computed on its bars alone. *)
Lemma add_bollinger_bands_group {R : Type} `{Keyed R} (df : list R)
      (price_col : R -> f64) (window : Z) (k : f64) (tk : string) :
  Polars.group (fun r : Bollinger R => ticker (bb_row r)) tk
               (Features.add_bollinger_bands df price_col window k)
  = let part := Polars.group ticker tk (Polars.sort df) in
    let sma := Polars.rolling_mean window None (map Some (map price_col part)) in
    let std := Polars.rolling_std window None (map Some (map price_col part)) in
    let kstd :=
      map (fun p => Polars.lift2 F64.mul (fst p) (snd p))
          (combine (map (fun _ => Some k) part) std) in
    map (fun r => {| bb_row := fst r;
                     BB_MID := fst (snd r);
                     BB_UPPER := fst (snd (snd r));
                     BB_LOWER := snd (snd (snd r)) |})
        (combine part
           (combine sma
              (combine
                 (map (fun p => Polars.lift2 F64.add (fst p) (snd p))
                      (combine sma kstd))
                 (map (fun p => Polars.lift2 F64.sub (fst p) (snd p))
                      (combine sma kstd))))).
Proof.
  unfold Features.add_bollinger_bands. cbv zeta.
  set (sdf := Polars.sort df).
  set (sma := Polars.over ticker
                (Polars.apply (Polars.rolling_mean window None) (Polars.col price_col))).
  set (std := Polars.over ticker
                (Polars.apply (Polars.rolling_std window None) (Polars.col price_col))).
  assert (Lsma : length (sma sdf) = length sdf) by apply over_length.
  assert (Lstd : length (std sdf) = length sdf) by apply over_length.
  assert (Llit : length (Polars.lit (R := R) k sdf) = length sdf)
    by apply length_map.
  assert (Lk : length (Polars.binop F64.mul (Polars.lit k) std sdf) = length sdf)
    by (now apply binop_length).
  assert (Ssma : sel ticker tk sdf (sma sdf)
                 = Polars.rolling_mean window None
                     (map Some (map price_col (Polars.group ticker tk sdf)))).
  { unfold sma. rewrite sel_over.
    - unfold Polars.apply, Polars.col. now rewrite map_map.
    - col_len. }
  assert (Sstd : sel ticker tk sdf (std sdf)
                 = Polars.rolling_std window None
                     (map Some (map price_col (Polars.group ticker tk sdf)))).
  { unfold std. rewrite sel_over.
    - unfold Polars.apply, Polars.col. now rewrite map_map.
    - col_len. }
  rewrite (group_map (fun r : Bollinger R => ticker (bb_row r))
                     (fun p : R * (option f64 * (option f64 * option f64)) =>
                        ticker (fst p))) by reflexivity.
  f_equal. unfold Polars.with_columns, Polars.also.
  rewrite group_combine.
  2:{ rewrite !length_combine, !binop_length by assumption. lia. }
  f_equal.
  rewrite sel_combine; [|assumption|].
  2:{ rewrite !length_combine, !binop_length by assumption. lia. }
  rewrite Ssma. f_equal.
  rewrite sel_combine by (now apply binop_length).
  rewrite !sel_binop by assumption.
  rewrite Ssma, Sstd. unfold Polars.lit. rewrite sel_rowwise. reflexivity.
Qed.

(** The band cells of one ticker, row by row. *)
Lemma bollinger_cells {R : Type} `{Keyed R} (df : list R)
      (price_col : R -> f64) (window : Z) (k : f64) (tk : string) :
  1 <= window ->
  let part := Polars.group ticker tk (Polars.sort df) in
  let out :=
    Polars.group (fun r : Bollinger R => ticker (bb_row r)) tk
                 (Features.add_bollinger_bands df price_col window k) in
  map bb_row out = part
  /\ forall t r, nth_error out t = Some r ->
       (Z.of_nat t + 1 < window ->
        BB_MID r = None /\ BB_UPPER r = None /\ BB_LOWER r = None)
       /\ (window <= Z.of_nat t + 1 ->
           let xs := map price_col (Polars.window_at window t part) in
           BB_MID r = Some (Polars.mean xs)
           /\ BB_UPPER r = Some (Polars.mean xs + k * Polars.std xs)%f64
           /\ BB_LOWER r = Some (Polars.mean xs - k * Polars.std xs)%f64).
Proof.
  intros Hw. cbv zeta. rewrite add_bollinger_bands_group. cbv zeta.
  set (part := Polars.group ticker tk (Polars.sort df)).
  set (vals := map price_col part).
  assert (Lv : length vals = length part) by apply length_map.
  set (sma := Polars.rolling_mean window None (map Some vals)).
  set (std := Polars.rolling_std window None (map Some vals)).
  assert (Lsma : length sma = length part).
  { unfold sma, Polars.rolling_mean. now rewrite rolling_length, length_map. }
  assert (Lstd : length std = length part).
  { unfold std, Polars.rolling_std. now rewrite rolling_length, length_map. }
  set (kstd := map (fun p => Polars.lift2 F64.mul (fst p) (snd p))
                   (combine (map (fun _ : R => Some k) part) std)).
  assert (Lk : length kstd = length part).
  { unfold kstd. rewrite length_map, length_combine, length_map. lia. }
  split.
  - rewrite map_map. simpl. apply map_fst_combine.
    rewrite !length_combine, !length_map, !length_combine. lia.
  - intros t r Hn.
    assert (Ht : (t < length part)%nat).
    { apply nth_error_Some. intros E. rewrite nth_error_map in Hn.
      destruct (nth_error (combine part _) t) as [p|] eqn:Ep; [|discriminate].
      destruct p as [r0 c]. apply nth_error_combine_inv in Ep.
      destruct Ep as [Ep _]. congruence. }
    destruct (nth_error part t) as [r0|] eqn:Er0;
      [|apply nth_error_None in Er0; lia].
    assert (Hsma : nth_error sma t
                   = Some (if window <=? Z.of_nat t + 1
                           then Some (Polars.mean (Polars.window_at window t vals))
                           else None)).
    { unfold sma, Polars.rolling_mean. apply rolling_full_window; auto. lia. }
    assert (Hstd : nth_error std t
                   = Some (if window <=? Z.of_nat t + 1
                           then Some (Polars.std (Polars.window_at window t vals))
                           else None)).
    { unfold std, Polars.rolling_std. apply rolling_full_window; auto. lia. }
    assert (Hk : nth_error kstd t
                 = Some (Polars.lift2 F64.mul (Some k)
                           (if window <=? Z.of_nat t + 1
                            then Some (Polars.std (Polars.window_at window t vals))
                            else None))).
    { unfold kstd. apply nth_error_lift2; auto.
      now rewrite (map_nth_error (fun _ => Some k) t part Er0). }
    pose proof (nth_error_lift2 F64.add sma kstd t _ _ Hsma Hk) as Hup.
    pose proof (nth_error_lift2 F64.sub sma kstd t _ _ Hsma Hk) as Hlo.
    pose proof (combine_nth_error _ _ t _ _ Hup Hlo) as H2.
    pose proof (combine_nth_error _ _ t _ _ Hsma H2) as H1.
    pose proof (combine_nth_error _ _ t _ _ Er0 H1) as H0.
    rewrite (map_nth_error _ t _ H0) in Hn. injection Hn as <-. simpl.
    unfold vals. rewrite window_at_map.
    destruct (Z.leb_spec window (Z.of_nat t + 1)); simpl; split; intros; try lia;
      repeat split; reflexivity.
Qed.

(** C7 (amended).  [add_bollinger_bands] calls [rolling_mean] and
    [rolling_std] without [min_periods], which then is the window size: for
    every ticker, with [part] its rows in timestamp order, the three band
    cells of the row of rank [t] are null when [t < window - 1], as for the
    SMA; from rank [window - 1] on, [BB_MID] is the mean of the last
    [window] prices and, for a window of two or more, the two other bands
    are it plus and minus [k] times their sample standard deviation. *)
Theorem bollinger_full_window {R : Type} `{Keyed R} (df : list R)
        (price_col : R -> f64) (window : Z) (k : f64) (tk : string) :
  1 <= window ->
  let part := Polars.group ticker tk (Polars.sort df) in
  let out :=
    Polars.group (fun r : Bollinger R => ticker (bb_row r)) tk
                 (Features.add_bollinger_bands df price_col window k) in
  map bb_row out = part
  /\ forall t r, nth_error out t = Some r ->
       (Z.of_nat t + 1 < window ->
        BB_MID r = None /\ BB_UPPER r = None /\ BB_LOWER r = None)
       /\ (window <= Z.of_nat t + 1 ->
           let xs := map price_col (Polars.window_at window t part) in
           BB_MID r = Some (Polars.mean xs)
           /\ (2 <= window ->
               BB_UPPER r = Some (Polars.mean xs + k * Polars.std xs)%f64
               /\ BB_LOWER r = Some (Polars.mean xs - k * Polars.std xs)%f64)).
Proof.
  intros Hw. cbv zeta.
  destruct (bollinger_cells df price_col window k tk Hw) as [Hrows Hcells].
  split; [exact Hrows|].
  intros t r Hn. destruct (Hcells t r Hn) as [Hnull Hfull].
  split; [exact Hnull|].
  intros Hge. destruct (Hfull Hge) as (Hmid & Hup & Hlo). auto.
Qed.

(** The amended statement on the ticker AAA of [Examples.two_tickers], with
    a window of three bars and [k = 2]. *)
Lemma bollinger_full_window_witness :
  let part := Polars.group ticker "AAA" (Polars.sort Examples.two_tickers) in
  let out :=
    Polars.group (fun r : Bollinger Bar => ticker (bb_row r)) "AAA"
                 (Features.add_bollinger_bands Examples.two_tickers CLOSE 3
                                               (F64.of_Z 2)) in
  map bb_row out = part
  /\ forall t r, nth_error out t = Some r ->
       (Z.of_nat t + 1 < 3 ->
        BB_MID r = None /\ BB_UPPER r = None /\ BB_LOWER r = None)
       /\ (3 <= Z.of_nat t + 1 ->
           let xs := map CLOSE (Polars.window_at 3 t part) in
           BB_MID r = Some (Polars.mean xs)
           /\ (2 <= 3 ->
               BB_UPPER r = Some (Polars.mean xs + F64.of_Z 2 * Polars.std xs)%f64
               /\ BB_LOWER r = Some (Polars.mean xs - F64.of_Z 2 * Polars.std xs)%f64)).
Proof.
  exact (bollinger_full_window Examples.two_tickers CLOSE 3 (F64.of_Z 2) "AAA"
                               ltac:(lia)).
Defined.

(** C7, as stated, fails.  On the three bars of AAA (closes 100, 102, 101)
    with a window of three, the band cells of the first two rows are null,
    where a window taken over the bars there are (a minimum of one
    observation) would give 100 and 101 as the midline; and on no frame of
    bars does a row among the first [window - 1] of its ticker receive a
    band cell that is not null. *)
Lemma bollinger_partial_window_counterexample :
  (let out :=
     Polars.group (fun r : Bollinger Bar => ticker (bb_row r)) "AAA"
                  (Features.add_bollinger_bands Examples.two_tickers CLOSE 3
                                                (F64.of_Z 2)) in
   map BB_MID out = [ None; None; Some (F64.Fin (303 # 3) false) ]
   /\ map (fun r => (BB_UPPER r, BB_LOWER r)) (firstn 2 out)
      = [ (None, None); (None, None) ]
   /\ Polars.rolling_mean 3 (Some 1) (map (fun r => Some (CLOSE (bb_row r))) out)
      = [ Some (F64.Fin (100 # 1) false);
          Some (F64.Fin (202 # 2) false);
          Some (F64.Fin (303 # 3) false) ])
  /\ ~ (exists (df : list Bar) (window : Z) (k : f64) (tk : string)
               (t : nat) (r : Bollinger Bar),
           1 <= window /\ Z.of_nat t + 1 < window
           /\ nth_error
                (Polars.group (fun r : Bollinger Bar => ticker (bb_row r)) tk
                   (Features.add_bollinger_bands df CLOSE window k)) t
              = Some r
           /\ (BB_MID r <> None \/ BB_UPPER r <> None \/ BB_LOWER r <> None)).
Proof.
  split.
  - repeat split; vm_compute; reflexivity.
  - intros (df & window & k & tk & t & r & Hw & Ht & Hn & Hcell).
    destruct (bollinger_cells df CLOSE window k tk Hw) as [_ Hcells].
    destruct (Hcells t r Hn) as [Hnull _].
    destruct (Hnull Ht) as (Hm & Hu & Hl).
    destruct Hcell as [E|[E|E]]; congruence.
Qed.

(** ** [sort] *)

Section SortFacts.
Context {R : Type} `{Keyed R}.

Lemma compare_refl (s : string) : String.compare s s = Eq.
Proof. now apply OrderedTypeEx.String_as_OT.cmp_eq. Qed.

Lemma compare_lt_trans (a b c : string) :
  String.compare a b = Lt -> String.compare b c = Lt -> String.compare a c = Lt.
Proof.
  intros H1 H2.
  apply OrderedTypeEx.String_as_OT.cmp_lt in H1, H2.
  apply OrderedTypeEx.String_as_OT.cmp_lt.
  now apply OrderedTypeEx.String_as_OT.lt_trans with b.
Qed.

Lemma key_le_trans (a b c : R) : key_le a b -> key_le b c -> key_le a c.
Proof.
  unfold key_le, Polars.key_leb. intros Hab Hbc.
  destruct (String.compare (ticker a) (ticker b)) eqn:Eab; try discriminate;
    destruct (String.compare (ticker b) (ticker c)) eqn:Ebc; try discriminate.
  - apply String.compare_eq_iff in Eab, Ebc. rewrite Eab, Ebc, compare_refl.
    apply Z.leb_le in Hab, Hbc. apply Z.leb_le. lia.
  - apply String.compare_eq_iff in Eab. now rewrite Eab, Ebc.
  - apply String.compare_eq_iff in Ebc. now rewrite <- Ebc, Eab.
  - now rewrite (compare_lt_trans _ _ _ Eab Ebc).
Qed.

Lemma key_le_total (a b : R) : Polars.key_leb a b = false -> key_le b a.
Proof.
  unfold key_le, Polars.key_leb. intros Hab.
  rewrite String.compare_antisym.
  destruct (String.compare (ticker a) (ticker b)); try discriminate; simpl; auto.
  apply Z.leb_gt in Hab. apply Z.leb_le. lia.
Qed.

Lemma key_le_same_ticker (a b : R) :
  ticker a = ticker b -> key_le a b -> timestamp a <= timestamp b.
Proof.
  unfold key_le, Polars.key_leb. intros E. rewrite E, compare_refl.
  apply Z.leb_le.
Qed.

Lemma insert_perm (x : R) (l : list R) : Permutation (Polars.insert x l) (x :: l).
Proof.
  induction l as [|y l IH]; simpl; auto.
  destruct (Polars.key_leb x y); auto.
  rewrite IH. apply perm_swap.
Qed.

Lemma sort_perm (df : list R) : Permutation (Polars.sort df) df.
Proof.
  induction df as [|r df IH]; simpl; auto.
  rewrite insert_perm. now constructor.
Qed.

Lemma insert_sorted (x : R) (l : list R) :
  StronglySorted key_le l -> StronglySorted key_le (Polars.insert x l).
Proof.
  induction 1 as [|y l Hs IH Hy]; simpl.
  - repeat constructor.
  - destruct (Polars.key_leb x y) eqn:E.
    + constructor; [now constructor|].
      constructor; [exact E|].
      eapply Forall_impl; [|exact Hy]. intros z Hz.
      now apply key_le_trans with y.
    + constructor; [exact IH|].
      apply (Permutation_Forall (x := x :: l)).
      * symmetry. apply insert_perm.
      * constructor; [now apply key_le_total|exact Hy].
Qed.

Lemma sort_sorted (df : list R) : StronglySorted key_le (Polars.sort df).
Proof.
  induction df as [|r df IH]; simpl; [constructor|now apply insert_sorted].
Qed.

Lemma insert_head (x : R) (l : list R) :
  Forall (key_le x) l -> Polars.insert x l = x :: l.
Proof.
  destruct 1 as [|y l Hy _]; simpl; auto. now rewrite Hy.
Qed.

(** The rows of one ticker keep, through [sort], the places they have among
    themselves. *)
Lemma group_insert (k : string) (x : R) (l : list R) :
  StronglySorted key_le l ->
  Polars.group ticker k (Polars.insert x l)
  = if String.eqb (ticker x) k
    then Polars.insert x (Polars.group ticker k l)
    else Polars.group ticker k l.
Proof.
  induction 1 as [|y l Hs IH Hy]; simpl.
  - destruct (String.eqb (ticker x) k); reflexivity.
  - destruct (Polars.key_leb x y) eqn:E; simpl.
    + destruct (String.eqb (ticker x) k) eqn:Ex; [|reflexivity].
      destruct (String.eqb (ticker y) k) eqn:Ey.
      * simpl. now rewrite E.
      * symmetry. apply insert_head.
        apply Forall_forall. intros z Hz. apply group_In in Hz.
        destruct Hz as [Hz _].
        apply key_le_trans with y; [exact E|].
        rewrite Forall_forall in Hy. now apply Hy.
    + rewrite IH.
      destruct (String.eqb (ticker x) k), (String.eqb (ticker y) k); simpl;
        rewrite ?E; reflexivity.
Qed.

Lemma group_sort (k : string) (df : list R) :
  Polars.group ticker k (Polars.sort df)
  = Polars.sort (Polars.group ticker k df).
Proof.
  induction df as [|r df IH]; simpl; auto.
  rewrite group_insert by apply sort_sorted.
  rewrite IH. destruct (String.eqb (ticker r) k); reflexivity.
Qed.

Lemma group_sorted_by_timestamp (k : string) (df : list R) :
  by_timestamp (Polars.group ticker k (Polars.sort df)).
Proof.
  unfold by_timestamp.
  assert (Hs : StronglySorted key_le (Polars.group ticker k (Polars.sort df))).
  { rewrite group_sort. apply sort_sorted. }
  assert (Hk : Forall (fun r => ticker r = k)
                      (Polars.group ticker k (Polars.sort df)))
    by apply group_key.
  induction Hs as [|y l Hs IH Hy]; [constructor|].
  inversion Hk as [|? ? Ey Hl]; subst.
  constructor; [now apply IH|].
  rewrite Forall_forall in *. intros z Hz.
  apply key_le_same_ticker; [|now apply Hy].
  now rewrite (Hl z Hz).
Qed.

End SortFacts.

(** ** [add_ema] *)

Lemma ewm_from_length alpha prev xs :
  length (Polars.ewm_from alpha prev xs) = length xs.
Proof.
  revert prev; induction xs as [|[x|] xs IH]; intros prev; simpl; auto.
Qed.

Lemma ewm_mean_length span xs : length (Polars.ewm_mean span xs) = length xs.
Proof. apply ewm_from_length. Qed.

#[export] Hint Rewrite ewm_mean_length : col_len.

Lemma ewm_from_chain alpha prev (vals : list f64) :
  Polars.ewm_from alpha prev (map Some vals)
  = map Some (ema_chain alpha prev vals).
Proof.
  revert prev; induction vals as [|x vals IH]; intros prev; simpl; auto.
  now rewrite IH.
Qed.

Lemma ema_chain_length alpha prev vals :
  length (ema_chain alpha prev vals) = length vals.
Proof.
  revert prev; induction vals as [|x vals IH]; intros prev; simpl; auto.
Qed.

Lemma ema_chain_seed alpha (vals : list f64) x :
  nth_error vals 0 = Some x ->
  nth_error (ema_chain alpha None vals) 0 = Some x.
Proof. destruct vals; simpl; auto. Qed.

Lemma ema_chain_step alpha (vals : list f64) prev t x :
  nth_error vals (S t) = Some x ->
  exists y, nth_error (ema_chain alpha prev vals) t = Some y
            /\ nth_error (ema_chain alpha prev vals) (S t)
               = Some (alpha * x + (F64.of_Z 1 - alpha) * y)%f64.
Proof.
  revert prev t; induction vals as [|v vals IH]; intros prev t Hx;
    [discriminate|].
  destruct t as [|t].
  - destruct vals as [|v' vals]; [discriminate|]. simpl in Hx.
    injection Hx as ->. simpl. eexists. split; reflexivity.
  - simpl in Hx. simpl. apply IH. exact Hx.
Qed.

(** The EMA cells of one ticker are the chain over its own rows. *)
Lemma add_ema_group {R : Type} `{Keyed R} (df : list R) (column : R -> f64)
      (window : Z) (tk : string) :
  Polars.group (fun p : R * option f64 => ticker (fst p)) tk
               (Features.add_ema df column window)
  = let part := Polars.group ticker tk (Polars.sort df) in
    combine part
            (map Some (ema_chain (Polars.alpha_of_span window) None
                                 (map column part))).
Proof.
  unfold Features.add_ema. rewrite over_group.
  - unfold Polars.apply, Polars.col, Polars.ewm_mean. cbv zeta.
    now rewrite <- ewm_from_chain, map_map.
  - col_len.
Qed.




(** The closes of [Examples.two_tickers] with a span of 3 ([alpha = 1/2]):
    100, 101, 101 for AAA and 0, 7/2, 21/4 for BBB, each ticker after the
    other. *)
Example ema_two_tickers :
  Forall2 (fun p q => ticker (fst p) = fst q
                      /\ exists y, snd p = Some y /\ F64.same y (F64.of_Q (snd q)))
          (Features.add_ema Examples.two_tickers CLOSE 3)
          [ ("AAA"%string, 100%Q); ("AAA"%string, 101%Q); ("AAA"%string, 101%Q);
            ("BBB"%string, 0%Q); ("BBB"%string, (7 # 2)%Q);
            ("BBB"%string, (21 # 4)%Q) ].
Proof.
  repeat constructor; try (eexists; split; [reflexivity|]); simpl;
    split; try reflexivity; intros E; try discriminate E; reflexivity.
Qed.

(** ** [add_macd] *)

Lemma combine_map_map {A B C D} (f : A -> C) (g : B -> D) (a : list A) (b : list B) :
  combine (map f a) (map g b)
  = map (fun p => (f (fst p), g (snd p))) (combine a b).
Proof.
  revert b; induction a as [|x a IH]; intros [|y b]; simpl; auto.
  now rewrite IH.
Qed.

Lemma combine_map_r {A B D} (g : B -> D) (a : list A) (b : list B) :
  combine a (map g b) = map (fun p => (fst p, g (snd p))) (combine a b).
Proof.
  revert b; induction a as [|x a IH]; intros [|y b]; simpl; auto.
  now rewrite IH.
Qed.

Lemma macd_cells {R : Type} (part : list R) (cs cl : list f64) :
  length cs = length part -> length cl = length part ->
  map snd
      (map (fun r : R * (option f64 * option f64) =>
              (r, Polars.lift2 F64.sub (fst (snd r)) (snd (snd r))))
           (combine part (combine (map Some cs) (map Some cl))))
  = map Some (map (fun p => (fst p - snd p)%f64) (combine cs cl)).
Proof.
  revert cs cl; induction part as [|r part IH]; intros [|a cs] [|b cl] E1 E2;
    simpl in *; try discriminate; auto.
  f_equal. apply IH; lia.
Qed.

Lemma macd_rows {R : Type} (part : list R) (cs cl sg : list f64) :
  length cs = length part -> length cl = length part ->
  length sg = length part ->
  map (fun x : R * (option f64 * option f64) * option f64 * option f64 =>
         {| macd_row := fst (fst (fst x));
            MACD := snd (fst x);
            MACD_SIGNAL := snd x;
            MACD_HIST := Polars.lift2 F64.sub (snd (fst x)) (snd x) |})
      (combine
         (map (fun r : R * (option f64 * option f64) =>
                 (r, Polars.lift2 F64.sub (fst (snd r)) (snd (snd r))))
              (combine part (combine (map Some cs) (map Some cl))))
         (map Some sg))
  = map (fun p => {| macd_row := fst p;
                     MACD := Some (fst (snd p));
                     MACD_SIGNAL := Some (snd (snd p));
                     MACD_HIST := Some (fst (snd p) - snd (snd p))%f64 |})
        (combine part
           (combine (map (fun p => (fst p - snd p)%f64) (combine cs cl)) sg)).
Proof.
  revert cs cl sg; induction part as [|r part IH];
    intros [|a cs] [|b cl] [|c sg] E1 E2 E3; simpl in *; try discriminate; auto.
  f_equal. apply IH; lia.
Qed.

(** The MACD columns of one ticker, computed on its rows alone: the
    difference of the two price chains, the chain over that difference, and
    the difference of these two. *)
Lemma add_macd_group {R : Type} `{Keyed R} (df : list R) (column : R -> f64)
      (short_span long_span signal_span : Z) (tk : string) :
  Polars.group (fun r : Macd R => ticker (macd_row r)) tk
               (Features.add_macd df column short_span long_span signal_span)
  = let part := Polars.group ticker tk (Polars.sort df) in
    let vals := map column part in
    let macd :=
      map (fun p => (fst p - snd p)%f64)
          (combine (ema_chain (Polars.alpha_of_span short_span) None vals)
                   (ema_chain (Polars.alpha_of_span long_span) None vals)) in
    let signal := ema_chain (Polars.alpha_of_span signal_span) None macd in
    map (fun p => {| macd_row := fst p;
                     MACD := Some (fst (snd p));
                     MACD_SIGNAL := Some (snd (snd p));
                     MACD_HIST := Some (fst (snd p) - snd (snd p))%f64 |})
        (combine part (combine macd signal)).
Proof.
  unfold Features.add_macd. cbv zeta.
  set (sdf := Polars.sort df).
  set (oS := Polars.over ticker
               (Polars.apply (Polars.ewm_mean short_span) (Polars.col column))).
  set (oL := Polars.over ticker
               (Polars.apply (Polars.ewm_mean long_span) (Polars.col column))).
  set (df1 := Polars.with_columns sdf (Polars.also oS oL)).
  (* Step 2 and step 4 work row by row. *)
  rewrite (with_columns_rowwise _
             (fun r : R * (option f64 * option f64) =>
                Polars.lift2 F64.sub (fst (snd r)) (snd (snd r))) df1)
    by (apply binop_rowwise; reflexivity).
  set (df2 := map (fun r : R * (option f64 * option f64) =>
                     (r, Polars.lift2 F64.sub (fst (snd r)) (snd (snd r)))) df1).
  set (df3 := Polars.with_columns df2 _).
  rewrite (with_columns_rowwise _
             (fun r : R * (option f64 * option f64) * option f64 * option f64 =>
                Polars.lift2 F64.sub (snd (fst r)) (snd r)) df3)
    by (apply binop_rowwise; reflexivity).
  rewrite map_map.
  rewrite (group_map (fun r : Macd R => ticker (macd_row r))
                     (fun r : R * (option f64 * option f64) * option f64 * option f64 =>
                        ticker (fst r))) by reflexivity.
  (* The rows of the ticker in [df1]. *)
  set (part := Polars.group ticker tk sdf).
  set (vals := map column part).
  assert (LS : length (oS sdf) = length sdf) by apply over_length.
  assert (LL : length (oL sdf) = length sdf) by apply over_length.
  assert (SS : sel ticker tk sdf (oS sdf)
               = map Some (ema_chain (Polars.alpha_of_span short_span) None vals)).
  { unfold oS. rewrite sel_over.
    - unfold Polars.apply, Polars.col, Polars.ewm_mean, vals.
      now rewrite <- ewm_from_chain, map_map.
    - col_len. }
  assert (SL : sel ticker tk sdf (oL sdf)
               = map Some (ema_chain (Polars.alpha_of_span long_span) None vals)).
  { unfold oL. rewrite sel_over.
    - unfold Polars.apply, Polars.col, Polars.ewm_mean, vals.
      now rewrite <- ewm_from_chain, map_map.
    - col_len. }
  assert (G1 : Polars.group (fun p : R * (option f64 * option f64) => ticker (fst p))
                            tk df1
               = combine part
                   (combine (map Some (ema_chain (Polars.alpha_of_span short_span) None vals))
                            (map Some (ema_chain (Polars.alpha_of_span long_span) None vals)))).
  { unfold df1, Polars.with_columns, Polars.also.
    rewrite group_combine by (rewrite length_combine; lia).
    rewrite sel_combine by assumption. now rewrite SS, SL. }
  assert (G2 : Polars.group
                 (fun p : R * (option f64 * option f64) * option f64 =>
                    ticker (fst p)) tk df2
               = map (fun r : R * (option f64 * option f64) =>
                        (r, Polars.lift2 F64.sub (fst (snd r)) (snd (snd r))))
                     (Polars.group
                        (fun p : R * (option f64 * option f64) => ticker (fst p))
                        tk df1)).
  { unfold df2. apply group_map. reflexivity. }
  set (cs := ema_chain (Polars.alpha_of_span short_span) None vals) in *.
  set (cl := ema_chain (Polars.alpha_of_span long_span) None vals) in *.
  assert (Lcs : length cs = length part)
    by (unfold cs, vals; now rewrite ema_chain_length, length_map).
  assert (Lcl : length cl = length part)
    by (unfold cl, vals; now rewrite ema_chain_length, length_map).
  rewrite G1 in G2.
  unfold df3. rewrite over_group.
  2:{ col_len. }
  change (Polars.group ticker tk df2)
    with (Polars.group
            (fun p : R * (option f64 * option f64) * option f64 =>
               ticker (fst p)) tk df2).
  rewrite G2.
  unfold Polars.apply, Polars.col_nullable, Polars.ewm_mean.
  rewrite macd_cells by assumption.
  rewrite ewm_from_chain.
  cbn [fst snd].
  apply macd_rows; auto.
  rewrite ema_chain_length, length_map, length_combine. lia.
Qed.

(** The frame [add_macd] returns, with steps 2 and 4 read row by row. *)
Lemma add_macd_steps {R : Type} `{Keyed R} (df : list R) (column : R -> f64)
      (short_span long_span signal_span : Z) :
  let sdf := Polars.sort df in
  let ema span :=
    Polars.over ticker
      (Polars.apply (Polars.ewm_mean span) (Polars.col column)) sdf in
  let df2 :=
    map (fun r : R * (option f64 * option f64) =>
           (r, Polars.lift2 F64.sub (fst (snd r)) (snd (snd r))))
        (combine sdf (combine (ema short_span) (ema long_span))) in
  let df3 :=
    Polars.with_columns df2
      (Polars.over ticker
         (Polars.apply (Polars.ewm_mean signal_span) (Polars.col_nullable snd))) in
  Features.add_macd df column short_span long_span signal_span
  = map (fun x : R * (option f64 * option f64) * option f64 * option f64 =>
           {| macd_row := fst (fst (fst x));
              MACD := snd (fst x);
              MACD_SIGNAL := snd x;
              MACD_HIST := Polars.lift2 F64.sub (snd (fst x)) (snd x) |})
        df3.
Proof.
  cbv zeta. unfold Features.add_macd. cbv zeta.
  set (df1 := Polars.with_columns (Polars.sort df) _).
  rewrite (with_columns_rowwise _
             (fun r : R * (option f64 * option f64) =>
                Polars.lift2 F64.sub (fst (snd r)) (snd (snd r))) df1)
    by (apply binop_rowwise; reflexivity).
  set (df3 := Polars.with_columns (map _ df1) _).
  rewrite (with_columns_rowwise _
             (fun r : R * (option f64 * option f64) * option f64 * option f64 =>
                Polars.lift2 F64.sub (snd (fst r)) (snd r)) df3)
    by (apply binop_rowwise; reflexivity).
  rewrite map_map. reflexivity.
Qed.

(** C5.  [add_macd] returns the rows of the sorted frame.  Row by row, MACD
    is the [short_span] EMA cell minus the [long_span] EMA cell, these being
    the cells [add_ema] computes for the source column (12 and 26 by
    default), and MACD_HIST is MACD minus MACD_SIGNAL, none of the three
    being null.  For every ticker, along its rows in timestamp order,
    MACD_SIGNAL is the non-adjusted chain of span [signal_span] (9 by
    default) over the MACD cells of that ticker: it equals MACD at the
    ticker's first row, and is
    [alpha * MACD + (1 - alpha) * previous MACD_SIGNAL] at every later one,
    with [alpha = 2 / (signal_span + 1)]. *)
Theorem macd_relations {R : Type} `{Keyed R} (df : list R) (column : R -> f64)
        (short_span long_span signal_span : Z) :
  let out := Features.add_macd df column short_span long_span signal_span in
  let alpha := (F64.of_Z 2 / F64.of_Z (signal_span + 1))%f64 in
  map macd_row out = Polars.sort df
  /\ map macd_row out = map fst (Features.add_ema df column short_span)
  /\ map MACD out
     = map (fun p => Polars.lift2 F64.sub (fst p) (snd p))
           (combine (map snd (Features.add_ema df column short_span))
                    (map snd (Features.add_ema df column long_span)))
  /\ (forall r, In r out ->
        exists m s, MACD r = Some m /\ MACD_SIGNAL r = Some s
                    /\ MACD_HIST r = Some (m - s)%f64)
  /\ (forall tk,
        let part := Polars.group (fun r : Macd R => ticker (macd_row r)) tk out in
        map macd_row part = Polars.group ticker tk (Polars.sort df)
        /\ (forall r, nth_error part 0 = Some r -> MACD_SIGNAL r = MACD r)
        /\ (forall t r0 r1,
              nth_error part t = Some r0 -> nth_error part (S t) = Some r1 ->
              exists m1 s0,
                MACD r1 = Some m1 /\ MACD_SIGNAL r0 = Some s0
                /\ MACD_SIGNAL r1
                   = Some (alpha * m1 + (F64.of_Z 1 - alpha) * s0)%f64)).
Proof.
  cbv zeta.
  assert (Lema : forall span,
             length (Polars.over ticker
                       (Polars.apply (Polars.ewm_mean span) (Polars.col column))
                       (Polars.sort df))
             = length (Polars.sort df)) by (intros; apply over_length).
  assert (Eema : forall span,
             Features.add_ema df column span
             = combine (Polars.sort df)
                       (Polars.over ticker
                          (Polars.apply (Polars.ewm_mean span) (Polars.col column))
                          (Polars.sort df))) by reflexivity.
  assert (Hrows : map macd_row
                      (Features.add_macd df column short_span long_span signal_span)
                  = Polars.sort df).
  { rewrite add_macd_steps. cbv zeta. rewrite map_map. cbn [macd_row].
    unfold Polars.with_columns.
    rewrite <- (map_map fst (fun x => fst (fst x))).
    rewrite map_fst_combine by apply over_length.
    rewrite map_map. cbn [fst].
    apply map_fst_combine. rewrite length_combine, !Lema. lia. }
  split; [exact Hrows|].
  split; [rewrite Hrows, Eema; symmetry; apply map_fst_combine, Lema|].
  split; [|split].
  - rewrite add_macd_steps. cbv zeta. rewrite map_map. cbn [MACD].
    unfold Polars.with_columns.
    rewrite <- (map_map fst snd).
    rewrite map_fst_combine by apply over_length.
    rewrite map_map. cbn [snd].
    rewrite !Eema, !map_snd_combine by apply Lema.
    rewrite <- (map_map snd (fun p => Polars.lift2 F64.sub (fst p) (snd p))).
    rewrite map_snd_combine; [reflexivity|].
    rewrite length_combine, !Lema. lia.
  - intros r Hr.
    assert (Hg : In r (Polars.group (fun r : Macd R => ticker (macd_row r))
                         (ticker (macd_row r))
                         (Features.add_macd df column short_span long_span
                                            signal_span)))
      by (apply group_In; auto).
    rewrite add_macd_group in Hg. cbv zeta in Hg.
    apply in_map_iff in Hg. destruct Hg as (p & <- & _).
    simpl. eauto.
  - intros tk. rewrite add_macd_group. cbv zeta.
    set (part := Polars.group ticker tk (Polars.sort df)).
    set (macd := map (fun p => (fst p - snd p)%f64) _).
    set (alpha := (F64.of_Z 2 / F64.of_Z (signal_span + 1))%f64).
    change (Polars.alpha_of_span signal_span) with alpha.
    assert (Lm : length macd = length part).
    { unfold macd. rewrite length_map, length_combine, !ema_chain_length, length_map.
      lia. }
    assert (Lc : length (combine macd (ema_chain alpha None macd)) = length part)
      by (rewrite length_combine, ema_chain_length; lia).
    split; [|split].
    + rewrite map_map. cbn [macd_row]. now apply map_fst_combine.
    + intros r Hn. rewrite nth_error_map in Hn.
      destruct (nth_error (combine part _) 0) as [[r0 [m s]]|] eqn:E;
        [|discriminate].
      injection Hn as <-. cbn [MACD MACD_SIGNAL fst snd].
      apply nth_error_combine_inv in E. destruct E as [_ E].
      apply nth_error_combine_inv in E. destruct E as [Em Es].
      rewrite (ema_chain_seed alpha macd m Em) in Es. congruence.
    + intros t r0 r1 H0 H1. rewrite nth_error_map in H0, H1.
      destruct (nth_error (combine part _) t) as [[p0 [m0 s0]]|] eqn:E0;
        [|discriminate].
      destruct (nth_error (combine part _) (S t)) as [[p1 [m1 s1]]|] eqn:E1;
        [|discriminate].
      injection H0 as <-. injection H1 as <-. cbn [MACD MACD_SIGNAL fst snd].
      apply nth_error_combine_inv in E0, E1.
      destruct E0 as [_ E0], E1 as [_ E1].
      apply nth_error_combine_inv in E0, E1.
      destruct E0 as [_ Es0], E1 as [Em1 Es1].
      destruct (ema_chain_step alpha macd None t m1 Em1) as (y & Hy0 & Hy1).
      exists m1, s0. repeat split. congruence.
Qed.

(** The MACD columns on [Examples.two_tickers] with the spans 1, 3 and 1:
    with a span of 1 a chain is its source, so MACD is the close minus its
    span-3 chain, MACD_SIGNAL is MACD and MACD_HIST is zero. *)
Example macd_two_tickers :
  Forall2 (fun r q => exists m s h,
                        MACD r = Some m /\ MACD_SIGNAL r = Some s
                        /\ MACD_HIST r = Some h
                        /\ F64.same m (F64.of_Q q) /\ F64.same s (F64.of_Q q)
                        /\ F64.eqb h (F64.of_Z 0) = true)
          (Features.add_macd Examples.two_tickers CLOSE 1 3 1)
          [ 0%Q; 1%Q; 0%Q; 0%Q; (7 # 2)%Q; (7 # 4)%Q ].
Proof.
  repeat constructor; do 3 eexists;
    (split; [reflexivity|]); (split; [reflexivity|]); (split; [reflexivity|]);
    simpl; repeat split; try reflexivity; intros E; try discriminate E;
    reflexivity.
Qed.

(** ** [add_rsi] *)

Lemma eqb_self (x : f64) : F64.eqb x x = negb (F64.is_nan x).
Proof.
  destruct x as [|s|q z]; simpl; auto.
  - now destruct s.
  - apply Qeq_bool_refl.
Qed.

(** A chain that has seen no observation yet starts over. *)
Lemma ewm_loop_unseeded span (xs : list f64) :
  Pandas.ewm_loop span F64.NaN (F64.of_Z 1) 0 xs = Pandas.ewm_mean span xs.
Proof.
  destruct xs as [|cur xs]; [reflexivity|].
  simpl. rewrite eqb_self.
  destruct cur as [|s|q z]; reflexivity.
Qed.

Lemma ewm_mean_leading_nan span (xs : list f64) :
  Pandas.ewm_mean span (F64.NaN :: xs) = F64.NaN :: Pandas.ewm_mean span xs.
Proof. simpl. now rewrite ewm_loop_unseeded. Qed.


Lemma pandas_ewm_loop_length span w o n xs :
  length (Pandas.ewm_loop span w o n xs) = length xs.
Proof.
  revert w o n; induction xs as [|x xs IH]; intros; simpl; auto.
Qed.

Lemma pandas_ewm_mean_length span xs :
  length (Pandas.ewm_mean span xs) = length xs.
Proof.
  destruct xs; simpl; auto. now rewrite pandas_ewm_loop_length.
Qed.

Lemma pandas_diff_from_length prev xs :
  length (Pandas.diff_from prev xs) = length xs.
Proof. revert prev; induction xs; intros; simpl; auto. Qed.

Section RsiFacts.
Context {R : Type}.
Variable price_col : R -> f64.
Variable window : Z.


Lemma rsi_gain_cons r0 rest :
  Features.rsi_gain price_col (r0 :: rest)
  = F64.NaN :: Pandas.clip_lower (F64.of_Z 0)
                 (Pandas.diff_from (price_col r0) (map price_col rest)).
Proof. reflexivity. Qed.

Lemma rsi_loss_cons r0 rest :
  Features.rsi_loss price_col (r0 :: rest)
  = F64.NaN :: map F64.opp
                 (Pandas.clip_upper (F64.of_Z 0)
                    (Pandas.diff_from (price_col r0) (map price_col rest))).
Proof. reflexivity. Qed.

Lemma rsi_avg_gain_cons batch :
  batch <> [] ->
  Features.rsi_avg_gain price_col window batch
  = F64.NaN :: Pandas.ewm_mean window (tl (Features.rsi_gain price_col batch)).
Proof.
  destruct batch as [|r0 rest]; [congruence|]. intros _.
  unfold Features.rsi_avg_gain. rewrite rsi_gain_cons.
  apply ewm_mean_leading_nan.
Qed.

Lemma rsi_avg_loss_cons batch :
  batch <> [] ->
  Features.rsi_avg_loss price_col window batch
  = F64.NaN :: Pandas.ewm_mean window (tl (Features.rsi_loss price_col batch)).
Proof.
  destruct batch as [|r0 rest]; [congruence|]. intros _.
  unfold Features.rsi_avg_loss. rewrite rsi_loss_cons.
  apply ewm_mean_leading_nan.
Qed.

Lemma rsi_lengths batch :
  length (Features.rsi_delta price_col batch) = length batch
  /\ length (Features.rsi_gain price_col batch) = length batch
  /\ length (Features.rsi_loss price_col batch) = length batch
  /\ length (Features.rsi_avg_gain price_col window batch) = length batch
  /\ length (Features.rsi_avg_loss price_col window batch) = length batch
  /\ length (Features.rsi_rs price_col window batch) = length batch
  /\ length (Features.rsi_rsi price_col window batch) = length batch.
Proof.
  assert (Ld : length (Features.rsi_delta price_col batch) = length batch).
  { unfold Features.rsi_delta, Pandas.diff.
    destruct batch as [|r0 rest]; simpl; auto.
    now rewrite pandas_diff_from_length, length_map. }
  assert (Lg : length (Features.rsi_gain price_col batch) = length batch).
  { unfold Features.rsi_gain, Pandas.clip_lower. now rewrite length_map. }
  assert (Ll : length (Features.rsi_loss price_col batch) = length batch).
  { unfold Features.rsi_loss, Pandas.clip_upper. now rewrite !length_map. }
  assert (Lag : length (Features.rsi_avg_gain price_col window batch) = length batch).
  { unfold Features.rsi_avg_gain. now rewrite pandas_ewm_mean_length. }
  assert (Lal : length (Features.rsi_avg_loss price_col window batch) = length batch).
  { unfold Features.rsi_avg_loss. now rewrite pandas_ewm_mean_length. }
  assert (Lrs : length (Features.rsi_rs price_col window batch) = length batch).
  { unfold Features.rsi_rs. rewrite length_map, length_combine. lia. }
  repeat split; auto.
  unfold Features.rsi_rsi. now rewrite length_map.
Qed.

(** The cell of a row, from the two averages of the row. *)
Lemma rsi_cell batch t g l :
  nth_error (Features.rsi_avg_gain price_col window batch) t = Some g ->
  nth_error (Features.rsi_avg_loss price_col window batch) t = Some l ->
  exists r,
    nth_error batch t = Some r
    /\ nth_error (Features.rsi_rs price_col window batch) t = Some (g / l)%f64
    /\ nth_error (Features._rsi_per_ticker price_col window batch) t
       = Some (r, Pandas.nan_to_null (Features.rsi_value (g / l)%f64)).
Proof.
  intros Hg Hl.
  destruct (rsi_lengths batch) as (_ & _ & _ & Lag & _ & _ & _).
  assert (Ht : (t < length batch)%nat)
    by (rewrite <- Lag; apply nth_error_Some; congruence).
  destruct (nth_error batch t) as [r|] eqn:Er;
    [|apply nth_error_None in Er; lia].
  exists r. split; [reflexivity|].
  assert (Hrs : nth_error (Features.rsi_rs price_col window batch) t
                = Some (g / l)%f64).
  { unfold Features.rsi_rs.
    apply (map_nth_error (fun gl => (fst gl / snd gl)%f64) t _ (d := (g, l))).
    now apply combine_nth_error. }
  split; [exact Hrs|].
  unfold Features._rsi_per_ticker. apply combine_nth_error; auto.
  unfold Features.rsi_rsi. rewrite !nth_error_map, Hrs. reflexivity.
Qed.
End RsiFacts.

(** *** Finite arithmetic *)

Lemma is0_false_pos (q : Q) : (0 < q)%Q -> F64.is0 q = false.
Proof.
  intros Hq. unfold F64.is0. destruct (Qeq_bool q 0) eqn:E; auto.
  apply Qeq_bool_iff in E. rewrite E in Hq. now apply Qlt_irrefl in Hq.
Qed.

Lemma is0_false_nonneg (q : Q) : (0 <= q)%Q -> F64.is0 q = false -> (0 < q)%Q.
Proof.
  intros Hq E. apply Qle_lteq in Hq. destruct Hq as [Hq|Hq]; auto.
  unfold F64.is0 in E. apply Qeq_bool_neq in E. exfalso. apply E.
  now symmetry.
Qed.

Lemma add_fin p z q z' : exists z'', (F64.Fin p z + F64.Fin q z')%f64 = F64.Fin (p + q) z''.
Proof. eexists; reflexivity. Qed.

Lemma sub_fin p z q z' : exists z'', (F64.Fin p z - F64.Fin q z')%f64 = F64.Fin (p + - q) z''.
Proof. eexists; reflexivity. Qed.

Lemma mul_fin p z q z' : exists z'', (F64.Fin p z * F64.Fin q z')%f64 = F64.Fin (p * q) z''.
Proof. eexists; reflexivity. Qed.

Lemma div_fin p z q z' :
  F64.is0 q = false ->
  exists z'', (F64.Fin p z / F64.Fin q z')%f64 = F64.Fin (p / q) z''.
Proof. intros E. unfold F64.div. rewrite E. eexists; reflexivity. Qed.

Lemma Qdiv_nonneg (p q : Q) : (0 <= p)%Q -> (0 < q)%Q -> (0 <= p / q)%Q.
Proof. intros Hp Hq. apply Qle_shift_div_l; auto. lra. Qed.

(** The smoothing factor pandas derives from a span of one or more. *)
Lemma pandas_alpha_fin (span : Z) :
  1 <= span ->
  exists a z, Pandas.alpha span = F64.Fin a z /\ (0 < a)%Q /\ (a <= 1)%Q.
Proof.
  intros Hs. unfold Pandas.alpha, Pandas.com, F64.of_Z.
  destruct (div_fin (inject_Z (span - 1)) false (inject_Z 2) false eq_refl)
    as (z1 & ->).
  destruct (add_fin (inject_Z 1) false (inject_Z (span - 1) / inject_Z 2) z1)
    as (z2 & ->).
  set (c := (inject_Z (span - 1) / inject_Z 2)%Q).
  assert (Hc : (0 <= c)%Q).
  { apply Qdiv_nonneg; [|reflexivity].
    change 0%Q with (inject_Z 0). rewrite <- Zle_Qle. lia. }
  assert (Hd : (0 < inject_Z 1 + c)%Q) by (change (inject_Z 1) with 1%Q; lra).
  destruct (div_fin (inject_Z 1) false (inject_Z 1 + c) z2 (is0_false_pos _ Hd))
    as (z3 & ->).
  exists (inject_Z 1 / (inject_Z 1 + c))%Q, z3. split; [reflexivity|]. split.
  - apply Qlt_shift_div_l; auto. change (inject_Z 1) with 1%Q. lra.
  - apply Qle_shift_div_r; auto. change (inject_Z 1) with 1%Q. lra.
Qed.

(** One step of the chain on finite, non-negative cells. *)
Lemma ewm_update_nonneg (a w c : Q) (za zw zc : bool) :
  (0 < a)%Q -> (a <= 1)%Q -> (0 <= w)%Q -> (0 <= c)%Q ->
  fin_nonneg
    ((F64.of_Z 1 * (F64.of_Z 1 - F64.Fin a za) * F64.Fin w zw
      + F64.Fin a za * F64.Fin c zc)
     / (F64.of_Z 1 * (F64.of_Z 1 - F64.Fin a za) + F64.Fin a za))%f64.
Proof.
  intros Ha Ha1 Hw Hc. unfold F64.of_Z.
  destruct (sub_fin (inject_Z 1) false a za) as (z1 & ->).
  destruct (mul_fin (inject_Z 1) false (inject_Z 1 + - a) z1) as (z2 & ->).
  destruct (mul_fin (inject_Z 1 * (inject_Z 1 + - a)) z2 w zw) as (z3 & ->).
  destruct (mul_fin a za c zc) as (z4 & ->).
  destruct (add_fin (inject_Z 1 * (inject_Z 1 + - a) * w) z3 (a * c) z4) as (z5 & ->).
  destruct (add_fin (inject_Z 1 * (inject_Z 1 + - a)) z2 a za) as (z6 & ->).
  change (inject_Z 1) with 1%Q.
  assert (Hden : (0 < 1 * (1 + - a) + a)%Q) by lra.
  destruct (div_fin (1 * (1 + - a) * w + a * c) z5 (1 * (1 + - a) + a) z6
                    (is0_false_pos _ Hden)) as (z7 & ->).
  simpl. apply Qdiv_nonneg; auto.
  assert (H1 : (0 <= 1 * (1 + - a) * w)%Q).
  { apply Qmult_le_0_compat; auto. lra. }
  assert (H2 : (0 <= a * c)%Q) by (apply Qmult_le_0_compat; auto; lra).
  lra.
Qed.

Lemma ewm_loop_nonneg (span : Z) :
  1 <= span ->
  forall (vals : list f64) (weighted : f64) (nobs : nat),
    Forall fin_nonneg vals -> fin_nonneg weighted -> (1 <= nobs)%nat ->
    Forall fin_nonneg (Pandas.ewm_loop span weighted (F64.of_Z 1) nobs vals).
Proof.
  intros Hs. destruct (pandas_alpha_fin span Hs) as (a & za & Ea & Ha & Ha1).
  induction vals as [|cur vals IH]; intros weighted nobs Hv Hw Hn;
    [constructor|].
  inversion Hv as [|? ? Hcur Hrest]; subst.
  destruct weighted as [| |w zw]; try contradiction.
  destruct cur as [| |c zc]; try contradiction.
  simpl in Hw, Hcur.
  cbn [Pandas.ewm_loop].
  rewrite !eqb_self. cbn [F64.is_nan negb fst snd].
  assert (Hn' : (Pandas.minp <=? nobs + 1)%nat = true)
    by (apply Nat.leb_le; unfold Pandas.minp; lia).
  rewrite Hn'.
  assert (Hnew : fin_nonneg
                   (if F64.neqb (F64.Fin w zw) (F64.Fin c zc)
                    then ((F64.of_Z 1 * Pandas.old_wt_factor span * F64.Fin w zw
                           + Pandas.new_wt span * F64.Fin c zc)
                          / (F64.of_Z 1 * Pandas.old_wt_factor span
                             + Pandas.new_wt span))%f64
                    else F64.Fin w zw)).
  { destruct (F64.neqb (F64.Fin w zw) (F64.Fin c zc)); [|exact Hw].
    unfold Pandas.old_wt_factor, Pandas.new_wt. rewrite Ea.
    now apply ewm_update_nonneg. }
  constructor; [exact Hnew|].
  apply IH; auto. lia.
Qed.

Lemma ewm_mean_nonneg (span : Z) (vals : list f64) :
  1 <= span -> Forall fin_nonneg vals ->
  Forall fin_nonneg (Pandas.ewm_mean span vals).
Proof.
  intros Hs Hv. destruct vals as [|x vals]; [constructor|].
  inversion Hv as [|? ? Hx Hrest]; subst.
  destruct x as [| |q z]; try contradiction.
  unfold Pandas.ewm_mean. rewrite eqb_self. cbn [F64.is_nan negb].
  constructor; [exact Hx|].
  apply ewm_loop_nonneg; auto.
Qed.

(** *** Gains and losses of finite prices *)

Lemma diff_from_finite (prev : f64) (xs : list f64) :
  F64.is_finite prev = true ->
  Forall (fun x => F64.is_finite x = true) xs ->
  Forall (fun x => F64.is_finite x = true) (Pandas.diff_from prev xs).
Proof.
  intros Hp Hx. revert prev Hp.
  induction Hx as [|x xs Hx _ IH]; intros prev Hp; simpl; constructor.
  - destruct x, prev; try discriminate; reflexivity.
  - now apply IH.
Qed.

Lemma gain_nonneg (ds : list f64) :
  Forall (fun x => F64.is_finite x = true) ds ->
  Forall fin_nonneg (Pandas.clip_lower (F64.of_Z 0) ds).
Proof.
  unfold Pandas.clip_lower. induction 1 as [|d ds Hd _ IH]; simpl;
    constructor; auto.
  destruct d as [| |q z]; try discriminate.
  cbn [F64.is_nan orb].
  destruct (F64.geb (F64.Fin q z) (F64.of_Z 0)) eqn:E;
    [|unfold fin_nonneg, F64.of_Z, Qle; simpl; lia].
  unfold F64.geb, F64.leb, F64.ltb, F64.eqb, F64.of_Z in E.
  apply orb_true_iff in E. simpl. destruct E as [E|E].
  - apply Qltb_lt in E. change (inject_Z 0) with 0%Q in E. lra.
  - apply Qeq_bool_iff in E. change (inject_Z 0) with 0%Q in E. lra.
Qed.

Lemma loss_nonneg (ds : list f64) :
  Forall (fun x => F64.is_finite x = true) ds ->
  Forall fin_nonneg (map F64.opp (Pandas.clip_upper (F64.of_Z 0) ds)).
Proof.
  unfold Pandas.clip_upper. induction 1 as [|d ds Hd _ IH]; simpl;
    constructor; auto.
  destruct d as [| |q z]; try discriminate.
  cbn [F64.is_nan orb].
  destruct (F64.leb (F64.Fin q z) (F64.of_Z 0)) eqn:E;
    [|unfold fin_nonneg, F64.of_Z, F64.opp, Qle; simpl; lia].
  unfold F64.leb, F64.ltb, F64.eqb, F64.of_Z in E.
  apply orb_true_iff in E. simpl. destruct E as [E|E].
  - apply Qltb_lt in E. change (inject_Z 0) with 0%Q in E. lra.
  - apply Qeq_bool_iff in E. change (inject_Z 0) with 0%Q in E. lra.
Qed.

(** With finite prices and a window of one or more, both averages are
    finite and not negative from the second row on. *)
Lemma rsi_averages_nonneg {R : Type} (price_col : R -> f64) (window : Z)
      (batch : list R) :
  1 <= window ->
  Forall (fun r => F64.is_finite (price_col r) = true) batch ->
  Forall fin_nonneg (tl (Features.rsi_avg_gain price_col window batch))
  /\ Forall fin_nonneg (tl (Features.rsi_avg_loss price_col window batch)).
Proof.
  intros Hw Hfin. destruct batch as [|r0 rest]; [split; constructor|].
  inversion Hfin as [|? ? H0 Hrest]; subst.
  assert (Hd : Forall (fun x => F64.is_finite x = true)
                      (Pandas.diff_from (price_col r0) (map price_col rest))).
  { apply diff_from_finite; auto. now apply Forall_map. }
  rewrite rsi_avg_gain_cons, rsi_avg_loss_cons by discriminate.
  rewrite rsi_gain_cons, rsi_loss_cons. cbn [tl].
  split; apply ewm_mean_nonneg; auto.
  - now apply gain_nonneg.
  - now apply loss_nonneg.
Qed.

(** *** The cell, from the two averages *)

Lemma rsi_value_bounded (p q : Q) (zp zq : bool) :
  (0 <= p)%Q -> (0 < q)%Q ->
  exists v z,
    Features.rsi_value (F64.Fin p zp / F64.Fin q zq)%f64 = F64.Fin v z
    /\ (0 <= v)%Q /\ (v <= 100)%Q.
Proof.
  intros Hp Hq. unfold Features.rsi_value, F64.of_Z.
  destruct (div_fin p zp q zq (is0_false_pos _ Hq)) as (z1 & ->).
  assert (Hr : (0 <= p / q)%Q) by (now apply Qdiv_nonneg).
  set (r := (p / q)%Q) in *.
  destruct (add_fin (inject_Z 1) false r z1) as (z2 & ->).
  change (inject_Z 1) with 1%Q. change (inject_Z 100) with 100%Q.
  assert (Hd : (0 < 1 + r)%Q) by lra.
  destruct (div_fin 100 false (1 + r) z2 (is0_false_pos _ Hd)) as (z3 & ->).
  destruct (sub_fin 100 false (100 / (1 + r)) z3) as (z4 & ->).
  exists (100 + - (100 / (1 + r)))%Q, z4. split; [reflexivity|].
  assert (H1 : (0 <= 100 / (1 + r))%Q) by (apply Qdiv_nonneg; lra).
  assert (H2 : (100 / (1 + r) <= 100)%Q) by (apply Qle_shift_div_r; lra).
  split; lra.
Qed.

Lemma rsi_value_all_gain (g l : f64) :
  F64.is_zero l = true -> F64.ltb (F64.of_Z 0) g = true ->
  Features.rsi_value (g / l)%f64 = F64.of_Z 100.
Proof.
  intros Hl Hg. destruct l as [| |q zq]; try discriminate. simpl in Hl.
  destruct g as [|s|p zp]; try discriminate.
  - simpl in Hg. destruct s; try discriminate.
    unfold F64.div. cbn [xorb].
    destruct (F64.signbit (F64.Fin q zq)); reflexivity.
  - simpl in Hg. apply Qltb_lt in Hg. change (inject_Z 0) with 0%Q in Hg.
    unfold F64.div. rewrite Hl, (is0_false_pos _ Hg).
    destruct (xorb (F64.signbit (F64.Fin p zp)) (F64.signbit (F64.Fin q zq)));
      reflexivity.
Qed.

Lemma rsi_value_no_move (g l : f64) :
  F64.is_zero g = true -> F64.is_zero l = true ->
  Features.rsi_value (g / l)%f64 = F64.NaN.
Proof.
  intros Hg Hl. destruct l as [| |q zq]; try discriminate.
  destruct g as [| |p zp]; try discriminate. simpl in Hg, Hl.
  unfold F64.div. rewrite Hl, Hg. reflexivity.
Qed.

(** *** The batches of [add_rsi] *)

Lemma group_concat {R : Type} (key : R -> string) (k : string) (ls : list (list R)) :
  Polars.group key k (concat ls) = concat (map (Polars.group key k) ls).
Proof.
  induction ls as [|l ls IH]; simpl; auto.
  now rewrite group_app, IH.
Qed.

Lemma group_other {R : Type} (key : R -> string) (k k' : string) (l : list R) :
  Forall (fun r => key r = k') l -> k' <> k -> Polars.group key k l = [].
Proof.
  intros Hl Hne. induction Hl as [|r l Hr _ IH]; simpl; auto.
  rewrite Hr. apply String.eqb_neq in Hne. now rewrite Hne.
Qed.

Lemma concat_one_key {X : Type} (F : string -> list X) (tk : string)
      (ks : list string) :
  NoDup ks ->
  concat (map (fun k => if String.eqb k tk then F k else []) ks)
  = if in_dec String.string_dec tk ks then F tk else [].
Proof.
  induction 1 as [|k ks Hk Hnd IH]; simpl; auto.
  rewrite IH. destruct (String.eqb k tk) eqn:E.
  - apply String.eqb_eq in E. subst k.
    destruct (String.string_dec tk tk) as [_|]; [|congruence].
    destruct (in_dec String.string_dec tk ks); [contradiction|].
    apply app_nil_r.
  - apply String.eqb_neq in E.
    destruct (String.string_dec k tk); [contradiction|].
    destruct (in_dec String.string_dec tk ks); reflexivity.
Qed.

Lemma rsi_per_ticker_rows {R : Type} (price_col : R -> f64) (window : Z)
      (batch : list R) :
  map fst (Features._rsi_per_ticker price_col window batch) = batch.
Proof.
  unfold Features._rsi_per_ticker. apply map_fst_combine.
  rewrite length_map. apply rsi_lengths.
Qed.

(** The rows [add_rsi] returns for a ticker are what [_rsi_per_ticker]
    returns on the rows of that ticker. *)
Lemma add_rsi_group {R : Type} `{Keyed R} (price_col : R -> f64) (window : Z)
      (df : list R) (tk : string) :
  Polars.group (fun p : R * option f64 => ticker (fst p)) tk
               (Features.add_rsi price_col window df)
  = Features._rsi_per_ticker price_col window (Polars.group ticker tk df).
Proof.
  unfold Features.add_rsi, Polars.partition_by.
  rewrite group_concat, !map_map.
  rewrite (map_ext _
             (fun k => if String.eqb k tk
                       then Features._rsi_per_ticker price_col window
                              (Polars.group ticker k df)
                       else [])).
  - rewrite concat_one_key by apply unique_NoDup.
    destruct (in_dec String.string_dec tk (Polars.unique (map ticker df)))
      as [Hin|Hnin]; [reflexivity|].
    assert (E : Polars.group ticker tk df = []).
    { destruct (Polars.group ticker tk df) as [|r l] eqn:G; auto.
      exfalso. apply Hnin. apply (proj2 (unique_In _ _)).
      assert (Hr : In r (Polars.group ticker tk df)) by (rewrite G; now left).
      apply group_In in Hr. destruct Hr as [Hr <-]. now apply in_map. }
    now rewrite E.
  - intros k.
    assert (Hk : Forall (fun p : R * option f64 => ticker (fst p) = k)
                        (Features._rsi_per_ticker price_col window
                           (Polars.group ticker k df))).
    { apply Forall_forall. intros p Hp.
      apply (in_map fst) in Hp. rewrite rsi_per_ticker_rows in Hp.
      now apply group_In in Hp. }
    destruct (String.eqb k tk) eqn:E.
    + apply String.eqb_eq in E. subst k. now apply group_all.
    + apply String.eqb_neq in E. now apply group_other with k.
Qed.

(** C4.  With finite prices and a window of one or more, for every ticker
    and every row [t] of it, [g] and [l] being the averages of gains and of
    losses at that row: when [l] is a number (not NaN) and not zero, the
    RSI cell is a finite number between 0 and 100; when [l] is zero and [g]
    is above zero, the RSI cell is 100. *)
Theorem rsi_range {R : Type} `{Keyed R} (df : list R) (price_col : R -> f64)
        (window : Z) (tk : string) :
  1 <= window ->
  Forall (fun r => F64.is_finite (price_col r) = true) df ->
  let batch := Polars.group ticker tk df in
  let out :=
    Polars.group (fun p : R * option f64 => ticker (fst p)) tk
                 (Features.add_rsi price_col window df) in
  forall t g l,
    nth_error (Features.rsi_avg_gain price_col window batch) t = Some g ->
    nth_error (Features.rsi_avg_loss price_col window batch) t = Some l ->
    exists r,
      nth_error batch t = Some r
      /\ (F64.is_nan l = false -> F64.is_zero l = false ->
          exists v z, nth_error out t = Some (r, Some (F64.Fin v z))
                      /\ (0 <= v)%Q /\ (v <= 100)%Q)
      /\ (F64.is_zero l = true -> F64.ltb (F64.of_Z 0) g = true ->
          nth_error out t = Some (r, Some (F64.of_Z 100))).
Proof.
  intros Hw Hfin. cbv zeta. rewrite add_rsi_group.
  set (batch := Polars.group ticker tk df).
  intros t g l Hg Hl.
  destruct (rsi_cell price_col window batch t g l Hg Hl) as (r & Hr & _ & Hcell).
  exists r. split; [exact Hr|]. split.
  - intros Hnan Hz.
    assert (Hb : Forall (fun r => F64.is_finite (price_col r) = true) batch).
    { apply Forall_forall. intros x Hx. apply group_In in Hx.
      rewrite Forall_forall in Hfin. now apply Hfin. }
    destruct (rsi_averages_nonneg price_col window batch Hw Hb) as [HG HL].
    destruct t as [|t].
    + (* the first row: the average of losses is NaN *)
      exfalso. rewrite rsi_avg_loss_cons in Hl.
      * simpl in Hl. injection Hl as <-. discriminate.
      * intros E. rewrite E in Hr. discriminate.
    + assert (Hg' : nth_error (tl (Features.rsi_avg_gain price_col window batch)) t
                    = Some g).
      { destruct (Features.rsi_avg_gain price_col window batch); [discriminate|exact Hg]. }
      assert (Hl' : nth_error (tl (Features.rsi_avg_loss price_col window batch)) t
                    = Some l).
      { destruct (Features.rsi_avg_loss price_col window batch); [discriminate|exact Hl]. }
      apply nth_error_In in Hg', Hl'.
      rewrite Forall_forall in HG, HL.
      specialize (HG g Hg'). specialize (HL l Hl').
      destruct g as [| |p zp]; try contradiction.
      destruct l as [| |q zq]; try contradiction.
      simpl in HG, HL, Hz.
      destruct (rsi_value_bounded p q zp zq HG (is0_false_nonneg q HL Hz))
        as (v & z & Ev & Hv0 & Hv1).
      exists v, z. rewrite Hcell, Ev. split; [reflexivity|]. split; assumption.
  - intros Hz Hpos. rewrite Hcell, (rsi_value_all_gain g l Hz Hpos). reflexivity.
Qed.

(** [rsi_range] on the ticker AAA of [Examples.two_tickers] (closes 100,
    102, 101) with a window of three: at the third row the average of
    losses is a number above zero and the cell lies between 0 and 100; at
    the second row it is zero, the average of gains is 2, and the cell is
    100. *)
Lemma rsi_range_witness :
  let out :=
    Polars.group (fun p : Bar * option f64 => ticker (fst p)) "AAA"
                 (Features.add_rsi CLOSE 3 Examples.two_tickers) in
  (exists r v z, nth_error out 2 = Some (r, Some (F64.Fin v z))
                 /\ (0 <= v)%Q /\ (v <= 100)%Q)
  /\ (exists r, nth_error out 1 = Some (r, Some (F64.of_Z 100))).
Proof.
  cbv zeta.
  assert (Hfin : Forall (fun r => F64.is_finite (CLOSE r) = true)
                        Examples.two_tickers) by (repeat constructor).
  set (batch := Polars.group ticker "AAA" Examples.two_tickers).
  assert (Hg : forall t, (t < 3)%nat ->
             nth_error (Features.rsi_avg_gain CLOSE 3 batch) t
             = Some (nth t (Features.rsi_avg_gain CLOSE 3 batch) F64.NaN)).
  { intros t Ht. apply nth_error_nth'. exact Ht. }
  assert (Hl : forall t, (t < 3)%nat ->
             nth_error (Features.rsi_avg_loss CLOSE 3 batch) t
             = Some (nth t (Features.rsi_avg_loss CLOSE 3 batch) F64.NaN)).
  { intros t Ht. apply nth_error_nth'. exact Ht. }
  split.
  - destruct (rsi_range Examples.two_tickers CLOSE 3 "AAA" ltac:(lia) Hfin
                        2%nat _ _ (Hg 2%nat ltac:(lia)) (Hl 2%nat ltac:(lia)))
      as (r & _ & H1 & _).
    destruct (H1 eq_refl eq_refl) as (v & z & Hv).
    exists r, v, z. exact Hv.
  - destruct (rsi_range Examples.two_tickers CLOSE 3 "AAA" ltac:(lia) Hfin
                        1%nat _ _ (Hg 1%nat ltac:(lia)) (Hl 1%nat ltac:(lia)))
      as (r & _ & _ & H2).
    exists r. apply H2; reflexivity.
Defined.


(** The RSI cells on [Examples.two_tickers] with a window of three: AAA
    (closes 100, 102, 101) has no value, then 100, then 200/3; BBB (closes
    0, 7, 7) has no value, then 100 twice.  The rows come ticker after
    ticker. *)
Example rsi_two_tickers :
  Forall2 (fun p q => ticker (fst p) = fst q
                      /\ match snd p, snd q with
                         | Some y, Some x => F64.same y (F64.of_Q x)
                         | None, None => True
                         | _, _ => False
                         end)
          (Features.add_rsi CLOSE 3 Examples.two_tickers)
          [ ("AAA"%string, None); ("AAA"%string, Some 100%Q);
            ("AAA"%string, Some (200 # 3)%Q);
            ("BBB"%string, None); ("BBB"%string, Some 100%Q);
            ("BBB"%string, Some 100%Q) ].
Proof.
  repeat constructor; simpl; try reflexivity; intros E; discriminate E.
Qed.

(* ================================================================== *)
(** * Further properties of the pipeline *)

(** ** Sub-sequences *)

Lemma subseq_refl {A} (l : list A) : subseq l l.
Proof. induction l; constructor; auto. Qed.

Lemma subseq_trans {A} (l1 l2 l3 : list A) :
  subseq l1 l2 -> subseq l2 l3 -> subseq l1 l3.
Proof.
  intros H12 H23. revert l1 H12.
  induction H23 as [|x l2 l3 _ IH|x l2 l3 _ IH]; intros l1 H12.
  - exact H12.
  - inversion H12; subst; constructor; auto.
  - constructor; auto.
Qed.

Lemma subseq_filter {A} (f : A -> bool) (l : list A) :
  subseq (List.filter f l) l.
Proof.
  induction l as [|x l IH]; simpl; [constructor|].
  destruct (f x); constructor; exact IH.
Qed.

Lemma subseq_map {A B} (f : A -> B) (l l' : list A) :
  subseq l l' -> subseq (map f l) (map f l').
Proof. induction 1; simpl; constructor; auto. Qed.

Lemma subseq_In {A} (l l' : list A) (x : A) :
  subseq l l' -> In x l -> In x l'.
Proof.
  induction 1 as [|y l l' _ IH|y l l' _ IH]; simpl; auto.
  intros [E|Hin]; auto.
Qed.

Lemma subseq_length {A} (l l' : list A) :
  subseq l l' -> (length l <= length l')%nat.
Proof. induction 1; simpl; lia. Qed.

Lemma subseq_Forall {A} (P : A -> Prop) (l l' : list A) :
  subseq l l' -> Forall P l' -> Forall P l.
Proof.
  intros Hs HP. apply Forall_forall. intros x Hx.
  rewrite Forall_forall in HP. apply HP. now apply subseq_In with l.
Qed.

Lemma subseq_sorted {A} (le : A -> A -> Prop) (l l' : list A) :
  subseq l l' -> StronglySorted le l' -> StronglySorted le l.
Proof.
  induction 1 as [|x l l' Hs IH|x l l' Hs IH]; intros Hl'.
  - constructor.
  - inversion Hl' as [|? ? Hl Hx]; subst.
    constructor; [now apply IH|]. now apply subseq_Forall with l'.
  - inversion Hl'; subst. now apply IH.
Qed.

Lemma subseq_tl {A} (l : list A) : subseq (tl l) l.
Proof. destruct l; simpl; [constructor|]. constructor. apply subseq_refl. Qed.

(** ** The delta check, row by row and ticker by ticker *)

Lemma with_delta_rows df : map fst (Preprocess.with_delta df) = Polars.sort df.
Proof.
  unfold Preprocess.with_delta, Polars.with_columns.
  apply map_fst_combine. apply over_length.
Qed.

Lemma delta_check_rowwise df :
  Preprocess.delta_check df
  = map fst (List.filter (fun r : Bar * option Z => delta_ok (snd r))
                         (Preprocess.with_delta df)).
Proof.
  unfold Preprocess.delta_check.
  rewrite (filter_rowwise _ _
             (fun r : Bar * option Z =>
                Polars.lift2 Z.eqb (snd r) (Some (Preprocess.duration_minutes 5))))
    by (apply (binop_rowwise Z.eqb _ _ snd
                 (fun _ => Some (Preprocess.duration_minutes 5))); reflexivity).
  reflexivity.
Qed.

Lemma delta_check_subseq df :
  subseq (Preprocess.delta_check df) (Polars.sort df).
Proof.
  rewrite delta_check_rowwise, <- with_delta_rows.
  apply subseq_map, subseq_filter.
Qed.

Lemma steps_from (a : Bar) (l : list Bar) :
  map fst
      (List.filter (fun r : Bar * option Z => delta_ok (snd r))
         (combine l (Polars.diff_from Z.sub (Some (TIMESTAMP a))
                                      (map Some (map TIMESTAMP l)))))
  = five_minute_steps (a :: l).
Proof.
  revert a; induction l as [|b l IH]; intros a; [reflexivity|].
  unfold five_minute_steps. cbn [map Polars.diff_from combine tl List.filter fst snd].
  unfold delta_ok at 1. cbn [Polars.lift2].
  specialize (IH b). unfold five_minute_steps in IH. cbn [tl] in IH.
  destruct (TIMESTAMP b - TIMESTAMP a =? Preprocess.duration_minutes 5);
    cbn [map fst snd]; rewrite IH; reflexivity.
Qed.

(** The bars of a ticker that pass the delta check. *)
Lemma delta_check_group df tk :
  Polars.group TICKER tk (Preprocess.delta_check df)
  = five_minute_steps (Polars.group TICKER tk (Polars.sort df)).
Proof.
  rewrite delta_check_rowwise.
  rewrite (group_map TICKER (fun p : Bar * option Z => TICKER (fst p)))
    by reflexivity.
  rewrite group_filter, with_delta_group. cbv zeta.
  destruct (Polars.group TICKER tk (Polars.sort df)) as [|a l]; [reflexivity|].
  cbn [map Polars.diff Polars.diff_from combine List.filter].
  cbn [Polars.lift2 snd delta_ok].
  apply steps_from.
Qed.

Lemma filter_const {A} (c : bool) (l : list A) :
  List.filter (fun _ => c) l = if c then l else [].
Proof.
  induction l as [|x l IH]; simpl; [now destruct c|].
  rewrite IH. now destruct c.
Qed.

Lemma filter_tickers_group df m tk :
  Polars.group TICKER tk (Preprocess.filter_tickers df m)
  = if n_rows df tk >? m then Polars.group TICKER tk df else [].
Proof.
  rewrite filter_tickers_eq, group_filter.
  rewrite <- filter_const.
  apply filter_ext_in. intros r Hr. apply group_In in Hr.
  destruct Hr as [_ ->]. reflexivity.
Qed.

(** The rows [preprocess_data] returns for a ticker. *)
Lemma preprocess_group df m tk :
  Polars.group ticker tk (Preprocess.preprocess_data df m)
  = let kept :=
      five_minute_steps
        (Polars.sort (if n_rows df tk >? m
                      then Polars.group TICKER tk df else [])) in
    map (fun p => target_row (fst p) (snd p)) (combine kept (tl kept)).
Proof.
  unfold Preprocess.preprocess_data.
  rewrite add_targets_group. cbv zeta.
  rewrite delta_check_group.
  change (Polars.group TICKER tk (Polars.sort (Preprocess.filter_tickers df m)))
    with (Polars.group ticker tk (Polars.sort (Preprocess.filter_tickers df m))).
  rewrite group_sort.
  change (Polars.group ticker tk (Preprocess.filter_tickers df m))
    with (Polars.group TICKER tk (Preprocess.filter_tickers df m)).
  rewrite filter_tickers_group. reflexivity.
Qed.

(** ** Sorting and filtering *)

Section SortFilter.
Context {R : Type} `{Keyed R}.

Lemma filter_insert (f : R -> bool) (x : R) (l : list R) :
  StronglySorted key_le l ->
  List.filter f (Polars.insert x l)
  = if f x then Polars.insert x (List.filter f l) else List.filter f l.
Proof.
  induction 1 as [|y l Hs IH Hy].
  - simpl. destruct (f x); reflexivity.
  - cbn [Polars.insert]. destruct (Polars.key_leb x y) eqn:E.
    + cbn [List.filter]. destruct (f x) eqn:Ex; [|reflexivity].
      symmetry. apply insert_head. apply Forall_forall. intros z Hz.
      assert (Hin : In z (y :: l)).
      { destruct (f y); [destruct Hz as [<-|Hz]; [now left|]|];
          right; apply filter_In in Hz; tauto. }
      destruct Hin as [<-|Hin]; [exact E|].
      apply key_le_trans with y; [exact E|].
      rewrite Forall_forall in Hy. now apply Hy.
    + cbn [List.filter]. rewrite IH.
      destruct (f x), (f y); cbn [Polars.insert]; rewrite ?E; reflexivity.
Qed.

Lemma filter_sort (f : R -> bool) (df : list R) :
  List.filter f (Polars.sort df) = Polars.sort (List.filter f df).
Proof.
  induction df as [|r df IH]; simpl; auto.
  rewrite filter_insert by apply sort_sorted.
  rewrite IH. destruct (f r); reflexivity.
Qed.


Lemma sort_length (l : list R) : length (Polars.sort l) = length l.
Proof. apply Permutation_length, sort_perm. Qed.

(** A frame is in order, ticker by ticker, when each of its tickers is. *)
Lemma sorted_by_groups (rel : R -> R -> Prop) (l : list R) :
  (forall tk, StronglySorted rel (Polars.group ticker tk l)) ->
  StronglySorted (fun a b => ticker a = ticker b -> rel a b) l.
Proof.
  induction l as [|x l IH]; intros Hg; [constructor|].
  constructor.
  - apply IH. intros tk. specialize (Hg tk). simpl in Hg.
    destruct (String.eqb (ticker x) tk); [now inversion Hg|exact Hg].
  - apply Forall_forall. intros y Hy E.
    specialize (Hg (ticker x)). simpl in Hg.
    rewrite String.eqb_refl in Hg. inversion Hg as [|? ? _ Hx]; subst.
    rewrite Forall_forall in Hx. apply Hx. apply group_In. auto.
Qed.
End SortFilter.

Lemma sorted_map {A B} (f : A -> B) (le : B -> B -> Prop) (l : list A) :
  StronglySorted le (map f l) -> StronglySorted (fun a b => le (f a) (f b)) l.
Proof.
  induction l as [|x l IH]; simpl; intros Hs; [constructor|].
  inversion Hs as [|? ? Hl Hx]; subst. constructor; [now apply IH|].
  apply Forall_forall. intros y Hy. rewrite Forall_forall in Hx.
  apply Hx. now apply in_map.
Qed.

Lemma sorted_NoDup {A B} (f : A -> B) (rel : A -> A -> Prop) (l : list A) :
  (forall a b, rel a b -> f a <> f b) ->
  StronglySorted rel l -> NoDup (map f l).
Proof.
  intros Hne. induction 1 as [|x l Hs IH Hx]; simpl; constructor; auto.
  intros Hin. apply in_map_iff in Hin. destruct Hin as (y & E & Hy).
  rewrite Forall_forall in Hx. apply (Hne x y); auto.
Qed.

(** ** The rows of the table [preprocess_data] returns *)

Lemma with_close_fwd_1_rows df : map fst (Preprocess.with_close_fwd_1 df) = df.
Proof.
  unfold Preprocess.with_close_fwd_1, Polars.with_columns.
  apply map_fst_combine, over_length.
Qed.

Lemma add_targets_bars df : subseq (map bar (Preprocess.add_targets df)) df.
Proof.
  rewrite add_targets_rowwise. unfold Polars.drop_nulls.
  eapply subseq_trans; [apply subseq_map, subseq_filter|].
  rewrite map_map. cbn [bar target_of].
  change (map (fun x : Bar * option f64 => fst x) (Preprocess.with_close_fwd_1 df))
    with (map fst (Preprocess.with_close_fwd_1 df)).
  rewrite with_close_fwd_1_rows. apply subseq_refl.
Qed.

Lemma preprocess_bars df m :
  subseq (map bar (Preprocess.preprocess_data df m)) (Polars.sort df).
Proof.
  unfold Preprocess.preprocess_data.
  eapply subseq_trans; [apply add_targets_bars|].
  eapply subseq_trans; [apply delta_check_subseq|].
  rewrite filter_tickers_eq, <- filter_sort. apply subseq_filter.
Qed.

Lemma preprocess_ticker_valid df m r :
  In r (Preprocess.preprocess_data df m) -> m < n_rows df (ticker r).
Proof.
  intros Hr.
  assert (Hg : In r (Polars.group ticker (ticker r)
                       (Preprocess.preprocess_data df m)))
    by (apply group_In; auto).
  rewrite preprocess_group in Hg. cbv zeta in Hg.
  destruct (n_rows df (ticker r) >? m) eqn:G.
  - apply Z.gtb_lt in G. lia.
  - contradiction Hg.
Qed.

Lemma steps_cons (a b : Bar) (l : list Bar) :
  five_minute_steps (a :: b :: l)
  = (if TIMESTAMP b - TIMESTAMP a =? Preprocess.duration_minutes 5
     then [b] else [])
    ++ five_minute_steps (b :: l).
Proof.
  unfold five_minute_steps. cbn [tl combine List.filter fst snd].
  destruct (TIMESTAMP b - TIMESTAMP a =? Preprocess.duration_minutes 5);
    reflexivity.
Qed.

Lemma steps_length (part : list Bar) :
  (length (five_minute_steps part) <= length part - 1)%nat.
Proof.
  unfold five_minute_steps. rewrite length_map.
  eapply Nat.le_trans; [apply subseq_length, subseq_filter|].
  rewrite length_combine. destruct part; cbn [tl length]; lia.
Qed.

Lemma steps_subseq (part : list Bar) : subseq (five_minute_steps part) (tl part).
Proof.
  destruct part as [|a l]; [constructor|]. revert a.
  induction l as [|b l IH]; intros a; [constructor|].
  rewrite steps_cons. cbn [tl].
  destruct (TIMESTAMP b - TIMESTAMP a =? Preprocess.duration_minutes 5);
    constructor; apply IH.
Qed.

Lemma steps_after (a : Bar) (l : list Bar) :
  by_timestamp (a :: l) ->
  Forall (fun c => TIMESTAMP a + Preprocess.duration_minutes 5 <= TIMESTAMP c)
         (five_minute_steps (a :: l)).
Proof.
  revert a; induction l as [|b l IH]; intros a Hs; [constructor|].
  rewrite steps_cons.
  inversion Hs as [|? ? Hl Ha]; subst.
  inversion Ha as [|? ? Hab _]; subst. cbn [timestamp Keyed_Bar] in Hab.
  apply Forall_app. split.
  - destruct (Z.eqb_spec (TIMESTAMP b - TIMESTAMP a)
                         (Preprocess.duration_minutes 5)); constructor; [lia|constructor].
  - eapply Forall_impl; [|apply IH, Hl].
    unfold Preprocess.duration_minutes. intros c Hc. cbn beta in Hc. lia.
Qed.

Lemma steps_spaced (part : list Bar) :
  by_timestamp part ->
  StronglySorted
    (fun a b => timestamp a + Preprocess.duration_minutes 5 <= timestamp b)
    (five_minute_steps part).
Proof.
  destruct part as [|a l]; [constructor|]. revert a.
  induction l as [|b l IH]; intros a Hs; [constructor|].
  rewrite steps_cons.
  inversion Hs as [|? ? Hl _]; subst.
  destruct (TIMESTAMP b - TIMESTAMP a =? Preprocess.duration_minutes 5);
    cbn [app]; [|now apply IH].
  constructor; [now apply IH|]. now apply steps_after.
Qed.

Lemma steps_contiguous (part : list Bar) :
  (forall i a b, nth_error part i = Some a -> nth_error part (S i) = Some b ->
                 TIMESTAMP b - TIMESTAMP a = Preprocess.duration_minutes 5) ->
  five_minute_steps part = tl part.
Proof.
  destruct part as [|a l]; [reflexivity|]. revert a.
  induction l as [|b l IH]; intros a Hc; [reflexivity|].
  rewrite steps_cons.
  rewrite (Hc 0%nat a b eq_refl eq_refl), Z.eqb_refl.
  cbn [app tl]. f_equal.
  apply (IH b). intros i x y Hx Hy. exact (Hc (S i) x y Hx Hy).
Qed.

Lemma combine_tl_length {A} (l : list A) :
  length (combine l (tl l)) = (length l - 1)%nat.
Proof. rewrite length_combine. destruct l; cbn [tl length]; lia. Qed.

Lemma map_fst_combine_tl {A} (l : list A) :
  map fst (combine l (tl l)) = removelast l.
Proof.
  destruct l as [|a l]; [reflexivity|]. revert a.
  induction l as [|b l IH]; intros a; [reflexivity|].
  change (combine (a :: b :: l) (tl (a :: b :: l)))
    with ((a, b) :: combine (b :: l) (tl (b :: l))).
  change (removelast (a :: b :: l)) with (a :: removelast (b :: l)).
  cbn [map fst]. f_equal. apply IH.
Qed.

Lemma delta_check_spaced df :
  StronglySorted (apart (Preprocess.duration_minutes 5))
                 (Preprocess.delta_check df).
Proof.
  unfold apart. apply sorted_by_groups. intros tk.
  change (Polars.group ticker tk (Preprocess.delta_check df))
    with (Polars.group TICKER tk (Preprocess.delta_check df)).
  rewrite delta_check_group.
  apply steps_spaced.
  exact (group_sorted_by_timestamp tk df).
Qed.

(** X1.  [preprocess_data] works ticker by ticker: the rows it returns for
    a ticker, when it is given the whole frame, are the rows it returns when
    it is given the rows of that ticker alone.  The rows of the other
    tickers have no part in them. *)
Theorem preprocess_per_ticker (df : list Bar) (min_samples_per_ticker : Z)
        (tk : string) :
  Polars.group ticker tk (Preprocess.preprocess_data df min_samples_per_ticker)
  = Preprocess.preprocess_data (Polars.group TICKER tk df) min_samples_per_ticker.
Proof.
  set (m := min_samples_per_ticker). set (G := Polars.group TICKER tk df).
  assert (Hk : Forall (fun r => ticker r = tk) (Preprocess.preprocess_data G m)).
  { apply Forall_forall. intros r Hr.
    assert (Hin : In (bar r) (Polars.sort G)).
    { apply subseq_In with (map bar (Preprocess.preprocess_data G m));
        [apply preprocess_bars|now apply in_map]. }
    apply (Permutation_in _ (sort_perm G)) in Hin.
    apply group_In in Hin. destruct Hin as [_ E]. exact E. }
  rewrite <- (group_all ticker tk _ Hk).
  rewrite !preprocess_group. unfold G, n_rows. rewrite !group_idem.
  reflexivity.
Qed.

(** X2.  The table [preprocess_data] returns is in (TICKER, TIMESTAMP)
    order, two rows of one ticker are never less than five minutes apart,
    the later one after the earlier one, and so no two rows share a ticker
    and a timestamp. *)
Theorem preprocess_output_sorted (df : list Bar) (min_samples_per_ticker : Z) :
  let out := Preprocess.preprocess_data df min_samples_per_ticker in
  StronglySorted key_le out
  /\ StronglySorted (apart (Preprocess.duration_minutes 5)) out
  /\ NoDup (map (fun r => (ticker r, timestamp r)) out).
Proof.
  cbv zeta. set (out := Preprocess.preprocess_data df min_samples_per_ticker).
  assert (Hsp : StronglySorted (apart (Preprocess.duration_minutes 5)) out).
  { assert (Hs : StronglySorted (apart (Preprocess.duration_minutes 5))
                                (map bar out)).
    { eapply subseq_sorted; [apply add_targets_bars|apply delta_check_spaced]. }
    apply sorted_map in Hs. exact Hs. }
  split; [|split].
  - assert (Hs : StronglySorted key_le (map bar out)).
    { eapply subseq_sorted; [apply preprocess_bars|apply sort_sorted]. }
    apply sorted_map in Hs. exact Hs.
  - exact Hsp.
  - refine (sorted_NoDup _ _ _ _ Hsp). intros a b Hab E.
    injection E as Etk Ets. specialize (Hab Etk).
    unfold Preprocess.duration_minutes in Hab.
    cbn [timestamp Keyed_Target] in Hab. lia.
Qed.

(** X3.  [preprocess_data] makes up no bar and repeats none: the bars of
    the rows it returns are, in this order, bars of the sorted input, each
    taken at most once and unchanged; every one belongs to a ticker with
    more than [min_samples_per_ticker] rows in the input. *)
Theorem preprocess_bars_from_input (df : list Bar) (min_samples_per_ticker : Z) :
  let out := Preprocess.preprocess_data df min_samples_per_ticker in
  subseq (map bar out) (Polars.sort df)
  /\ (forall r, In r out ->
        In (bar r) df /\ min_samples_per_ticker < n_rows df (ticker r))
  /\ (length out <= length df)%nat.
Proof.
  cbv zeta. split; [apply preprocess_bars|]. split.
  - intros r Hr. split; [|now apply preprocess_ticker_valid].
    apply (Permutation_in _ (sort_perm df)).
    apply subseq_In with (map bar (Preprocess.preprocess_data df min_samples_per_ticker));
      [apply preprocess_bars|now apply in_map].
  - rewrite <- (sort_length df), <- (length_map bar).
    apply subseq_length, preprocess_bars.
Qed.

(** X4.  Every ticker loses its first and its last bar at least: of a
    ticker with [n] rows in the input, [preprocess_data] returns [n - 2]
    rows at most, and none when [n] is not above
    [min_samples_per_ticker]. *)
Theorem preprocess_row_loss (df : list Bar) (min_samples_per_ticker : Z)
        (tk : string) :
  let n_out :=
    Z.of_nat (length (Polars.group ticker tk
                        (Preprocess.preprocess_data df min_samples_per_ticker))) in
  n_out <= Z.max 0 (n_rows df tk - 2)
  /\ (n_rows df tk <= min_samples_per_ticker -> n_out = 0).
Proof.
  cbv zeta. rewrite preprocess_group. cbv zeta.
  rewrite length_map, combine_tl_length.
  destruct (n_rows df tk >? min_samples_per_ticker) eqn:G.
  - apply Z.gtb_lt in G. split; [|lia].
    pose proof (steps_length (Polars.sort (Polars.group TICKER tk df))) as Hl.
    rewrite sort_length in Hl. unfold n_rows. lia.
  - split; [|reflexivity]. cbn. unfold n_rows. lia.
Qed.

(** X5.  A ticker that has more than [min_samples_per_ticker] rows and
    whose bars, in timestamp order, are each five minutes after the one
    before keeps all its bars but the first and the last, each with the
    close of the bar that follows it five minutes later as [CLOSE_FWD_1]. *)
Theorem preprocess_regular_ticker (df : list Bar) (min_samples_per_ticker : Z)
        (tk : string) :
  min_samples_per_ticker < n_rows df tk ->
  contiguous (Preprocess.duration_minutes 5)
             (Polars.group TICKER tk (Polars.sort df)) ->
  let part := Polars.group TICKER tk (Polars.sort df) in
  let out :=
    Polars.group ticker tk
      (Preprocess.preprocess_data df min_samples_per_ticker) in
  out = map (fun p => target_row (fst p) (snd p))
            (combine (tl part) (tl (tl part)))
  /\ map bar out = removelast (tl part).
Proof.
  intros Hm Hc. cbv zeta.
  assert (E : Polars.group ticker tk
                (Preprocess.preprocess_data df min_samples_per_ticker)
              = map (fun p => target_row (fst p) (snd p))
                    (combine (tl (Polars.group TICKER tk (Polars.sort df)))
                             (tl (tl (Polars.group TICKER tk (Polars.sort df)))))).
  { rewrite preprocess_group. cbv zeta.
    apply Z.gtb_lt in Hm. rewrite Hm.
    change (Polars.sort (Polars.group TICKER tk df))
      with (Polars.sort (Polars.group ticker tk df)).
    rewrite <- group_sort.
    change (Polars.group ticker tk (Polars.sort df))
      with (Polars.group TICKER tk (Polars.sort df)).
    rewrite steps_contiguous; [reflexivity|].
    intros i a b Ha Hb. apply (Hc i a b Ha Hb).
    apply nth_error_In, group_In in Ha. apply nth_error_In, group_In in Hb.
    destruct Ha as [_ Ea], Hb as [_ Eb]. cbn [ticker Keyed_Bar]. congruence. }
  split; [exact E|].
  rewrite E, map_map. cbn [bar target_row].
  apply (map_fst_combine_tl (tl (Polars.group TICKER tk (Polars.sort df)))).
Qed.

(** [preprocess_regular_ticker] on the ticker AAA of
    [Examples.two_tickers], which has three bars, five minutes apart. *)
Lemma preprocess_regular_ticker_witness :
  let part := Polars.group TICKER "AAA" (Polars.sort Examples.two_tickers) in
  let out :=
    Polars.group ticker "AAA"
      (Preprocess.preprocess_data Examples.two_tickers 2) in
  out = map (fun p => target_row (fst p) (snd p))
            (combine (tl part) (tl (tl part)))
  /\ map bar out = removelast (tl part).
Proof.
  refine (preprocess_regular_ticker Examples.two_tickers 2 "AAA" eq_refl _).
  intros [|[|[|i]]] a b Ha Hb _; try discriminate Hb;
    injection Ha as <-; injection Hb as <-; reflexivity.
Defined.

Lemma is0_false_neg (q : Q) : (q < 0)%Q -> F64.is0 q = false.
Proof.
  intros Hq. unfold F64.is0. destruct (Qeq_bool q 0) eqn:E; auto.
  apply Qeq_bool_iff in E. rewrite E in Hq. now apply Qlt_irrefl in Hq.
Qed.

Lemma Qdiv_sign (p c : Q) :
  ~ (c == 0)%Q ->
  ((0 < c -> (0 < p / c <-> 0 < p)) /\ (c < 0 -> (p / c < 0 <-> 0 < p)))%Q.
Proof.
  intros Hc. pose proof (Qmult_div_r p c Hc) as E.
  set (q := (p / c)%Q) in *. clearbody q.
  split; intros Hs; split; intros H; nra.
Qed.

(** X8.  In the table [preprocess_data] returns, [UP_NEXT] is 0 or 1, never
    a null, and the return is never a null; and label and return agree when
    the close is positive: with a finite next close and a finite positive
    close, [UP_NEXT] is 1 exactly when [RET_FWD_1] is above zero.  With a
    negative close the two disagree: [UP_NEXT] is 1 exactly when
    [RET_FWD_1] is below zero. *)
Theorem up_next_matches_return (df : list Bar) (min_samples_per_ticker : Z)
        (r : Target) :
  In r (Preprocess.preprocess_data df min_samples_per_ticker) ->
  exists nxt ret,
    CLOSE_FWD_1 r = Some nxt /\ RET_FWD_1 r = Some ret
    /\ (UP_NEXT r = Some 1 \/ UP_NEXT r = Some 0)
    /\ (F64.is_finite (CLOSE (bar r)) = true -> F64.is_finite nxt = true ->
        (F64.ltb (F64.of_Z 0) (CLOSE (bar r)) = true ->
         (UP_NEXT r = Some 1 <-> F64.ltb (F64.of_Z 0) ret = true))
        /\ (F64.ltb (CLOSE (bar r)) (F64.of_Z 0) = true ->
            (UP_NEXT r = Some 1 <-> F64.ltb ret (F64.of_Z 0) = true))).
Proof.
  unfold Preprocess.preprocess_data. set (clean := Preprocess.delta_check _).
  intros Hr.
  assert (Hg : In r (Polars.group ticker (ticker r) (Preprocess.add_targets clean)))
    by (apply group_In; auto).
  rewrite add_targets_group in Hg. cbv zeta in Hg.
  apply in_map_iff in Hg. destruct Hg as ([b n] & <- & _). cbn [fst snd].
  exists (CLOSE n), ((CLOSE n - CLOSE b) / CLOSE b)%f64.
  cbn [target_row CLOSE_FWD_1 RET_FWD_1 UP_NEXT bar].
  split; [reflexivity|]. split; [reflexivity|]. split.
  { destruct (F64.tot_gtb (CLOSE n) (CLOSE b)); auto. }
  intros Hb Hn.
  destruct (CLOSE b) as [| |c zc]; try discriminate.
  destruct (CLOSE n) as [| |f zf]; try discriminate.
  assert (Hup : Some (if F64.tot_gtb (F64.Fin f zf) (F64.Fin c zc) then 1 else 0)
                = Some 1 <-> (c < f)%Q).
  { rewrite <- tot_gtb_finite with (z := zf) (z' := zc).
    destruct (F64.tot_gtb (F64.Fin f zf) (F64.Fin c zc));
      split; intros E; try reflexivity; discriminate E. }
  rewrite Hup.
  destruct (sub_fin f zf c zc) as (z1 & ->).
  split; intros Hc; cbn [F64.ltb F64.of_Z] in Hc; apply Qltb_lt in Hc;
    change (inject_Z 0) with 0%Q in Hc.
  - destruct (div_fin (f + - c) z1 c zc) as (z2 & ->);
      [now apply is0_false_pos|].
    cbn [F64.ltb F64.of_Z]. rewrite Qltb_lt. change (inject_Z 0) with 0%Q.
    assert (Hne : ~ (c == 0)%Q) by (intros E; rewrite E in Hc; now apply Qlt_irrefl in Hc).
    rewrite (proj1 (Qdiv_sign (f + - c) c Hne) Hc). split; intros H; lra.
  - destruct (div_fin (f + - c) z1 c zc) as (z2 & ->);
      [now apply is0_false_neg|].
    cbn [F64.ltb F64.of_Z]. rewrite Qltb_lt. change (inject_Z 0) with 0%Q.
    assert (Hne : ~ (c == 0)%Q) by (intros E; rewrite E in Hc; now apply Qlt_irrefl in Hc).
    rewrite (proj2 (Qdiv_sign (f + - c) c Hne) Hc). split; intros H; lra.
Qed.

(** [up_next_matches_return] on the first row of the table for
    [Examples.two_tickers]: the bar of AAA at minute 5, close 102, next
    close 101. *)
Lemma up_next_matches_return_witness :
  let r := target_row (Examples.bar_at "AAA" 5 (F64.of_Z 102))
                      (Examples.bar_at "AAA" 10 (F64.of_Z 101)) in
  exists nxt ret,
    CLOSE_FWD_1 r = Some nxt /\ RET_FWD_1 r = Some ret
    /\ (UP_NEXT r = Some 1 \/ UP_NEXT r = Some 0)
    /\ (F64.is_finite (CLOSE (bar r)) = true -> F64.is_finite nxt = true ->
        (F64.ltb (F64.of_Z 0) (CLOSE (bar r)) = true ->
         (UP_NEXT r = Some 1 <-> F64.ltb (F64.of_Z 0) ret = true))
        /\ (F64.ltb (CLOSE (bar r)) (F64.of_Z 0) = true ->
            (UP_NEXT r = Some 1 <-> F64.ltb ret (F64.of_Z 0) = true))).
Proof.
  exact (up_next_matches_return Examples.two_tickers 2 _ (or_introl eq_refl)).
Defined.

(** ** The order of the rows of the input *)

Lemma perm_filter {A} (f : A -> bool) (l l' : list A) :
  Permutation l l' -> Permutation (List.filter f l) (List.filter f l').
Proof.
  induction 1 as [|x l l' _ IH|x y l|l l' l'' _ IH1 _ IH2]; simpl.
  - constructor.
  - destruct (f x); [constructor|]; exact IH.
  - destruct (f x), (f y); try reflexivity. apply perm_swap.
  - now transitivity (List.filter f l').
Qed.

Lemma NoDup_map_filter {A B} (g : A -> B) (f : A -> bool) (l : list A) :
  NoDup (map g l) -> NoDup (map g (List.filter f l)).
Proof.
  induction l as [|x l IH]; simpl; intros Hn; [constructor|].
  inversion Hn as [|? ? Hx Hl]; subst.
  destruct (f x); simpl; [constructor|]; auto.
  intros Hin. apply Hx. apply in_map_iff in Hin.
  destruct Hin as (y & E & Hy). apply in_map_iff. exists y.
  split; auto. apply filter_In in Hy. tauto.
Qed.

Lemma n_rows_perm (df df' : list Bar) (tk : string) :
  Permutation df df' -> n_rows df tk = n_rows df' tk.
Proof.
  intros Hp. unfold n_rows, Polars.group. f_equal.
  apply Permutation_length. now apply perm_filter.
Qed.

Section SortedUnique.
Context {R : Type} `{Keyed R}.

Lemma key_le_antisym (a b : R) :
  key_le a b -> key_le b a -> ticker a = ticker b /\ timestamp a = timestamp b.
Proof.
  unfold key_le, Polars.key_leb. intros Hab Hba.
  rewrite String.compare_antisym in Hba.
  destruct (String.compare (ticker a) (ticker b)) eqn:E; try discriminate.
  apply String.compare_eq_iff in E. simpl in Hba.
  apply Z.leb_le in Hab, Hba. split; [exact E|lia].
Qed.

(** A frame whose rows have distinct keys has one sorted arrangement. *)
Lemma sorted_perm_eq (l l' : list R) :
  StronglySorted key_le l -> StronglySorted key_le l' ->
  Permutation l l' ->
  NoDup (map (fun r => (ticker r, timestamp r)) l) ->
  l = l'.
Proof.
  intros Hs. revert l'. induction Hs as [|x l Hs IH Hx]; intros l' Hs' Hp Hn.
  - apply Permutation_nil in Hp. now subst.
  - destruct l' as [|y l']; [apply Permutation_sym, Permutation_nil in Hp; discriminate|].
    inversion Hs' as [|? ? Hs'' Hy]; subst.
    inversion Hn as [|? ? Hnx Hnl]; subst.
    assert (E : x = y).
    { assert (Hxin : In x (y :: l')) by (apply (Permutation_in _ Hp); now left).
      assert (Hyin : In y (x :: l))
        by (apply (Permutation_in _ (Permutation_sym Hp)); now left).
      destruct Hxin as [E|Hxin]; [now symmetry|].
      destruct Hyin as [E|Hyin]; [exact E|].
      rewrite Forall_forall in Hx, Hy.
      destruct (key_le_antisym x y (Hx y Hyin) (Hy x Hxin)) as [E1 E2].
      exfalso. apply Hnx. apply in_map_iff. exists y. split; [|exact Hyin].
      now rewrite E1, E2. }
    subst y. f_equal. apply IH; auto.
    now apply Permutation_cons_inv with x.
Qed.

Lemma sort_perm_eq (df df' : list R) :
  Permutation df df' ->
  NoDup (map (fun r => (ticker r, timestamp r)) df) ->
  Polars.sort df = Polars.sort df'.
Proof.
  intros Hp Hn. apply sorted_perm_eq; try apply sort_sorted.
  - rewrite (sort_perm df), Hp. symmetry. apply sort_perm.
  - apply (Permutation_NoDup (l := map (fun r => (ticker r, timestamp r)) df));
      [|exact Hn].
    apply Permutation_map. symmetry. apply sort_perm.
Qed.
End SortedUnique.

(** X7.  The order of the rows of the input does not matter, as long as no
    two of them share a ticker and a timestamp: [preprocess_data] returns
    the same table for two frames with the same rows in another order. *)
Theorem preprocess_order_independent (df df' : list Bar)
        (min_samples_per_ticker : Z) :
  Permutation df df' ->
  NoDup (map (fun b => (TICKER b, TIMESTAMP b)) df) ->
  Preprocess.preprocess_data df min_samples_per_ticker
  = Preprocess.preprocess_data df' min_samples_per_ticker.
Proof.
  intros Hp Hn. set (m := min_samples_per_ticker).
  assert (Hf : Permutation (Preprocess.filter_tickers df m)
                           (Preprocess.filter_tickers df' m)).
  { rewrite !filter_tickers_eq.
    rewrite (filter_ext (fun r => n_rows df (TICKER r) >? m)
                        (fun r => n_rows df' (TICKER r) >? m))
      by (intros r; now rewrite (n_rows_perm df df' _ Hp)).
    now apply perm_filter. }
  assert (Hs : Polars.sort (Preprocess.filter_tickers df m)
               = Polars.sort (Preprocess.filter_tickers df' m)).
  { apply sort_perm_eq; [exact Hf|].
    rewrite filter_tickers_eq.
    apply (NoDup_map_filter (fun r : Bar => (ticker r, timestamp r))). exact Hn. }
  unfold Preprocess.preprocess_data, Preprocess.delta_check, Preprocess.with_delta.
  fold m. rewrite Hs. reflexivity.
Qed.

(** [preprocess_order_independent] on [Examples.two_tickers] and the same
    rows with the first two swapped. *)
Lemma preprocess_order_independent_witness :
  Preprocess.preprocess_data Examples.two_tickers 2
  = Preprocess.preprocess_data
      (Examples.bar_at "BBB" 0 (F64.of_Z 0)
       :: Examples.bar_at "AAA" 0 (F64.of_Z 100)
       :: skipn 2 Examples.two_tickers) 2.
Proof.
  refine (preprocess_order_independent Examples.two_tickers _ 2
            (perm_swap _ _ _) _).
  repeat (constructor;
          [ cbn; intros Hin;
            repeat (destruct Hin as [Hin|Hin]; [discriminate Hin|]);
            exact Hin | ]).
  constructor.
Defined.

(* ================================================================== *)
(** ** The [TIMESTAMP] column of [preprocess_data] (step 2) *)

Import Ascii.AsciiSyntax.

Ltac zdiv := Z.div_mod_to_equations; lia.

Lemma digit_cases (d : Z) :
  0 <= d <= 9 ->
  d = 0 \/ d = 1 \/ d = 2 \/ d = 3 \/ d = 4 \/ d = 5 \/ d = 6 \/ d = 7
  \/ d = 8 \/ d = 9.
Proof. lia. Qed.

Lemma digit_value_digit (d : Z) :
  0 <= d <= 9 -> Str.digit_value (Str.digit d) = Some d.
Proof.
  intros Hd. apply digit_cases in Hd.
  repeat (destruct Hd as [->|Hd]; [reflexivity|]). subst d. reflexivity.
Qed.

Lemma digit_not_minus (d : Z) :
  0 <= d <= 9 -> Ascii.eqb (Str.digit d) "-"%char = false.
Proof.
  intros Hd. apply digit_cases in Hd.
  repeat (destruct Hd as [->|Hd]; [reflexivity|]). subst d. reflexivity.
Qed.

Lemma number_digit (acc d : Z) (cs : list Ascii.ascii) :
  0 <= d <= 9 ->
  Str.number acc (Str.digit d :: cs) = Str.number (10 * acc + d) cs.
Proof. intros Hd. cbn [Str.number]. now rewrite digit_value_digit. Qed.

Lemma fixed_zero (k : nat) : fixed k 0 = repeat "0"%char k.
Proof.
  induction k as [|k IH]; [reflexivity|].
  cbn [fixed]. change (0 / 10) with 0. rewrite IH.
  change (Str.digit (0 mod 10)) with "0"%char.
  symmetry. apply repeat_cons.
Qed.

Lemma fixed_length (k : nat) (n : Z) : length (fixed k n) = k.
Proof.
  revert n; induction k as [|k IH]; intros n; [reflexivity|].
  cbn [fixed]. rewrite length_app, IH. simpl. lia.
Qed.

(** The digits of a number with exactly [k + 1] digits. *)
Lemma digits_exact (k : nat) :
  forall fuel n, 10 ^ Z.of_nat k <= n < 10 ^ Z.of_nat (S k) ->
    (k < fuel)%nat -> Str.digits fuel n = fixed (S k) n.
Proof.
  induction k as [|k IH]; intros fuel n Hn Hf;
    (destruct fuel as [|fuel]; [lia|]); cbn [Str.digits].
  - change (10 ^ Z.of_nat 0) with 1 in Hn. change (10 ^ Z.of_nat 1) with 10 in Hn.
    destruct (Z.ltb_spec n 10); [reflexivity|lia].
  - rewrite !Nat2Z.inj_succ, !Z.pow_succ_r in Hn by lia.
    change (fixed (S (S k)) n)
      with (fixed (S k) (n / 10) ++ [Str.digit (n mod 10)]).
    assert (Hp : 0 < 10 ^ Z.of_nat k) by (apply Z.pow_pos_nonneg; lia).
    destruct (Z.ltb_spec n 10); [lia|].
    f_equal. rewrite (IH fuel (n / 10)); [reflexivity| |lia].
    rewrite Nat2Z.inj_succ, Z.pow_succ_r by lia. zdiv.
Qed.

(** The digits of a number with [k + 1] digits at most, filled with zeros
    to [k + 1]. *)
Lemma digits_padded (k : nat) :
  forall fuel n, 0 <= n < 10 ^ Z.of_nat (S k) -> (k < fuel)%nat ->
    repeat "0"%char (S k - length (Str.digits fuel n)) ++ Str.digits fuel n
    = fixed (S k) n.
Proof.
  induction k as [|k IH]; intros fuel n Hn Hf;
    (destruct fuel as [|fuel]; [lia|]); cbn [Str.digits].
  - change (10 ^ Z.of_nat 1) with 10 in Hn.
    destruct (Z.ltb_spec n 10); [reflexivity|lia].
  - rewrite Nat2Z.inj_succ, Z.pow_succ_r in Hn by lia.
    change (fixed (S (S k)) n)
      with (fixed (S k) (n / 10) ++ [Str.digit (n mod 10)]).
    destruct (Z.ltb_spec n 10) as [Hlt|Hge].
    + cbn [app length]. replace (n / 10) with 0 by zdiv.
      rewrite fixed_zero.
      replace (S (S k) - 1)%nat with (S k) by lia. reflexivity.
    + rewrite length_app. cbn [length].
      replace (S (S k) - (length (Str.digits fuel (n / 10)) + 1))%nat
        with (S k - length (Str.digits fuel (n / 10)))%nat by lia.
      rewrite app_assoc. f_equal.
      apply (IH fuel (n / 10)); [|lia]. zdiv.
Qed.

Lemma digits_are_digits (fuel : nat) :
  forall n, 0 <= n ->
    Forall (fun c => Ascii.eqb c "-"%char = false) (Str.digits fuel n).
Proof.
  induction fuel as [|fuel IH]; intros n Hn; cbn [Str.digits]; [constructor|].
  apply Forall_app. split.
  - destruct (n <? 10); [constructor|]. apply IH. zdiv.
  - constructor; [|constructor]. apply digit_not_minus. zdiv.
Qed.

Lemma list_of_append (s1 s2 : string) :
  String.list_ascii_of_string (String.append s1 s2)
  = String.list_ascii_of_string s1 ++ String.list_ascii_of_string s2.
Proof. induction s1 as [|c s1 IH]; simpl; [reflexivity|]. now rewrite IH. Qed.

Lemma length_of_list (cs : list Ascii.ascii) :
  String.length (String.string_of_list_ascii cs) = length cs.
Proof. induction cs as [|c cs IH]; simpl; auto. Qed.

(** [zfill] on a text without a sign. *)
Lemma zfill_unsigned (k : nat) (cs : list Ascii.ascii) :
  Forall (fun c => Ascii.eqb c "-"%char = false) cs ->
  String.list_ascii_of_string (Str.zfill k (String.string_of_list_ascii cs))
  = repeat "0"%char (k - length cs) ++ cs.
Proof.
  intros Hcs. unfold Str.zfill, Str.zeros. rewrite length_of_list.
  destruct cs as [|c cs].
  - cbn [String.string_of_list_ascii].
    rewrite String.list_ascii_of_string_of_list_ascii. now rewrite app_nil_r.
  - cbn [String.string_of_list_ascii].
    inversion Hcs as [|? ? Hc _]; subst. rewrite Hc.
    rewrite list_of_append, String.list_ascii_of_string_of_list_ascii.
    cbn [String.list_ascii_of_string].
    now rewrite String.list_ascii_of_string_of_list_ascii.
Qed.

(** The text step 2 builds, for a date of eight digits and a time of six
    at most. *)
Lemma timestamp_text_list (date time : Z) :
  10000000 <= date < 100000000 -> 0 <= time < 1000000 ->
  String.list_ascii_of_string (Preprocess.timestamp_text date time)
  = fixed 8 date ++ " "%char :: fixed 6 time.
Proof.
  intros Hd Ht. unfold Preprocess.timestamp_text, Str.cast_utf8.
  destruct (Z.ltb_spec date 0); [lia|]. destruct (Z.ltb_spec time 0); [lia|].
  rewrite !list_of_append, String.list_ascii_of_string_of_list_ascii.
  rewrite zfill_unsigned by (apply digits_are_digits; lia).
  rewrite (digits_exact 7) by (cbn; lia).
  rewrite (digits_padded 5) by (cbn; lia).
  rewrite <- app_assoc. reflexivity.
Qed.

Lemma valid_date_bounds (date : Z) :
  valid_date date = true ->
  1000 <= year_of date <= 9999 /\ 1 <= month_of date <= 12
  /\ 1 <= day_of date <= Str.days_in_month (year_of date) (month_of date).
Proof.
  unfold valid_date. rewrite !andb_true_iff, !Z.leb_le. tauto.
Qed.

Lemma valid_time_bounds (time : Z) :
  valid_time time = true ->
  0 <= time /\ hour_of time <= 23 /\ minute_of time <= 59
  /\ second_of time <= 59.
Proof.
  unfold valid_time. rewrite !andb_true_iff, !Z.leb_le. tauto.
Qed.

Lemma timestamp_of_value (date time : Z) :
  valid_date date = true -> valid_time time = true ->
  Preprocess.timestamp_of date time = Some (epoch_us date time).
Proof.
  intros Hd Ht.
  pose proof (valid_date_bounds date Hd) as (Hy & Hm & Hday).
  pose proof (valid_time_bounds time Ht) as (Ht0 & Hh & Hmi & Hs).
  unfold year_of, month_of, day_of in Hy, Hm, Hday.
  unfold hour_of, minute_of, second_of in Hh, Hmi, Hs.
  assert (Hdate : 10000000 <= date < 100000000) by zdiv.
  assert (Htime : 0 <= time < 1000000) by zdiv.
  unfold Preprocess.timestamp_of, Str.strptime.
  rewrite timestamp_text_list by assumption.
  cbn [fixed app].
  rewrite !number_digit by (clear; zdiv).
  cbn [Str.number].
  replace (10 * (10 * (10 * (10 * 0
             + (date / 10 / 10 / 10 / 10 / 10 / 10 / 10) mod 10)
             + (date / 10 / 10 / 10 / 10 / 10 / 10) mod 10)
             + (date / 10 / 10 / 10 / 10 / 10) mod 10)
             + (date / 10 / 10 / 10 / 10) mod 10)
    with (date / 10000) by (clear - Hdate; zdiv).
  replace (10 * (10 * 0 + (date / 10 / 10 / 10) mod 10) + (date / 10 / 10) mod 10)
    with ((date / 100) mod 100) by (clear; zdiv).
  replace (10 * (10 * 0 + (date / 10) mod 10) + date mod 10)
    with (date mod 100) by (clear; zdiv).
  replace (10 * (10 * 0 + (time / 10 / 10 / 10 / 10 / 10) mod 10)
           + (time / 10 / 10 / 10 / 10) mod 10)
    with (time / 10000) by (clear - Htime; zdiv).
  replace (10 * (10 * 0 + (time / 10 / 10 / 10) mod 10) + (time / 10 / 10) mod 10)
    with ((time / 100) mod 100) by (clear; zdiv).
  replace (10 * (10 * 0 + (time / 10) mod 10) + time mod 10)
    with (time mod 100) by (clear; zdiv).
  rewrite Ascii.eqb_refl.
  rewrite (proj2 (Z.leb_le _ _) (proj1 Hm)), (proj2 (Z.leb_le _ _) (proj2 Hm)).
  rewrite (proj2 (Z.leb_le _ _) (proj1 Hday)), (proj2 (Z.leb_le _ _) (proj2 Hday)).
  rewrite (proj2 (Z.leb_le _ _) Hh), (proj2 (Z.leb_le _ _) Hmi),
    (proj2 (Z.leb_le _ _) Hs).
  cbn [andb]. f_equal.
  unfold epoch_us, seconds_of_day, year_of, month_of, day_of, hour_of,
    minute_of, second_of.
  ring.
Qed.

(** *** The calendar *)

Lemma month_cases (m : Z) :
  1 <= m <= 12 ->
  m = 1 \/ m = 2 \/ m = 3 \/ m = 4 \/ m = 5 \/ m = 6 \/ m = 7 \/ m = 8
  \/ m = 9 \/ m = 10 \/ m = 11 \/ m = 12.
Proof. lia. Qed.

Ltac each_month H :=
  apply month_cases in H;
  repeat (destruct H as [H|H]; [subst|]); [..|subst].

Lemma year_step (y : Z) :
  (365 * y + y / 4 - y / 100 + y / 400)
  - (365 * (y - 1) + (y - 1) / 4 - (y - 1) / 100 + (y - 1) / 400)
  = 365 + if Str.is_leap_year y then 1 else 0.
Proof.
  unfold Str.is_leap_year.
  destruct (Z.eqb_spec (y mod 4) 0), (Z.eqb_spec (y mod 100) 0),
    (Z.eqb_spec (y mod 400) 0); cbn [andb orb negb]; zdiv.
Qed.

Lemma days_before_month_value (y m : Z) :
  1 <= m <= 12 ->
  days_before_month y m
  = (if m =? 1 then 0 else if m =? 2 then 31 else if m =? 3 then 59
     else if m =? 4 then 90 else if m =? 5 then 120 else if m =? 6 then 151
     else if m =? 7 then 181 else if m =? 8 then 212 else if m =? 9 then 243
     else if m =? 10 then 273 else if m =? 11 then 304 else 334)
    + (if (3 <=? m) && Str.is_leap_year y then 1 else 0).
Proof.
  intros Hm. unfold days_before_month, Str.days_in_month.
  generalize (Str.is_leap_year y). intros leap.
  each_month Hm; destruct leap; reflexivity.
Qed.

(** [days_from_civil] counts the days of a year one by one, from the
    first of January. *)
Lemma days_from_civil_offset (y m d : Z) :
  1 <= m <= 12 ->
  Str.days_from_civil y m d
  = Str.days_from_civil y 1 1 + days_before_month y m + d - 1.
Proof.
  intros Hm. rewrite days_before_month_value by exact Hm.
  pose proof (year_step y) as HY.
  unfold Str.days_from_civil.
  destruct (Str.is_leap_year y);
    each_month Hm;
    repeat match goal with
           | |- context [Z.leb ?a ?b] =>
               let v := eval vm_compute in (Z.leb a b) in
               change (Z.leb a b) with v
           | |- context [Z.eqb ?a ?b] =>
               let v := eval vm_compute in (Z.eqb a b) in
               change (Z.eqb a b) with v
           end;
    cbv beta iota zeta; cbn [andb]; zdiv.
Qed.

Lemma days_from_civil_new_year (y : Z) :
  Str.days_from_civil (y + 1) 1 1
  = Str.days_from_civil y 1 1 + 365 + if Str.is_leap_year y then 1 else 0.
Proof.
  pose proof (year_step y) as HY. unfold Str.days_from_civil.
  change (1 <=? 2) with true. cbv beta iota zeta.
  replace (y + 1 - 1) with y by lia.
  destruct (Str.is_leap_year y); zdiv.
Qed.

Lemma days_from_civil_years (y y' : Z) :
  y <= y' -> Str.days_from_civil y 1 1 <= Str.days_from_civil y' 1 1.
Proof.
  intros Hy. unfold Str.days_from_civil.
  change (1 <=? 2) with true. cbv beta iota zeta. zdiv.
Qed.

Ltac eval_tests :=
  repeat match goal with
         | |- context [Z.leb ?a ?b] =>
             let v := eval vm_compute in (Z.leb a b) in
             lazymatch v with
             | true => change (Z.leb a b) with true
             | false => change (Z.leb a b) with false
             end
         | |- context [Z.eqb ?a ?b] =>
             let v := eval vm_compute in (Z.eqb a b) in
             lazymatch v with
             | true => change (Z.eqb a b) with true
             | false => change (Z.eqb a b) with false
             end
         | H : context [Z.eqb ?a ?b] |- _ =>
             let v := eval vm_compute in (Z.eqb a b) in
             lazymatch v with
             | true => change (Z.eqb a b) with true in H
             | false => change (Z.eqb a b) with false in H
             end
         end;
  cbv beta iota zeta in *; cbn [andb orb negb] in *.

Lemma day_of_year_bounds (y m d : Z) :
  1 <= m <= 12 -> 1 <= d <= Str.days_in_month y m ->
  0 <= days_before_month y m + d - 1
    <= 364 + if Str.is_leap_year y then 1 else 0.
Proof.
  intros Hm Hd. rewrite days_before_month_value by exact Hm.
  unfold Str.days_in_month in Hd.
  destruct (Str.is_leap_year y); each_month Hm; eval_tests; lia.
Qed.

Lemma day_of_year_lt (y m d m' d' : Z) :
  1 <= m <= 12 -> 1 <= d <= Str.days_in_month y m ->
  1 <= m' <= 12 -> 1 <= d' ->
  m < m' \/ (m = m' /\ d < d') ->
  days_before_month y m + d < days_before_month y m' + d'.
Proof.
  intros Hm Hd Hm' Hd' Hlt. rewrite !days_before_month_value by assumption.
  unfold Str.days_in_month in Hd.
  destruct (Str.is_leap_year y); each_month Hm; each_month Hm';
    try (exfalso; lia); eval_tests; lia.
Qed.

(** A later day of the calendar is a later day from 1970-01-01. *)
Lemma days_from_civil_lt (y m d y' m' d' : Z) :
  1 <= m <= 12 -> 1 <= d <= Str.days_in_month y m ->
  1 <= m' <= 12 -> 1 <= d' <= Str.days_in_month y' m' ->
  y < y' \/ (y = y' /\ (m < m' \/ (m = m' /\ d < d'))) ->
  Str.days_from_civil y m d < Str.days_from_civil y' m' d'.
Proof.
  intros Hm Hd Hm' Hd' Hlt.
  rewrite (days_from_civil_offset y m d), (days_from_civil_offset y' m' d')
    by assumption.
  pose proof (day_of_year_bounds y m d Hm Hd) as B.
  pose proof (day_of_year_bounds y' m' d' Hm' Hd') as B'.
  destruct Hlt as [Hy|[<- Hlt]].
  - pose proof (days_from_civil_new_year y) as N.
    pose proof (days_from_civil_years (y + 1) y' ltac:(lia)) as M.
    destruct (Str.is_leap_year y); lia.
  - pose proof (day_of_year_lt y m d m' d' Hm Hd Hm' (proj1 Hd') Hlt). lia.
Qed.

(** *** Reading the text back *)

Lemma number_app (acc : Z) (l : list Ascii.ascii) (c : Ascii.ascii) :
  Str.number acc (l ++ [c])
  = match Str.number acc l with
    | Some v => Str.number v [c]
    | None => None
    end.
Proof.
  revert acc; induction l as [|x l IH]; intros acc; cbn [app Str.number].
  - reflexivity.
  - destruct (Str.digit_value x); [apply IH|reflexivity].
Qed.

Lemma number_fixed (k : nat) :
  forall n, 0 <= n < 10 ^ Z.of_nat k -> Str.number 0 (fixed k n) = Some n.
Proof.
  induction k as [|k IH]; intros n Hn.
  - change (10 ^ Z.of_nat 0) with 1 in Hn. cbn. f_equal. lia.
  - rewrite Nat2Z.inj_succ, Z.pow_succ_r in Hn by lia.
    cbn [fixed]. rewrite number_app, IH by zdiv.
    rewrite number_digit by zdiv. cbn [Str.number]. f_equal. zdiv.
Qed.

(** X9.  The text step 2 builds has the width the format of [strptime]
    spells out: for a [DATE] of eight digits and a [TIME] from 0 to 999999
    it is eight digits that spell [DATE], a space, and six digits that
    spell [TIME], with zeros in front where [TIME] has fewer than six
    digits (93000 gives 093000). *)
Theorem timestamp_text_width (date time : Z) :
  10000000 <= date < 100000000 -> 0 <= time < 1000000 ->
  exists d8 t6,
    String.list_ascii_of_string (Preprocess.timestamp_text date time)
    = d8 ++ " "%char :: t6
    /\ length d8 = 8%nat /\ length t6 = 6%nat
    /\ Str.number 0 d8 = Some date /\ Str.number 0 t6 = Some time
    /\ String.length (Preprocess.timestamp_text date time) = 15%nat.
Proof.
  intros Hd Ht. exists (fixed 8 date), (fixed 6 time).
  pose proof (timestamp_text_list date time Hd Ht) as E.
  split; [exact E|]. split; [apply fixed_length|]. split; [apply fixed_length|].
  split; [apply number_fixed; cbn; lia|]. split; [apply number_fixed; cbn; lia|].
  rewrite <- (String.string_of_list_ascii_of_string
                (Preprocess.timestamp_text date time)), E.
  rewrite length_of_list, length_app. cbn [length].
  rewrite !fixed_length. reflexivity.
Qed.

(** [timestamp_text_width] on the fifth of January 2024, half past nine. *)
Lemma timestamp_text_width_witness :
  exists d8 t6,
    String.list_ascii_of_string (Preprocess.timestamp_text 20240105 93000)
    = d8 ++ " "%char :: t6
    /\ length d8 = 8%nat /\ length t6 = 6%nat
    /\ Str.number 0 d8 = Some 20240105 /\ Str.number 0 t6 = Some 93000
    /\ String.length (Preprocess.timestamp_text 20240105 93000) = 15%nat.
Proof.
  exact (timestamp_text_width 20240105 93000 ltac:(lia) ltac:(lia)).
Defined.

Lemma build_timestamp_valid (r : Raw.t) :
  valid_date (Raw.DATE r) = true -> valid_time (Raw.TIME r) = true ->
  Preprocess.build_timestamp r = Some (bar_of r).
Proof.
  intros Hd Ht. unfold Preprocess.build_timestamp.
  now rewrite timestamp_of_value.
Qed.

(** X10.  Step 2 on rows with valid dates and times: every row becomes a
    bar with the ticker, the prices and the volume it has in the file and,
    as [TIMESTAMP], the microseconds from 1970-01-01 00:00:00 to its date
    and time; the rows keep their number and order, and [preprocess_data]
    goes on with these bars. *)
Theorem build_timestamps_valid (rows : list Raw.t) (min_samples_per_ticker : Z) :
  Forall (fun r => valid_date (Raw.DATE r) = true
                   /\ valid_time (Raw.TIME r) = true) rows ->
  Preprocess.build_timestamps rows = Some (map bar_of rows)
  /\ Preprocess.preprocess_rows rows min_samples_per_ticker
     = Some (Preprocess.preprocess_data (map bar_of rows) min_samples_per_ticker).
Proof.
  intros Hv.
  assert (E : Preprocess.build_timestamps rows = Some (map bar_of rows)).
  { induction Hv as [|r rows [Hd Ht] _ IH]; [reflexivity|].
    cbn [Preprocess.build_timestamps map].
    now rewrite build_timestamp_valid, IH. }
  split; [exact E|]. unfold Preprocess.preprocess_rows. now rewrite E.
Qed.

(** *** The day after *)

Lemma days_in_month_bounds (y m : Z) : 28 <= Str.days_in_month y m <= 31.
Proof.
  unfold Str.days_in_month.
  destruct (m =? 2); [destruct (Str.is_leap_year y); lia|].
  destruct ((m =? 4) || (m =? 6) || (m =? 9) || (m =? 11)); lia.
Qed.

Lemma next_day_fields (date : Z) :
  valid_date date = true ->
  let y := year_of date in
  let m := month_of date in
  let d := day_of date in
  (d < Str.days_in_month y m ->
   year_of (next_day date) = y /\ month_of (next_day date) = m
   /\ day_of (next_day date) = d + 1)
  /\ (d = Str.days_in_month y m -> m < 12 ->
      year_of (next_day date) = y /\ month_of (next_day date) = m + 1
      /\ day_of (next_day date) = 1)
  /\ (d = Str.days_in_month y m -> m = 12 ->
      year_of (next_day date) = y + 1 /\ month_of (next_day date) = 1
      /\ day_of (next_day date) = 1).
Proof.
  intros Hv. cbv zeta.
  pose proof (valid_date_bounds date Hv) as (Hy & Hm & Hd).
  pose proof (days_in_month_bounds (year_of date) (month_of date)) as Hb.
  unfold next_day.
  destruct (Z.ltb_spec (day_of date)
                       (Str.days_in_month (year_of date) (month_of date)))
    as [Hlt|Hge];
    [|destruct (Z.ltb_spec (month_of date) 12) as [Hm12|Hm12]];
    (split; [|split]); intros; try lia;
    revert Hy Hm Hd Hb;
    generalize (Str.days_in_month (year_of date) (month_of date));
    unfold year_of, month_of, day_of in *; intros; zdiv.
Qed.

Lemma next_day_valid (date : Z) :
  valid_date date = true -> date < 99991231 ->
  valid_date (next_day date) = true
  /\ Str.days_from_civil (year_of (next_day date)) (month_of (next_day date))
                         (day_of (next_day date))
     = Str.days_from_civil (year_of date) (month_of date) (day_of date) + 1.
Proof.
  intros Hv Hlast.
  pose proof (valid_date_bounds date Hv) as (Hy & Hm & Hd).
  destruct (next_day_fields date Hv) as (F1 & F2 & F3).
  pose proof (days_in_month_bounds (year_of date) (month_of date + 1)) as Hb1.
  pose proof (days_in_month_bounds (year_of date + 1) 1) as Hb2.
  assert (Hy' : month_of date = 12 -> day_of date = 31 -> year_of date < 9999).
  { unfold year_of, month_of, day_of. intros. zdiv. }
  unfold valid_date. rewrite !andb_true_iff, !Z.leb_le.
  destruct (Z.lt_ge_cases (day_of date)
              (Str.days_in_month (year_of date) (month_of date))) as [Hlt|Hge].
  - destruct (F1 Hlt) as (-> & -> & ->).
    split; [repeat split; lia|]. unfold Str.days_from_civil. ring.
  - assert (Hd' : day_of date = Str.days_in_month (year_of date) (month_of date))
      by lia.
    destruct (Z.lt_ge_cases (month_of date) 12) as [Hm12|Hm12].
    + destruct (F2 Hd' Hm12) as (-> & -> & ->).
      split; [repeat split; lia|].
      clear F1 F2 F3 Hy'.
      set (y := year_of date) in *. set (m := month_of date) in *.
      set (d := day_of date) in *. clearbody y m d.
      rewrite (days_from_civil_offset _ (m + 1)) by lia.
      rewrite (days_from_civil_offset _ m) by lia.
      rewrite Hd', !days_before_month_value by lia.
      unfold Str.days_in_month.
      destruct (Str.is_leap_year y);
        each_month Hm; try (exfalso; lia); eval_tests; lia.
    + assert (Em : month_of date = 12) by lia.
      destruct (F3 Hd' Em) as (-> & -> & ->).
      assert (E31 : day_of date = 31) by (rewrite Hd', Em; reflexivity).
      specialize (Hy' Em E31).
      split; [repeat split; lia|].
      rewrite days_from_civil_new_year.
      rewrite (days_from_civil_offset _ (month_of date)) by lia.
      rewrite Em, E31, days_before_month_value by lia.
      eval_tests. destruct (Str.is_leap_year (year_of date)); lia.
Qed.

(** [build_timestamps_valid] on [Examples.raw_morning]. *)
Lemma build_timestamps_valid_witness :
  Preprocess.build_timestamps Examples.raw_morning
  = Some (map bar_of Examples.raw_morning)
  /\ Preprocess.preprocess_rows Examples.raw_morning 2
     = Some (Preprocess.preprocess_data (map bar_of Examples.raw_morning) 2).
Proof.
  refine (build_timestamps_valid Examples.raw_morning 2 _).
  repeat constructor.
Defined.

(** The bars of 09:55 and 10:00 of [Examples.raw_morning] are what
    [preprocess_data] returns of the four: the steps over the full hour are
    steps of five minutes. *)
Example preprocess_rows_morning :
  option_map (map (fun r => (TIMESTAMP (bar r), CLOSE_FWD_1 r)))
             (Preprocess.preprocess_rows Examples.raw_morning 2)
  = Some [ (epoch_us 20240105 95500, Some (F64.of_Z 102));
           (epoch_us 20240105 100000, Some (F64.of_Z 103)) ].
Proof. reflexivity. Qed.

Lemma seconds_of_day_bounds (time : Z) :
  valid_time time = true -> 0 <= seconds_of_day time < 86400.
Proof.
  intros Ht. pose proof (valid_time_bounds time Ht) as (H0 & Hh & Hmi & Hs).
  unfold seconds_of_day, hour_of, minute_of, second_of in *. zdiv.
Qed.

(** X11.  [TIMESTAMP] counts the time that has passed: two times of one
    day get timestamps as many seconds apart as the two times of the clock
    are (09:55:00 and 10:00:00, read from 95500 and 100000, are five
    minutes apart); the same time on the next day of the calendar, over the
    end of a month or a year and over a leap day, is 24 hours later; and
    the first second of 1970 is 0. *)
Theorem timestamp_elapsed_time (date time time' : Z) :
  valid_date date = true -> valid_time time = true ->
  valid_time time' = true -> date < 99991231 ->
  exists ts,
    Preprocess.timestamp_of date time = Some ts
    /\ Preprocess.timestamp_of date time'
       = Some (ts + (seconds_of_day time' - seconds_of_day time) * 1000000)
    /\ Preprocess.timestamp_of (next_day date) time
       = Some (ts + Preprocess.duration_minutes (24 * 60))
    /\ Preprocess.timestamp_of 19700101 0 = Some 0.
Proof.
  intros Hd Ht Ht' Hlast. exists (epoch_us date time).
  destruct (next_day_valid date Hd Hlast) as [Hn En].
  rewrite !timestamp_of_value by assumption.
  split; [reflexivity|]. split; [|split; [|reflexivity]].
  - f_equal. unfold epoch_us. ring.
  - f_equal. unfold epoch_us, Preprocess.duration_minutes. rewrite En. ring.
Qed.

(** [timestamp_elapsed_time] on the last day of February 2024, at 09:55:00
    and 10:00:00. *)
Lemma timestamp_elapsed_time_witness :
  exists ts,
    Preprocess.timestamp_of 20240229 95500 = Some ts
    /\ Preprocess.timestamp_of 20240229 100000
       = Some (ts + (seconds_of_day 100000 - seconds_of_day 95500) * 1000000)
    /\ Preprocess.timestamp_of (next_day 20240229) 95500
       = Some (ts + Preprocess.duration_minutes (24 * 60))
    /\ Preprocess.timestamp_of 19700101 0 = Some 0.
Proof.
  exact (timestamp_elapsed_time 20240229 95500 100000
           eq_refl eq_refl eq_refl ltac:(lia)).
Defined.

Lemma date_fields (date : Z) :
  date = year_of date * 10000 + month_of date * 100 + day_of date
  /\ 0 <= month_of date < 100 /\ 0 <= day_of date < 100.
Proof. unfold year_of, month_of, day_of. zdiv. Qed.

Lemma days_from_civil_date_lt (date date' : Z) :
  valid_date date = true -> valid_date date' = true -> date < date' ->
  Str.days_from_civil (year_of date) (month_of date) (day_of date)
  < Str.days_from_civil (year_of date') (month_of date') (day_of date').
Proof.
  intros Hv Hv' Hlt.
  pose proof (valid_date_bounds date Hv) as (Hy & Hm & Hd).
  pose proof (valid_date_bounds date' Hv') as (Hy' & Hm' & Hd').
  pose proof (date_fields date) as (E & B1 & B2).
  pose proof (date_fields date') as (E' & B1' & B2').
  apply days_from_civil_lt; try assumption. lia.
Qed.

Lemma seconds_of_day_lt (time time' : Z) :
  valid_time time = true -> valid_time time' = true ->
  (time < time' <-> seconds_of_day time < seconds_of_day time').
Proof.
  intros Ht Ht'.
  pose proof (valid_time_bounds time Ht) as (H0 & Hh & Hmi & Hs).
  pose proof (valid_time_bounds time' Ht') as (H0' & Hh' & Hmi' & Hs').
  unfold seconds_of_day, hour_of, minute_of, second_of in *. zdiv.
Qed.

(** X12.  The order of the timestamps is the order of the dates and, on
    one day, of the times: of two rows with valid dates and times, the one
    with the smaller [DATE], or with the same [DATE] and the smaller
    [TIME], has the smaller [TIMESTAMP], and only rows with the same [DATE]
    and [TIME] have the same [TIMESTAMP]. *)
Theorem timestamp_order (date time date' time' : Z) :
  valid_date date = true -> valid_time time = true ->
  valid_date date' = true -> valid_time time' = true ->
  exists ts ts',
    Preprocess.timestamp_of date time = Some ts
    /\ Preprocess.timestamp_of date' time' = Some ts'
    /\ (ts < ts' <-> date < date' \/ (date = date' /\ time < time'))
    /\ (ts = ts' <-> date = date' /\ time = time').
Proof.
  intros Hd Ht Hd' Ht'.
  exists (epoch_us date time), (epoch_us date' time').
  rewrite !timestamp_of_value by assumption.
  split; [reflexivity|]. split; [reflexivity|].
  pose proof (seconds_of_day_bounds time Ht) as B.
  pose proof (seconds_of_day_bounds time' Ht') as B'.
  pose proof (seconds_of_day_lt time time' Ht Ht') as S1.
  pose proof (seconds_of_day_lt time' time Ht' Ht) as S2.
  unfold epoch_us.
  destruct (Z.lt_trichotomy date date') as [Hlt|[Heq|Hgt]].
  - pose proof (days_from_civil_date_lt date date' Hd Hd' Hlt). lia.
  - subst date'. lia.
  - pose proof (days_from_civil_date_lt date' date Hd' Hd Hgt). lia.
Qed.

(** [timestamp_order] on 09:55:00 and 10:00:00 of one day. *)
Lemma timestamp_order_witness :
  exists ts ts',
    Preprocess.timestamp_of 20240105 95500 = Some ts
    /\ Preprocess.timestamp_of 20240105 100000 = Some ts'
    /\ (ts < ts' <-> 20240105 < 20240105 \/ (20240105 = 20240105 /\ 95500 < 100000))
    /\ (ts = ts' <-> 20240105 = 20240105 /\ 95500 = 100000).
Proof.
  exact (timestamp_order 20240105 95500 20240105 100000
           eq_refl eq_refl eq_refl eq_refl).
Defined.

(* ================================================================== *)
(** ** The rows the feature functions return *)







Section Partition.
Context {R : Type}.
Variable key : R -> string.






End Partition.

Section SortedPartition.
Context {R : Type} `{Keyed R}.




End SortedPartition.


Lemma preprocess_key_sorted df m :
  StronglySorted key_le (Preprocess.preprocess_data df m).
Proof.
  assert (Hs : StronglySorted key_le (map bar (Preprocess.preprocess_data df m))).
  { eapply subseq_sorted; [apply preprocess_bars|apply sort_sorted]. }
  apply sorted_map in Hs. exact Hs.
Qed.


(* ================================================================== *)
(** ** The first bar of a ticker in [add_macd] *)

Lemma sub_self_zero (q : Q) (z : bool) :
  F64.is_zero (F64.Fin q z - F64.Fin q z)%f64 = true.
Proof.
  cbn. unfold F64.is0. apply Qeq_bool_iff. apply Qplus_opp_r.
Qed.

(** X15.  At the first bar of every ticker, MACD, its signal line and the
    histogram are zero, whatever the three spans: both EMA chains start
    from the price of that bar, and the chain of the signal line from their
    difference.  (The price has to be a finite number.) *)
Theorem macd_first_bar {R : Type} `{Keyed R} (df : list R) (column : R -> f64)
        (short_span long_span signal_span : Z) (tk : string) (r : Macd R) :
  nth_error
    (Polars.group (fun r : Macd R => ticker (macd_row r)) tk
       (Features.add_macd df column short_span long_span signal_span)) 0
  = Some r ->
  F64.is_finite (column (macd_row r)) = true ->
  exists m h,
    MACD r = Some m /\ MACD_SIGNAL r = Some m /\ MACD_HIST r = Some h
    /\ F64.is_zero m = true /\ F64.is_zero h = true.
Proof.
  intros Hn Hf. rewrite add_macd_group in Hn. cbv zeta in Hn.
  destruct (Polars.group ticker tk (Polars.sort df)) as [|x0 rest];
    [discriminate|].
  cbn [map ema_chain combine nth_error fst snd] in Hn.
  injection Hn as <-. cbn [macd_row MACD MACD_SIGNAL MACD_HIST] in *.
  destruct (column x0) as [| |q z]; try discriminate.
  eexists. eexists. split; [reflexivity|]. split; [reflexivity|].
  split; [reflexivity|]. split; [apply sub_self_zero|].
  destruct (sub_fin q z q z) as (z' & ->). apply sub_self_zero.
Qed.

(** [macd_first_bar] on the ticker AAA of [Examples.two_tickers], with the
    usual spans 12, 26 and 9. *)
Lemma macd_first_bar_witness :
  exists r,
    nth_error
      (Polars.group (fun r : Macd Bar => ticker (macd_row r)) "AAA"
         (Features.add_macd Examples.two_tickers CLOSE 12 26 9)) 0
    = Some r
    /\ exists m h,
         MACD r = Some m /\ MACD_SIGNAL r = Some m /\ MACD_HIST r = Some h
         /\ F64.is_zero m = true /\ F64.is_zero h = true.
Proof.
  eexists. split; [reflexivity|].
  exact (macd_first_bar Examples.two_tickers CLOSE 12 26 9 "AAA" _
           eq_refl eq_refl).
Defined.

(* ================================================================== *)
(** ** The order of the Bollinger bands *)

Lemma fold_add_finite (xs : list f64) :
  forall acc, F64.is_finite acc = true ->
    Forall (fun x => F64.is_finite x = true) xs ->
    F64.is_finite (fold_left F64.add xs acc) = true.
Proof.
  induction xs as [|x xs IH]; intros acc Ha Hx; [exact Ha|].
  inversion Hx as [|? ? Hx0 Hxs]; subst. cbn [fold_left]. apply IH; auto.
  destruct acc as [| |p z]; try discriminate.
  destruct x as [| |q z']; try discriminate. reflexivity.
Qed.

Lemma fold_add_nonneg (xs : list f64) :
  forall acc, fin_nonneg acc -> Forall fin_nonneg xs ->
    fin_nonneg (fold_left F64.add xs acc).
Proof.
  induction xs as [|x xs IH]; intros acc Ha Hx; [exact Ha|].
  inversion Hx as [|? ? Hx0 Hxs]; subst. cbn [fold_left]. apply IH; auto.
  destruct acc as [| |p z]; try contradiction.
  destruct x as [| |q z']; try contradiction.
  cbn in *. lra.
Qed.

Lemma is0_of_pos (n : Z) : 0 < n -> F64.is0 (inject_Z n) = false.
Proof.
  intros Hn. apply is0_false_pos.
  change 0%Q with (inject_Z 0). rewrite <- Zlt_Qlt. exact Hn.
Qed.

Lemma mean_finite (vals : list f64) :
  vals <> [] -> Forall (fun x => F64.is_finite x = true) vals ->
  F64.is_finite (Polars.mean vals) = true.
Proof.
  intros Hne Hf. unfold Polars.mean, F64.sum.
  pose proof (fold_add_finite vals (F64.of_Z 0) eq_refl Hf) as Hs.
  destruct (fold_left F64.add vals (F64.of_Z 0)) as [| |s zs]; try discriminate.
  unfold F64.of_nat, F64.of_Z.
  destruct (div_fin s zs (inject_Z (Z.of_nat (length vals))) false) as (z & ->);
    [|reflexivity].
  apply is0_of_pos. destruct vals; [contradiction|simpl; lia].
Qed.

Lemma sqrt_nonneg (x : f64) : fin_nonneg x -> fin_nonneg (F64.sqrt x).
Proof.
  destruct x as [| |q z]; try contradiction. cbn [fin_nonneg F64.sqrt].
  intros Hq. destruct (F64.is0 q); [cbn; lra|].
  destruct (F64.Qltb q 0) eqn:E.
  - apply Qltb_lt in E. lra.
  - destruct (Z.sqrt (Qnum q * Z.pos (Qden q)) * Z.sqrt (Qnum q * Z.pos (Qden q))
              =? Qnum q * Z.pos (Qden q));
      cbn [fin_nonneg]; unfold Qle; cbn [Qnum Qden];
      rewrite Z.mul_0_l, Z.mul_1_r; apply Z.sqrt_nonneg.
Qed.

Lemma std_nonneg (vals : list f64) :
  (2 <= length vals)%nat -> Forall (fun x => F64.is_finite x = true) vals ->
  fin_nonneg (Polars.std vals).
Proof.
  intros Hlen Hf. unfold Polars.std. cbv zeta. apply sqrt_nonneg.
  assert (Hm : F64.is_finite (Polars.mean vals) = true)
    by (apply mean_finite; [destruct vals; [simpl in Hlen; lia|discriminate]|exact Hf]).
  destruct (Polars.mean vals) as [| |m zm]; try discriminate.
  assert (Hsq : Forall fin_nonneg
                  (map (fun x => ((x - F64.Fin m zm) * (x - F64.Fin m zm))%f64) vals)).
  { apply Forall_map. eapply Forall_impl; [|exact Hf].
    intros [| |q z] Hq; try discriminate.
    destruct (sub_fin q z m zm) as (z1 & ->).
    destruct (mul_fin (q + - m) z1 (q + - m) z1) as (z2 & ->).
    cbn [fin_nonneg]. generalize (q + - m)%Q. intros d. nra. }
  pose proof (fold_add_nonneg _ (F64.of_Z 0) (Qle_refl 0) Hsq) as Hs.
  unfold F64.sum.
  destruct (fold_left F64.add _ (F64.of_Z 0)) as [| |s zs]; try contradiction.
  unfold F64.of_Z.
  assert (Hpos : 0 < Z.of_nat (length vals) - 1) by lia.
  destruct (div_fin s zs (inject_Z (Z.of_nat (length vals) - 1)) false
                    (is0_of_pos _ Hpos)) as (z & ->).
  cbn [fin_nonneg] in *. apply Qdiv_nonneg; [exact Hs|].
  change 0%Q with (inject_Z 0). rewrite <- Zlt_Qlt. exact Hpos.
Qed.

Lemma leb_fin (a b : Q) (z z' : bool) :
  (a <= b)%Q -> F64.leb (F64.Fin a z) (F64.Fin b z') = true.
Proof.
  intros Hle. unfold F64.leb. cbn [F64.ltb F64.eqb].
  apply Qle_lteq in Hle. destruct Hle as [Hlt|Heq].
  - apply Qltb_lt in Hlt. now rewrite Hlt.
  - apply Qeq_bool_iff in Heq. rewrite Heq. apply orb_true_r.
Qed.

Lemma window_at_incl {A} (w : Z) (i : nat) (l : list A) (x : A) :
  In x (Polars.window_at w i l) -> In x l.
Proof.
  unfold Polars.window_at. intros Hin.
  rewrite <- (firstn_skipn (S i) l). apply in_or_app. left.
  rewrite <- (firstn_skipn (S i - Z.to_nat w) (firstn (S i) l)).
  apply in_or_app. now right.
Qed.

(** X16.  With a factor [k] that is not negative, the lower band is not
    above the middle band and the middle band not above the upper one, at
    every row where they have values (from the [window]-th bar of a ticker
    on, for a window of two bars or more and finite prices). *)
Theorem bollinger_bands_ordered {R : Type} `{Keyed R} (df : list R)
        (price_col : R -> f64) (window : Z) (k : f64) (tk : string)
        (t : nat) (r : Bollinger R) :
  2 <= window -> fin_nonneg k ->
  Forall (fun x => F64.is_finite (price_col x) = true)
         (Polars.group ticker tk (Polars.sort df)) ->
  nth_error
    (Polars.group (fun r : Bollinger R => ticker (bb_row r)) tk
       (Features.add_bollinger_bands df price_col window k)) t = Some r ->
  window <= Z.of_nat t + 1 ->
  exists lo mid up,
    BB_LOWER r = Some lo /\ BB_MID r = Some mid /\ BB_UPPER r = Some up
    /\ F64.leb lo mid = true /\ F64.leb mid up = true.
Proof.
  intros Hw Hk Hf Hn Ht.
  destruct (bollinger_cells df price_col window k tk ltac:(lia)) as [Hrows Hcells].
  cbv zeta in Hrows, Hcells.
  destruct (Hcells t r Hn) as [_ Hvals].
  destruct (Hvals Ht) as (Em & Eu & El).
  set (part := Polars.group ticker tk (Polars.sort df)) in *.
  set (xs := map price_col (Polars.window_at window t part)) in *.
  assert (Htl : (t < length part)%nat).
  { rewrite <- Hrows, length_map. apply nth_error_Some. congruence. }
  assert (Hlen : (2 <= length xs)%nat).
  { unfold xs. rewrite length_map.
    pose proof (window_at_length window t part ltac:(lia) Htl). lia. }
  assert (Hxs : Forall (fun x => F64.is_finite x = true) xs).
  { unfold xs. apply Forall_map. apply Forall_forall. intros x Hx.
    apply window_at_incl in Hx. rewrite Forall_forall in Hf. now apply Hf. }
  assert (Hmean : F64.is_finite (Polars.mean xs) = true)
    by (apply mean_finite; [destruct xs; [simpl in Hlen; lia|discriminate]|exact Hxs]).
  pose proof (std_nonneg xs Hlen Hxs) as Hstd.
  exists (Polars.mean xs - k * Polars.std xs)%f64, (Polars.mean xs),
    (Polars.mean xs + k * Polars.std xs)%f64.
  split; [exact El|]. split; [exact Em|]. split; [exact Eu|].
  destruct (Polars.mean xs) as [| |m zm]; try discriminate.
  destruct (Polars.std xs) as [| |s zs]; try contradiction.
  destruct k as [| |kq kz]; try contradiction.
  cbn [fin_nonneg] in Hstd, Hk.
  destruct (mul_fin kq kz s zs) as (z1 & ->).
  destruct (sub_fin m zm (kq * s) z1) as (z2 & ->).
  destruct (add_fin m zm (kq * s) z1) as (z3 & ->).
  pose proof (Qmult_le_0_compat kq s Hk Hstd) as Hp.
  split; apply leb_fin; lra.
Qed.

(** [bollinger_bands_ordered] on the second bar of the ticker AAA of
    [Examples.two_tickers], with a window of two bars and [k = 2]. *)
Lemma bollinger_bands_ordered_witness :
  exists r,
    nth_error
      (Polars.group (fun r : Bollinger Bar => ticker (bb_row r)) "AAA"
         (Features.add_bollinger_bands Examples.two_tickers CLOSE 2 (F64.of_Z 2)))
      1 = Some r
    /\ exists lo mid up,
         BB_LOWER r = Some lo /\ BB_MID r = Some mid /\ BB_UPPER r = Some up
         /\ F64.leb lo mid = true /\ F64.leb mid up = true.
Proof.
  eexists. split; [vm_compute; reflexivity|].
  refine (bollinger_bands_ordered Examples.two_tickers CLOSE 2 (F64.of_Z 2)
            "AAA" 1 _ ltac:(lia) _ _ eq_refl ltac:(lia)).
  - unfold fin_nonneg, F64.of_Z, Qle. simpl. lia.
  - repeat constructor.
Defined.

(* ================================================================== *)
(** ** The RSI of prices that move one way *)

Lemma ewm_update_fin (a w c : Q) (za zw zc : bool) :
  (0 < a)%Q -> (a <= 1)%Q ->
  exists z,
    ((F64.of_Z 1 * (F64.of_Z 1 - F64.Fin a za) * F64.Fin w zw
      + F64.Fin a za * F64.Fin c zc)
     / (F64.of_Z 1 * (F64.of_Z 1 - F64.Fin a za) + F64.Fin a za))%f64
    = F64.Fin ((1 * (1 + - a) * w + a * c) / (1 * (1 + - a) + a)) z.
Proof.
  intros Ha Ha1. unfold F64.of_Z.
  destruct (sub_fin (inject_Z 1) false a za) as (z1 & ->).
  destruct (mul_fin (inject_Z 1) false (inject_Z 1 + - a) z1) as (z2 & ->).
  destruct (mul_fin (inject_Z 1 * (inject_Z 1 + - a)) z2 w zw) as (z3 & ->).
  destruct (mul_fin a za c zc) as (z4 & ->).
  destruct (add_fin (inject_Z 1 * (inject_Z 1 + - a) * w) z3 (a * c) z4) as (z5 & ->).
  destruct (add_fin (inject_Z 1 * (inject_Z 1 + - a)) z2 a za) as (z6 & ->).
  change (inject_Z 1) with 1%Q.
  assert (Hden : (0 < 1 * (1 + - a) + a)%Q) by lra.
  destruct (div_fin (1 * (1 + - a) * w + a * c) z5 (1 * (1 + - a) + a) z6
                    (is0_false_pos _ Hden)) as (z7 & ->).
  now exists z7.
Qed.

Section EwmInvariant.
Variable P : Q -> Prop.
Hypothesis P_update :
  forall a w c, (0 < a)%Q -> (a <= 1)%Q -> P w -> P c ->
    P ((1 * (1 + - a) * w + a * c) / (1 * (1 + - a) + a))%Q.

(** A property of finite numbers that the update of the average keeps
    holds of the whole chain. *)
Lemma ewm_loop_inv (span : Z) :
  1 <= span ->
  forall (vals : list f64) (weighted : f64) (nobs : nat),
    Forall (finQ P) vals -> finQ P weighted -> (1 <= nobs)%nat ->
    Forall (finQ P) (Pandas.ewm_loop span weighted (F64.of_Z 1) nobs vals).
Proof.
  intros Hs. destruct (pandas_alpha_fin span Hs) as (a & za & Ea & Ha & Ha1).
  induction vals as [|cur vals IH]; intros weighted nobs Hv Hw Hn;
    [constructor|].
  inversion Hv as [|? ? Hcur Hrest]; subst.
  destruct weighted as [| |w zw]; try contradiction.
  destruct cur as [| |c zc]; try contradiction.
  cbn [finQ] in Hw, Hcur.
  cbn [Pandas.ewm_loop].
  rewrite !eqb_self. cbn [F64.is_nan negb fst snd].
  assert (Hn' : (Pandas.minp <=? nobs + 1)%nat = true)
    by (apply Nat.leb_le; unfold Pandas.minp; lia).
  rewrite Hn'.
  assert (Hnew : finQ P
                   (if F64.neqb (F64.Fin w zw) (F64.Fin c zc)
                    then ((F64.of_Z 1 * Pandas.old_wt_factor span * F64.Fin w zw
                           + Pandas.new_wt span * F64.Fin c zc)
                          / (F64.of_Z 1 * Pandas.old_wt_factor span
                             + Pandas.new_wt span))%f64
                    else F64.Fin w zw)).
  { destruct (F64.neqb (F64.Fin w zw) (F64.Fin c zc)); [|exact Hw].
    unfold Pandas.old_wt_factor, Pandas.new_wt. rewrite Ea.
    destruct (ewm_update_fin a w c za zw zc Ha Ha1) as (z & ->).
    cbn [finQ]. now apply P_update. }
  constructor; [exact Hnew|].
  apply IH; auto. lia.
Qed.

Lemma ewm_mean_inv (span : Z) (vals : list f64) :
  1 <= span -> Forall (finQ P) vals ->
  Forall (finQ P) (Pandas.ewm_mean span vals).
Proof.
  intros Hs Hv. destruct vals as [|x vals]; [constructor|].
  inversion Hv as [|? ? Hx Hrest]; subst.
  destruct x as [| |q z]; try contradiction.
  cbn [Pandas.ewm_mean]. rewrite eqb_self. cbn [F64.is_nan negb].
  change (Pandas.minp <=? 1)%nat with true. cbv iota.
  constructor; [exact Hx|]. apply ewm_loop_inv; auto.
Qed.
End EwmInvariant.

Lemma update_pos (a w c : Q) :
  (0 < a)%Q -> (a <= 1)%Q -> (0 < w)%Q -> (0 < c)%Q ->
  (0 < (1 * (1 + - a) * w + a * c) / (1 * (1 + - a) + a))%Q.
Proof.
  intros Ha Ha1 Hw Hc. apply Qlt_shift_div_l; [lra|].
  assert (H1 : (0 <= (1 + - a) * w)%Q) by (apply Qmult_le_0_compat; lra).
  assert (H2 : (0 < a * c)%Q) by (now apply Qmult_lt_0_compat).
  lra.
Qed.

Lemma update_zero (a w c : Q) :
  (0 < a)%Q -> (a <= 1)%Q -> (w == 0)%Q -> (c == 0)%Q ->
  ((1 * (1 + - a) * w + a * c) / (1 * (1 + - a) + a) == 0)%Q.
Proof.
  intros Ha Ha1 Hw Hc. rewrite Hw, Hc. unfold Qdiv. ring.
Qed.

(** The differences of a series, from the steps between its cells. *)
Lemma diff_from_steps (P : Q -> Prop) (xs : list f64) :
  forall prev,
    (forall i u v, nth_error (prev :: xs) i = Some u ->
                   nth_error (prev :: xs) (S i) = Some v ->
                   finQ P (v - u)%f64) ->
    Forall (finQ P) (Pandas.diff_from prev xs).
Proof.
  induction xs as [|x xs IH]; intros prev Hstep; [constructor|].
  cbn [Pandas.diff_from]. constructor.
  - exact (Hstep 0%nat prev x eq_refl eq_refl).
  - apply IH. intros i u v Hu Hv. exact (Hstep (S i) u v Hu Hv).
Qed.

(** Gain and loss of a price difference that is not NaN. *)
Lemma gain_loss_cell (q : Q) (z : bool) :
  exists g zg l zl,
    (if F64.is_nan (F64.Fin q z) || F64.geb (F64.Fin q z) (F64.of_Z 0)
     then F64.Fin q z else F64.of_Z 0) = F64.Fin g zg
    /\ F64.opp (if F64.is_nan (F64.Fin q z) || F64.leb (F64.Fin q z) (F64.of_Z 0)
                then F64.Fin q z else F64.of_Z 0) = F64.Fin l zl
    /\ ((0 < q)%Q -> (g == q)%Q /\ (l == 0)%Q)
    /\ ((q < 0)%Q -> (g == 0)%Q /\ (l == - q)%Q)
    /\ ((q == 0)%Q -> (g == 0)%Q /\ (l == 0)%Q).
Proof.
  unfold F64.geb, F64.leb. cbn [F64.is_nan orb F64.ltb F64.eqb F64.of_Z].
  change (inject_Z 0) with 0%Q.
  destruct (F64.Qltb 0 q) eqn:E1; destruct (F64.Qltb q 0) eqn:E2;
    destruct (Qeq_bool 0 q) eqn:E3; destruct (Qeq_bool q 0) eqn:E4;
    cbn [orb F64.opp];
    try apply Qltb_lt in E1; try apply Qltb_lt in E2;
    try apply Qeq_bool_iff in E3; try apply Qeq_bool_iff in E4;
    try (exfalso; lra);
    do 4 eexists; (split; [reflexivity|]); (split; [reflexivity|]);
    repeat split; intros; try lra;
    try (exfalso;
         assert (Hq3 : ~ (0 == q)%Q)
           by (intros Hc; apply Qeq_bool_iff in Hc; congruence);
         assert (Hq4 : ~ (q == 0)%Q)
           by (intros Hc; apply Qeq_bool_iff in Hc; congruence);
         try (apply Hq4; lra); try (apply Hq3; lra);
         assert (Hn1 : ~ (0 < q)%Q)
           by (intros Hc; apply Qltb_lt in Hc; congruence);
         assert (Hn2 : ~ (q < 0)%Q)
           by (intros Hc; apply Qltb_lt in Hc; congruence);
         lra).
Qed.

Lemma gains_losses (ds : list f64) :
  (Forall (finQ (fun q => 0 < q)%Q) ds ->
   Forall (finQ (fun q => 0 < q)%Q) (Pandas.clip_lower (F64.of_Z 0) ds)
   /\ Forall (finQ (fun q => q == 0)%Q)
             (map F64.opp (Pandas.clip_upper (F64.of_Z 0) ds)))
  /\ (Forall (finQ (fun q => q < 0)%Q) ds ->
      Forall (finQ (fun q => q == 0)%Q) (Pandas.clip_lower (F64.of_Z 0) ds)
      /\ Forall (finQ (fun q => 0 < q)%Q)
                (map F64.opp (Pandas.clip_upper (F64.of_Z 0) ds)))
  /\ (Forall (finQ (fun q => q == 0)%Q) ds ->
      Forall (finQ (fun q => q == 0)%Q) (Pandas.clip_lower (F64.of_Z 0) ds)
      /\ Forall (finQ (fun q => q == 0)%Q)
                (map F64.opp (Pandas.clip_upper (F64.of_Z 0) ds))).
Proof.
  unfold Pandas.clip_lower, Pandas.clip_upper.
  split; [|split]; intros Hd; induction Hd as [|x ds Hx _ [IHg IHl]];
    try (split; cbn [map]; solve [constructor]);
    destruct x as [| |q z]; try contradiction; cbn [finQ] in Hx;
    destruct (gain_loss_cell q z) as (g & zg & l & zl & Eg & El & Hpos & Hneg & Hzero);
    cbn [map]; rewrite Eg, El; split; constructor; auto; cbn [finQ].
  - destruct (Hpos Hx) as [-> _]. exact Hx.
  - destruct (Hpos Hx) as [_ ->]. reflexivity.
  - destruct (Hneg Hx) as [-> _]. reflexivity.
  - destruct (Hneg Hx) as [_ ->]. lra.
  - destruct (Hzero Hx) as [-> _]. reflexivity.
  - destruct (Hzero Hx) as [_ ->]. reflexivity.
Qed.

Lemma rsi_value_all_loss (g l : f64) :
  finQ (fun q => q == 0)%Q g -> finQ (fun q => 0 < q)%Q l ->
  exists x, Pandas.nan_to_null (Features.rsi_value (g / l)%f64) = Some x
            /\ F64.is_zero x = true.
Proof.
  destruct g as [| |gq zg]; try contradiction.
  destruct l as [| |lq zl]; try contradiction.
  cbn [finQ]. intros Hg Hl. unfold Features.rsi_value, F64.of_Z.
  destruct (div_fin gq zg lq zl (is0_false_pos _ Hl)) as (z1 & ->).
  destruct (add_fin (inject_Z 1) false (gq / lq) z1) as (z2 & ->).
  assert (E0 : (gq / lq == 0)%Q) by (rewrite Hg; unfold Qdiv; ring).
  assert (Hden : (0 < inject_Z 1 + gq / lq)%Q)
    by (rewrite E0; reflexivity).
  destruct (div_fin (inject_Z 100) false (inject_Z 1 + gq / lq) z2
                    (is0_false_pos _ Hden)) as (z3 & ->).
  destruct (sub_fin (inject_Z 100) false (inject_Z 100 / (inject_Z 1 + gq / lq)) z3)
    as (z4 & ->).
  eexists. split; [reflexivity|].
  cbn [F64.is_zero]. unfold F64.is0. apply Qeq_bool_iff.
  rewrite E0. reflexivity.
Qed.

Lemma finQ_zero_is_zero (x : f64) :
  finQ (fun q => q == 0)%Q x -> F64.is_zero x = true.
Proof.
  destruct x as [| |q z]; try contradiction. cbn [finQ F64.is_zero].
  intros Hq. unfold F64.is0. now apply Qeq_bool_iff.
Qed.

Lemma finQ_pos_above_zero (x : f64) :
  finQ (fun q => 0 < q)%Q x -> F64.ltb (F64.of_Z 0) x = true.
Proof.
  destruct x as [| |q z]; try contradiction. cbn [finQ F64.ltb F64.of_Z].
  intros Hq. apply Qltb_lt. exact Hq.
Qed.

Lemma price_steps {R : Type} (price_col : R -> f64) (P : Q -> Prop)
      (rel : f64 -> f64 -> bool) (r0 : R) (rest : list R) :
  (forall p zp q zq, rel (F64.Fin p zp) (F64.Fin q zq) = true -> P (q + - p)%Q) ->
  Forall (fun r => F64.is_finite (price_col r) = true) (r0 :: rest) ->
  (forall i a b, nth_error (r0 :: rest) i = Some a ->
                 nth_error (r0 :: rest) (S i) = Some b ->
                 rel (price_col a) (price_col b) = true) ->
  Forall (finQ P) (Pandas.diff_from (price_col r0) (map price_col rest)).
Proof.
  intros Hrel Hf Hstep. apply diff_from_steps. intros i u v Hu Hv.
  change (price_col r0 :: map price_col rest)
    with (map price_col (r0 :: rest)) in Hu, Hv.
  rewrite nth_error_map in Hu, Hv.
  destruct (nth_error (r0 :: rest) i) as [a|] eqn:Ea; [|discriminate].
  destruct (nth_error (r0 :: rest) (S i)) as [b|] eqn:Eb; [|discriminate].
  cbn [option_map] in Hu, Hv. injection Hu as <-. injection Hv as <-.
  rewrite Forall_forall in Hf.
  pose proof (Hf a (nth_error_In _ _ Ea)) as Fa.
  pose proof (Hf b (nth_error_In _ _ Eb)) as Fb.
  specialize (Hstep i a b Ea Eb).
  destruct (price_col a) as [| |p zp]; try discriminate.
  destruct (price_col b) as [| |q zq]; try discriminate.
  destruct (sub_fin q zq p zp) as (z & ->). cbn [finQ].
  now apply (Hrel p zp q zq).
Qed.

(** The RSI cell of a later row of a batch, from the averages over the
    gains and the losses after the first row. *)
Lemma rsi_later_cell {R : Type} (price_col : R -> f64) (window : Z)
      (r0 : R) (rest : list R) (t : nat) (r : R) (v : option f64) :
  let ds := Pandas.diff_from (price_col r0) (map price_col rest) in
  nth_error (Features._rsi_per_ticker price_col window (r0 :: rest)) (S t)
  = Some (r, v) ->
  exists g l,
    nth_error (Pandas.ewm_mean window (Pandas.clip_lower (F64.of_Z 0) ds)) t
    = Some g
    /\ nth_error (Pandas.ewm_mean window
                    (map F64.opp (Pandas.clip_upper (F64.of_Z 0) ds))) t
       = Some l
    /\ v = Pandas.nan_to_null (Features.rsi_value (g / l)%f64).
Proof.
  cbv zeta. intros Hn.
  assert (Hne : r0 :: rest <> []) by discriminate.
  pose proof (rsi_avg_gain_cons price_col window (r0 :: rest) Hne) as EG.
  pose proof (rsi_avg_loss_cons price_col window (r0 :: rest) Hne) as EL.
  rewrite rsi_gain_cons in EG. rewrite rsi_loss_cons in EL. cbn [tl] in EG, EL.
  destruct (rsi_lengths price_col window (r0 :: rest))
    as (_ & _ & _ & Lg & Ll & _ & _).
  assert (Ht : (S t < length (r0 :: rest))%nat).
  { rewrite <- (rsi_per_ticker_rows price_col window (r0 :: rest)), length_map.
    apply nth_error_Some. congruence. }
  destruct (nth_error (Features.rsi_avg_gain price_col window (r0 :: rest)) (S t))
    as [g|] eqn:Eg; [|apply nth_error_None in Eg; lia].
  destruct (nth_error (Features.rsi_avg_loss price_col window (r0 :: rest)) (S t))
    as [l|] eqn:El; [|apply nth_error_None in El; lia].
  destruct (rsi_cell price_col window (r0 :: rest) (S t) g l Eg El)
    as (r' & _ & _ & Hcell).
  rewrite Hcell in Hn. injection Hn as _ <-.
  rewrite EG in Eg. rewrite EL in El. cbn [nth_error] in Eg, El.
  exists g, l. auto.
Qed.

(** X17.  The RSI of prices that move one way, at every row of a ticker
    after its first (which has no value): 100 when every price is above the
    one before, 0 when every price is below the one before, and no value
    (the quotient of two zeros) when every price equals the one before.
    The window is one or more and the prices are finite numbers. *)
Theorem rsi_one_way_prices {R : Type} `{Keyed R} (df : list R)
        (price_col : R -> f64) (window : Z) (tk : string) :
  1 <= window ->
  Forall (fun r => F64.is_finite (price_col r) = true)
         (Polars.group ticker tk df) ->
  let batch := Polars.group ticker tk df in
  let out :=
    Polars.group (fun p : R * option f64 => ticker (fst p)) tk
                 (Features.add_rsi price_col window df) in
  ((forall i a b, nth_error batch i = Some a -> nth_error batch (S i) = Some b ->
                  F64.ltb (price_col a) (price_col b) = true) ->
   forall t r v, nth_error out (S t) = Some (r, v) -> v = Some (F64.of_Z 100))
  /\ ((forall i a b, nth_error batch i = Some a -> nth_error batch (S i) = Some b ->
                     F64.ltb (price_col b) (price_col a) = true) ->
      forall t r v, nth_error out (S t) = Some (r, v) ->
                    exists x, v = Some x /\ F64.is_zero x = true)
  /\ ((forall i a b, nth_error batch i = Some a -> nth_error batch (S i) = Some b ->
                     F64.eqb (price_col a) (price_col b) = true) ->
      forall t r v, nth_error out (S t) = Some (r, v) -> v = None).
Proof.
  intros Hw Hf. cbv zeta. rewrite add_rsi_group.
  destruct (Polars.group ticker tk df) as [|r0 rest].
  { repeat split; intros _ t r v Hn; discriminate Hn. }
  set (ds := Pandas.diff_from (price_col r0) (map price_col rest)).
  split; [|split]; intros Hstep t r v Hn;
    destruct (rsi_later_cell price_col window r0 rest t r v Hn)
      as (g & l & Eg & El & ->); fold ds in Eg, El;
    apply nth_error_In in Eg, El.
  - assert (Hd : Forall (finQ (fun q => 0 < q)%Q) ds).
    { apply (price_steps price_col _ F64.ltb); auto.
      intros p zp q zq E. cbn [F64.ltb] in E. apply Qltb_lt in E. lra. }
    destruct (proj1 (gains_losses ds) Hd) as [HG HL].
    apply (ewm_mean_inv _ update_pos window _ Hw) in HG.
    apply (ewm_mean_inv _ update_zero window _ Hw) in HL.
    rewrite Forall_forall in HG, HL.
    rewrite rsi_value_all_gain;
      [reflexivity|apply finQ_zero_is_zero; auto|apply finQ_pos_above_zero; auto].
  - assert (Hd : Forall (finQ (fun q => q < 0)%Q) ds).
    { apply (price_steps price_col _ (fun u v => F64.ltb v u)); auto.
      intros p zp q zq E. cbn [F64.ltb] in E. apply Qltb_lt in E. lra. }
    destruct (proj1 (proj2 (gains_losses ds)) Hd) as [HG HL].
    apply (ewm_mean_inv _ update_zero window _ Hw) in HG.
    apply (ewm_mean_inv _ update_pos window _ Hw) in HL.
    rewrite Forall_forall in HG, HL.
    apply rsi_value_all_loss; auto.
  - assert (Hd : Forall (finQ (fun q => q == 0)%Q) ds).
    { apply (price_steps price_col _ F64.eqb); auto.
      intros p zp q zq E. cbn [F64.eqb] in E. apply Qeq_bool_iff in E.
      rewrite E. ring. }
    destruct (proj2 (proj2 (gains_losses ds)) Hd) as [HG HL].
    apply (ewm_mean_inv _ update_zero window _ Hw) in HG.
    apply (ewm_mean_inv _ update_zero window _ Hw) in HL.
    rewrite Forall_forall in HG, HL.
    rewrite rsi_value_no_move;
      [reflexivity|apply finQ_zero_is_zero; auto|apply finQ_zero_is_zero; auto].
Qed.

(** [rsi_one_way_prices] on [Examples.gap_frame], whose closes rise from
    100 to 105: every bar after the first has an RSI of 100. *)
Lemma rsi_one_way_prices_witness :
  let batch := Polars.group ticker "AAA" Examples.gap_frame in
  let out :=
    Polars.group (fun p : Bar * option f64 => ticker (fst p)) "AAA"
                 (Features.add_rsi CLOSE 14 Examples.gap_frame) in
  (forall i a b, nth_error batch i = Some a -> nth_error batch (S i) = Some b ->
                 F64.ltb (CLOSE a) (CLOSE b) = true)
  /\ (forall t r v, nth_error out (S t) = Some (r, v) -> v = Some (F64.of_Z 100)).
Proof.
  cbv zeta.
  assert (Hr : forall i a b,
             nth_error (Polars.group ticker "AAA" Examples.gap_frame) i = Some a ->
             nth_error (Polars.group ticker "AAA" Examples.gap_frame) (S i) = Some b ->
             F64.ltb (CLOSE a) (CLOSE b) = true).
  { intros i a b Ha Hb.
    do 5 (destruct i as [|i];
          [injection Ha as <-; injection Hb as <-; reflexivity|]).
    destruct i; discriminate Hb. }
  split; [exact Hr|].
  refine (proj1 (rsi_one_way_prices Examples.gap_frame CLOSE 14 "AAA"
                   ltac:(lia) _) Hr).
  repeat constructor.
Defined.

(* ================================================================== *)
(** ** No indicator looks ahead *)

Lemma firstn_app_exact {A} (l l' : list A) : firstn (length l) (l ++ l') = l.
Proof.
  rewrite firstn_app, Nat.sub_diag, firstn_all. cbn. apply app_nil_r.
Qed.

Lemma firstn_ema_chain (alpha : f64) (n : nat) :
  forall prev xs,
    firstn n (ema_chain alpha prev xs) = ema_chain alpha prev (firstn n xs).
Proof.
  induction n as [|n IH]; intros prev [|x xs]; try reflexivity.
  cbn [ema_chain firstn]. f_equal. apply IH.
Qed.

Lemma firstn_window_at {A} (w : Z) (i n : nat) (l : list A) :
  (i < n)%nat -> Polars.window_at w i (firstn n l) = Polars.window_at w i l.
Proof.
  intros Hi. unfold Polars.window_at. rewrite firstn_firstn.
  now replace (Nat.min (S i) n) with (S i) by lia.
Qed.

Lemma firstn_of_seq (n : nat) :
  forall a len, firstn n (seq a len) = seq a (Nat.min n len).
Proof.
  induction n as [|n IH]; intros a [|len]; try reflexivity.
  cbn [seq firstn Nat.min]. f_equal. apply IH.
Qed.

Lemma firstn_rolling agg w mp (n : nat) (xs : Polars.Series f64) :
  firstn n (Polars.rolling agg w mp xs)
  = Polars.rolling agg w mp (firstn n xs).
Proof.
  unfold Polars.rolling. cbv zeta. rewrite firstn_map, length_firstn.
  rewrite firstn_of_seq. apply map_ext_in. intros i Hi. apply in_seq in Hi.
  rewrite firstn_window_at by lia. reflexivity.
Qed.

Lemma firstn_diff_from (n : nat) :
  forall prev xs,
    firstn n (Pandas.diff_from prev xs) = Pandas.diff_from prev (firstn n xs).
Proof.
  induction n as [|n IH]; intros prev [|x xs]; try reflexivity.
  cbn [Pandas.diff_from firstn]. f_equal. apply IH.
Qed.

Lemma firstn_pandas_diff (n : nat) (xs : list f64) :
  firstn n (Pandas.diff xs) = Pandas.diff (firstn n xs).
Proof.
  destruct n as [|n], xs as [|x xs]; try reflexivity.
  cbn [Pandas.diff firstn]. f_equal. apply firstn_diff_from.
Qed.

Lemma firstn_ewm_loop (span : Z) (n : nat) :
  forall weighted old_wt nobs vals,
    firstn n (Pandas.ewm_loop span weighted old_wt nobs vals)
    = Pandas.ewm_loop span weighted old_wt nobs (firstn n vals).
Proof.
  induction n as [|n IH]; intros weighted old_wt nobs [|cur vals];
    try reflexivity.
  cbn [Pandas.ewm_loop firstn]. f_equal. apply IH.
Qed.

Lemma firstn_pandas_ewm_mean (span : Z) (n : nat) (vals : list f64) :
  firstn n (Pandas.ewm_mean span vals) = Pandas.ewm_mean span (firstn n vals).
Proof.
  destruct n as [|n], vals as [|x vals]; try reflexivity.
  cbn [Pandas.ewm_mean firstn]. f_equal. apply firstn_ewm_loop.
Qed.

Lemma firstn_rsi_per_ticker {R : Type} (price_col : R -> f64) (window : Z)
      (n : nat) (batch : list R) :
  firstn n (Features._rsi_per_ticker price_col window batch)
  = Features._rsi_per_ticker price_col window (firstn n batch).
Proof.
  unfold Features._rsi_per_ticker, Features.rsi_rsi, Features.rsi_rs,
    Features.rsi_avg_gain, Features.rsi_avg_loss, Features.rsi_gain,
    Features.rsi_loss, Features.rsi_delta, Pandas.clip_lower, Pandas.clip_upper.
  rewrite combine_firstn, !firstn_map, combine_firstn.
  rewrite !firstn_pandas_ewm_mean, !firstn_map, !firstn_pandas_diff, firstn_map.
  reflexivity.
Qed.

(** X18.  [add_ema], [add_macd] and [add_bollinger_bands] do not look
    ahead: when the bars of a ticker, in timestamp order, are those of
    another frame followed by later ones, the cells of the earlier bars are
    the cells they have in that other frame.  A cell depends on its own
    bar and on the bars of the ticker before it only. *)
Theorem sorted_indicators_look_back {R : Type} `{Keyed R} (df df' : list R)
        (column : R -> f64) (window short_span long_span signal_span : Z)
        (k : f64) (tk : string) (later : list R) :
  Polars.group ticker tk (Polars.sort df')
  = Polars.group ticker tk (Polars.sort df) ++ later ->
  let n := length (Polars.group ticker tk (Polars.sort df)) in
  firstn n (Polars.group (fun p : R * option f64 => ticker (fst p)) tk
              (Features.add_ema df' column window))
  = Polars.group (fun p : R * option f64 => ticker (fst p)) tk
      (Features.add_ema df column window)
  /\ firstn n (Polars.group (fun r : Macd R => ticker (macd_row r)) tk
                 (Features.add_macd df' column short_span long_span signal_span))
     = Polars.group (fun r : Macd R => ticker (macd_row r)) tk
         (Features.add_macd df column short_span long_span signal_span)
  /\ firstn n (Polars.group (fun r : Bollinger R => ticker (bb_row r)) tk
                 (Features.add_bollinger_bands df' column window k))
     = Polars.group (fun r : Bollinger R => ticker (bb_row r)) tk
         (Features.add_bollinger_bands df column window k).
Proof.
  intros Hext. cbv zeta.
  rewrite !add_ema_group, !add_macd_group, !add_bollinger_bands_group.
  cbv zeta. rewrite Hext.
  set (part := Polars.group ticker tk (Polars.sort df)).
  unfold Polars.rolling_mean, Polars.rolling_std.
  repeat split;
    repeat (rewrite ?firstn_map, ?combine_firstn, ?firstn_ema_chain,
             ?firstn_rolling);
    rewrite !firstn_app_exact; reflexivity.
Qed.

(** [sorted_indicators_look_back] on [Examples.two_tickers] and on its
    first four rows: the third bar of each ticker is the later one. *)
Lemma sorted_indicators_look_back_witness :
  let df := firstn 4 Examples.two_tickers in
  let df' := Examples.two_tickers in
  let n := length (Polars.group ticker "AAA" (Polars.sort df)) in
  firstn n (Polars.group (fun p : Bar * option f64 => ticker (fst p)) "AAA"
              (Features.add_ema df' CLOSE 12))
  = Polars.group (fun p : Bar * option f64 => ticker (fst p)) "AAA"
      (Features.add_ema df CLOSE 12)
  /\ firstn n (Polars.group (fun r : Macd Bar => ticker (macd_row r)) "AAA"
                 (Features.add_macd df' CLOSE 12 26 9))
     = Polars.group (fun r : Macd Bar => ticker (macd_row r)) "AAA"
         (Features.add_macd df CLOSE 12 26 9)
  /\ firstn n (Polars.group (fun r : Bollinger Bar => ticker (bb_row r)) "AAA"
                 (Features.add_bollinger_bands df' CLOSE 12 (F64.of_Z 2)))
     = Polars.group (fun r : Bollinger Bar => ticker (bb_row r)) "AAA"
         (Features.add_bollinger_bands df CLOSE 12 (F64.of_Z 2)).
Proof.
  exact (sorted_indicators_look_back (firstn 4 Examples.two_tickers)
           Examples.two_tickers CLOSE 12 12 26 9 (F64.of_Z 2) "AAA"
           [Examples.bar_at "AAA" 10 (F64.of_Z 101)] eq_refl).
Defined.

(** X19.  [add_sma] and [add_rsi] do not look ahead either: when the rows
    of a ticker, in the order of the frame, are those of another frame
    followed by further ones, the cells of the earlier rows are the cells
    they have in that other frame (for [add_rsi], a frame with rows). *)
Theorem frame_indicators_look_back {R : Type} `{Keyed R} (df df' : list R)
        (column : R -> f64) (window : Z) (tk : string) (later : list R) :
  Polars.group ticker tk df' = Polars.group ticker tk df ++ later ->
  let n := length (Polars.group ticker tk df) in
  firstn n (Polars.group (fun p : R * option f64 => ticker (fst p)) tk
              (Features.add_sma df' column window ticker))
  = Polars.group (fun p : R * option f64 => ticker (fst p)) tk
      (Features.add_sma df column window ticker)
  /\ (df <> [] ->
      firstn n (Polars.group (fun p : R * option f64 => ticker (fst p)) tk
                  (Features.add_rsi column window df'))
      = Polars.group (fun p : R * option f64 => ticker (fst p)) tk
          (Features.add_rsi column window df)).
Proof.
  intros Hext. cbv zeta.
  rewrite !add_sma_group, !add_rsi_group. cbv zeta. rewrite Hext.
  unfold Polars.rolling_mean. split.
  - rewrite combine_firstn, firstn_rolling, !firstn_map, !firstn_app_exact.
    reflexivity.
  - intros _. rewrite firstn_rsi_per_ticker, firstn_app_exact. reflexivity.
Qed.

(** [frame_indicators_look_back] on [Examples.two_tickers] and on its first
    four rows, with a window of two bars. *)
Lemma frame_indicators_look_back_witness :
  let df := firstn 4 Examples.two_tickers in
  let df' := Examples.two_tickers in
  let n := length (Polars.group ticker "AAA" df) in
  firstn n (Polars.group (fun p : Bar * option f64 => ticker (fst p)) "AAA"
              (Features.add_sma df' CLOSE 2 ticker))
  = Polars.group (fun p : Bar * option f64 => ticker (fst p)) "AAA"
      (Features.add_sma df CLOSE 2 ticker)
  /\ (df <> [] ->
      firstn n (Polars.group (fun p : Bar * option f64 => ticker (fst p)) "AAA"
                  (Features.add_rsi CLOSE 2 df'))
      = Polars.group (fun p : Bar * option f64 => ticker (fst p)) "AAA"
          (Features.add_rsi CLOSE 2 df)).
Proof.
  exact (frame_indicators_look_back (firstn 4 Examples.two_tickers)
           Examples.two_tickers CLOSE 2 "AAA"
           [Examples.bar_at "AAA" 10 (F64.of_Z 101)] eq_refl).
Defined.

(* ================================================================== *)
(** ** The forward bar and the threshold of [preprocess_data] *)

Lemma sorted_neighbours {A} (rel : A -> A -> Prop) (l : list A) (a b : A) :
  StronglySorted rel l -> In (a, b) (combine l (tl l)) -> rel a b.
Proof.
  induction 1 as [|x l Hs IH Hx]; [contradiction|].
  destruct l as [|y l']; [contradiction|].
  cbn [tl combine]. intros [E|Hin].
  - injection E as <- <-. inversion Hx; auto.
  - apply IH. exact Hin.
Qed.

(** X20.  The forward bar of a row of the table [preprocess_data] returns
    is a bar of the input, of the same ticker, five minutes or more after
    the bar of the row; and where the table has a next row for the ticker,
    it is the bar of that row: [CLOSE_FWD_1] is the [CLOSE] of the next row
    of the ticker. *)
Theorem forward_bar_is_later (df : list Bar) (min_samples_per_ticker : Z)
        (tk : string) :
  let out :=
    Polars.group ticker tk
      (Preprocess.preprocess_data df min_samples_per_ticker) in
  (forall r, In r out ->
     exists nxt, In nxt df /\ TICKER nxt = TICKER (bar r)
                 /\ TIMESTAMP (bar r) + Preprocess.duration_minutes 5
                    <= TIMESTAMP nxt
                 /\ CLOSE_FWD_1 r = Some (CLOSE nxt))
  /\ (forall i r r', nth_error out i = Some r -> nth_error out (S i) = Some r' ->
        CLOSE_FWD_1 r = Some (CLOSE (bar r'))).
Proof.
  cbv zeta. rewrite preprocess_group. cbv zeta.
  set (part := Polars.sort (if n_rows df tk >? min_samples_per_ticker
                            then Polars.group TICKER tk df else [])).
  set (kept := five_minute_steps part).
  assert (Hpart : forall b, In b part -> In b df /\ TICKER b = tk).
  { intros b Hb. apply (Permutation_in _ (sort_perm _)) in Hb.
    destruct (n_rows df tk >? min_samples_per_ticker); [|contradiction].
    now apply group_In in Hb. }
  assert (Hkept : forall b, In b kept -> In b part).
  { intros b Hb. apply (subseq_In (tl part)); [apply subseq_tl|].
    apply (subseq_In kept); [apply steps_subseq|exact Hb]. }
  assert (Hts : by_timestamp part).
  { unfold part. destruct (n_rows df tk >? min_samples_per_ticker).
    - change (Polars.group TICKER tk df) with (Polars.group ticker tk df).
      rewrite <- group_sort. apply group_sorted_by_timestamp.
    - constructor. }
  pose proof (steps_spaced part Hts) as Hsp. fold kept in Hsp.
  split.
  - intros r Hr. apply in_map_iff in Hr. destruct Hr as ([b nxt] & <- & Hin).
    cbn [fst snd target_row bar CLOSE_FWD_1].
    pose proof (sorted_neighbours _ _ _ _ Hsp Hin) as Hstep.
    cbn [timestamp Keyed_Bar] in Hstep.
    assert (Hb : In b kept) by (now apply in_combine_l in Hin).
    assert (Hn : In nxt kept).
    { apply in_combine_r in Hin. apply (subseq_In (tl kept)); [apply subseq_tl|exact Hin]. }
    destruct (Hpart _ (Hkept _ Hb)) as [_ Eb].
    destruct (Hpart _ (Hkept _ Hn)) as [Hdf En].
    exists nxt. repeat split; auto. congruence.
  - intros i r r' Hr Hr'.
    rewrite nth_error_map in Hr, Hr'.
    destruct (nth_error (combine kept (tl kept)) i) as [[b n]|] eqn:E;
      [|discriminate].
    destruct (nth_error (combine kept (tl kept)) (S i)) as [[b' n']|] eqn:E';
      [|discriminate].
    cbn [option_map fst snd] in Hr, Hr'.
    injection Hr as <-. injection Hr' as <-.
    cbn [target_row bar CLOSE_FWD_1].
    apply nth_error_combine_inv in E, E'.
    destruct E as [_ En]. destruct E' as [Eb' _].
    assert (Hn : nth_error kept (S i) = Some n).
    { destruct kept; [destruct i; discriminate|exact En]. }
    congruence.
Qed.

Section SortedGroups.
Context {R : Type} `{Keyed R}.

(** A sorted frame is known from the rows of each of its tickers. *)
Lemma sorted_groups_eq (l1 : list R) :
  forall l2,
    StronglySorted key_le l1 -> StronglySorted key_le l2 ->
    (forall tk, Polars.group ticker tk l1 = Polars.group ticker tk l2) ->
    l1 = l2.
Proof.
  induction l1 as [|x l1 IH]; intros l2 Hs1 Hs2 Hg.
  - destruct l2 as [|y l2]; [reflexivity|].
    specialize (Hg (ticker y)). cbn in Hg. rewrite String.eqb_refl in Hg.
    discriminate.
  - destruct l2 as [|y l2].
    { specialize (Hg (ticker x)). cbn in Hg. rewrite String.eqb_refl in Hg.
      discriminate. }
    inversion Hs1 as [|? ? Hs1' Hx]; subst.
    inversion Hs2 as [|? ? Hs2' Hy]; subst.
    assert (Et : ticker x = ticker y).
    { destruct (String.eqb_spec (ticker x) (ticker y)) as [E|E]; [exact E|].
      pose proof (Hg (ticker x)) as Gx. pose proof (Hg (ticker y)) as Gy.
      cbn in Gx, Gy. rewrite String.eqb_refl in Gx, Gy.
      destruct (String.eqb_spec (ticker y) (ticker x)) as [E'|_];
        [congruence|].
      destruct (String.eqb_spec (ticker x) (ticker y)) as [E'|_];
        [congruence|].
      assert (Hx2 : In x l2).
      { assert (Hin : In x (Polars.group ticker (ticker x) l2))
          by (unfold Polars.group; rewrite <- Gx; now left).
        now apply group_In in Hin. }
      assert (Hy1 : In y l1).
      { assert (Hin : In y (Polars.group ticker (ticker y) l1))
          by (unfold Polars.group; rewrite Gy; now left).
        now apply group_In in Hin. }
      rewrite Forall_forall in Hx, Hy.
      now destruct (key_le_antisym x y (Hx y Hy1) (Hy x Hx2)). }
    assert (Exy : x = y).
    { specialize (Hg (ticker x)). cbn in Hg.
      rewrite <- Et, String.eqb_refl in Hg. now injection Hg. }
    subst y. f_equal. apply IH; auto.
    intros tk. specialize (Hg tk). cbn in Hg.
    destruct (String.eqb (ticker x) tk); [now injection Hg|exact Hg].
Qed.
End SortedGroups.

(** X21.  [min_samples_per_ticker] only selects tickers: with a higher
    threshold [preprocess_data] returns the rows it returns with a lower
    one, less those of the tickers that have no more rows in the input than
    the higher threshold.  The rows of a ticker that stays are the same. *)
Theorem threshold_selects_tickers (df : list Bar) (m m' : Z) :
  m <= m' ->
  Preprocess.preprocess_data df m'
  = List.filter (fun r => n_rows df (ticker r) >? m')
                (Preprocess.preprocess_data df m).
Proof.
  intros Hm. apply sorted_groups_eq.
  - apply preprocess_key_sorted.
  - eapply subseq_sorted; [apply subseq_filter|apply preprocess_key_sorted].
  - intros tk. rewrite group_filter, !preprocess_group. cbv zeta.
    destruct (n_rows df tk >? m') eqn:G'.
    + assert (G : (n_rows df tk >? m) = true)
        by (apply Z.gtb_lt; apply Z.gtb_lt in G'; lia).
      rewrite G. symmetry.
      rewrite (filter_ext_in _ (fun _ => true)), filter_const; [reflexivity|].
      intros r Hr. apply in_map_iff in Hr. destruct Hr as ([b n] & <- & Hin).
      cbn [fst snd target_row ticker Keyed_Target bar].
      apply in_combine_l in Hin.
      assert (Hb : In b (Polars.sort (Polars.group TICKER tk df))).
      { apply (subseq_In (tl (Polars.sort (Polars.group TICKER tk df))));
          [apply subseq_tl|].
        apply (subseq_In _ _ _ (steps_subseq _) Hin). }
      apply (Permutation_in _ (sort_perm _)) in Hb. apply group_In in Hb.
      destruct Hb as [_ ->]. exact G'.
    + cbn. symmetry.
      destruct (n_rows df tk >? m); [|reflexivity].
      rewrite (filter_ext_in _ (fun _ => false)), filter_const; [reflexivity|].
      intros r Hr. apply in_map_iff in Hr. destruct Hr as ([b n] & <- & Hin).
      cbn [fst snd target_row ticker Keyed_Target bar].
      apply in_combine_l in Hin.
      assert (Hb : In b (Polars.sort (Polars.group TICKER tk df))).
      { apply (subseq_In (tl (Polars.sort (Polars.group TICKER tk df))));
          [apply subseq_tl|].
        apply (subseq_In _ _ _ (steps_subseq _) Hin). }
      apply (Permutation_in _ (sort_perm _)) in Hb. apply group_In in Hb.
      destruct Hb as [_ ->]. exact G'.
Qed.

(** [threshold_selects_tickers] on [Examples.two_tickers], thresholds 1 and
    2. *)
Lemma threshold_selects_tickers_witness :
  Preprocess.preprocess_data Examples.two_tickers 2
  = List.filter (fun r => n_rows Examples.two_tickers (ticker r) >? 2)
                (Preprocess.preprocess_data Examples.two_tickers 1).
Proof.
  exact (threshold_selects_tickers Examples.two_tickers 1 2 ltac:(lia)).
Defined.
